(** * Pathtracer playground: intersection, traversal, sky and accumulation core

    A shallow embedding of the ray/scene intersection kernels (WGSL), the
    Hosek-Wilkie sky state construction (C) and the reference renderer's
    sample accumulation (C++), followed by the properties checked against
    their specification.

    The shaders compute on [f32].  The kernels are written once over a
    scalar interface ([Scalar], [MathLib], [Bits]) that lists exactly the
    operations the source uses; two implementations are provided:
    IEEE-754 binary32 ([b32], on the Standard Library's [spec_float], used
    to run the kernels on concrete vectors and for the wrap of texture
    coordinates) and exact rationals ([Q], used for algebraic facts that
    rounding does not preserve).  Unsigned 32-bit
    integers are [Z] with the wrap-around written out. *)

From Stdlib Require Import ZArith QArith Qround Qabs Lia Lqa Bool List Field.
From Stdlib Require Import Floats.SpecFloat.
From stdpp Require Import base list.

Local Open Scope Z_scope.

(** ** Machine integers *)

Definition u32_modulus : Z := 2 ^ 32.
Definition u32 (z : Z) : Z := z mod u32_modulus.
Definition u32_add (a b : Z) : Z := u32 (a + b).
Definition u32_sub (a b : Z) : Z := u32 (a - b).
Definition u32_mul (a b : Z) : Z := u32 (a * b).
Definition u32_shr (a n : Z) : Z := Z.shiftr a n.
Definition u32_and (a b : Z) : Z := Z.land a b.

Definition is_u32 (z : Z) : Prop := 0 <= z < u32_modulus.

(** Two's complement 32-bit signed integers, kept in [-2^31, 2^31). *)
Definition i32 (z : Z) : Z :=
  let r := z mod u32_modulus in
  if r <? 2 ^ 31 then r else r - u32_modulus.
Definition i32_add (a b : Z) : Z := i32 (a + b).
Definition i32_neg (a : Z) : Z := i32 (- a).

(** ** The scalar interface *)

(** Arithmetic, comparisons and conversions of the shader's [f32]. *)
Class Scalar (F : Type) := {
  fconst : Q -> F;              (* the value of a decimal literal *)
  fadd : F -> F -> F;
  fsub : F -> F -> F;
  fmul : F -> F -> F;
  fdiv : F -> F -> F;
  fneg : F -> F;
  fabs : F -> F;
  fltb : F -> F -> bool;        (* a < b *)
  fleb : F -> F -> bool;        (* a <= b *)
  fneb : F -> F -> bool;        (* a != b *)
  fmin : F -> F -> F;
  fmax : F -> F -> F;
  ffloor : F -> F;
  f32_of_u32 : Z -> F;          (* f32(u) *)
  u32_of_f32 : F -> Z;          (* u32(x) *)
  i32_of_f32 : F -> Z;          (* i32(x) *)
}.

(** Library functions that are not basic arithmetic. *)
Class MathLib (F : Type) := {
  fsqrt : F -> F;
  fcos : F -> F;
  fsin : F -> F;
  facos : F -> F;
  fexp : F -> F;
  fpow : F -> F -> F;
  ffmod : F -> F -> F;          (* C's fmodf *)
}.

(** Reinterpretation of the bits of an [f32] as an [i32] and back. *)
Class Bits (F : Type) := {
  bitcast_i32 : F -> Z;
  bitcast_f32 : Z -> F;
}.

(** The order facts the proofs rely on; all hold for IEEE comparisons
    (including NaN, which compares false with everything). *)
Class ScalarOrder (F : Type) `{Scalar F} := {
  fltb_irrefl : forall a : F, fltb a a = false;
  fltb_trans : forall a b c : F,
      fltb a b = true -> fltb b c = true -> fltb a c = true;
  fleb_fltb : forall a b : F, fleb a b = true -> fltb b a = false;
  fleb_fltb_trans : forall a b c : F,
      fleb a b = true -> fltb b c = true -> fltb a c = true;
}.

Definition fgtb {F} `{Scalar F} (a b : F) : bool := fltb b a.
Definition fgeb {F} `{Scalar F} (a b : F) : bool := fleb b a.

Declare Scope f32_scope.
Delimit Scope f32_scope with f32.
Infix "+" := fadd : f32_scope.
Infix "-" := fsub : f32_scope.
Infix "*" := fmul : f32_scope.
Infix "/" := fdiv : f32_scope.
Notation "- x" := (fneg x) : f32_scope.
Infix "<?" := fltb : f32_scope.
Infix "<=?" := fleb : f32_scope.
Infix ">?" := fgtb : f32_scope.
Infix ">=?" := fgeb : f32_scope.

(** WGSL [select(f, t, cond)]. *)
Definition select {A} (f t : A) (cond : bool) : A := if cond then t else f.

(** ** IEEE-754 binary32 *)

Module B32.
Definition prec : Z := 24.
Definition emax : Z := 128.

Definition t := spec_float.

Definition of_Z (n : Z) : t := binary_normalize prec emax n 0 false.

(** A decimal literal is the correctly rounded quotient of its numerator
    and denominator ([SFdiv] rounds once, whatever the operand widths). *)
Definition of_Q (q : Q) : t :=
  match Qnum q with
  | Z0 => S754_zero false
  | Zpos n => SFdiv prec emax (S754_finite false n 0) (S754_finite false (Qden q) 0)
  | Zneg n => SFdiv prec emax (S754_finite true n 0) (S754_finite false (Qden q) 0)
  end.

Definition neb (a b : t) : bool := negb (SFeqb a b).

(** WGSL [min]/[max]: the second operand when it is strictly smaller
    (larger), the first otherwise. *)
Definition min (a b : t) : t := if SFltb b a then b else a.
Definition max (a b : t) : t := if SFltb a b then b else a.

(** Integer part, rounded towards minus infinity and towards zero. *)
Definition floorZ (s : bool) (m : positive) (e : Z) : Z :=
  let n := if s then Zneg m else Zpos m in
  if 0 <=? e then n * 2 ^ e else n / 2 ^ (- e).
Definition truncZ (s : bool) (m : positive) (e : Z) : Z :=
  let n := if s then Zneg m else Zpos m in
  if 0 <=? e then n * 2 ^ e else Z.quot n (2 ^ (- e)).

Definition floor (x : t) : t :=
  match x with
  | S754_finite s m e =>
      if 0 <=? e then x else binary_normalize prec emax (floorZ s m e) 0 s
  | _ => x
  end.

Definition clampZ (lo hi z : Z) : Z := Z.max lo (Z.min hi z).

Definition to_u32 (x : t) : Z :=
  match x with
  | S754_finite s m e => clampZ 0 (2 ^ 32 - 1) (truncZ s m e)
  | S754_infinity false => 2 ^ 32 - 1
  | _ => 0
  end.

Definition to_i32 (x : t) : Z :=
  match x with
  | S754_finite s m e => clampZ (- 2 ^ 31) (2 ^ 31 - 1) (truncZ s m e)
  | S754_infinity false => 2 ^ 31 - 1
  | S754_infinity true => - 2 ^ 31
  | _ => 0
  end.

(** The binary32 interchange encoding. *)
Definition sign_bit (s : bool) : Z := if s then 2 ^ 31 else 0.

Definition bits (x : t) : Z :=
  match x with
  | S754_zero s => sign_bit s
  | S754_infinity s => sign_bit s + 255 * 2 ^ 23
  | S754_nan => 255 * 2 ^ 23 + 2 ^ 22
  | S754_finite s m e =>
      if Zpos m <? 2 ^ 23
      then sign_bit s + Zpos m
      else sign_bit s + (e + 150) * 2 ^ 23 + (Zpos m - 2 ^ 23)
  end.

Definition of_bits (u : Z) : t :=
  let u := u mod 2 ^ 32 in
  let s := 2 ^ 31 <=? u in
  let ex := (u / 2 ^ 23) mod 256 in
  let frac := u mod 2 ^ 23 in
  if ex =? 0 then
    match frac with
    | Zpos m => S754_finite s m (-149)
    | _ => S754_zero s
    end
  else if ex =? 255 then
    (if frac =? 0 then S754_infinity s else S754_nan)
  else
    match frac + 2 ^ 23 with
    | Zpos m => S754_finite s m (ex - 150)
    | _ => S754_nan
    end.

(** The rational a finite binary32 stands for (0 for the others). *)
Definition to_Q (x : t) : Q :=
  match x with
  | S754_finite s m e =>
      let n := if s then Zneg m else Zpos m in
      if 0 <=? e then inject_Z (n * 2 ^ e) else Qmake n (Z.to_pos (2 ^ (- e)))
  | _ => 0%Q
  end.

(** The value in units of [2^-149], the smallest positive binary32. *)
Definition scaled (x : t) : Z :=
  match x with
  | S754_finite s m e => (if s then Zneg m else Zpos m) * 2 ^ (e + 149)
  | _ => 0
  end.

Definition finite (x : t) : bool :=
  match x with
  | S754_finite _ _ _ | S754_zero _ => true
  | _ => false
  end.

(** A zero or a finite number in its canonical form. *)
Definition is_number (x : t) : bool := valid_binary prec emax x && finite x.

#[global] Instance scalar : Scalar t := {|
  fconst := of_Q;
  fadd := SFadd prec emax;
  fsub := SFsub prec emax;
  fmul := SFmul prec emax;
  fdiv := SFdiv prec emax;
  fneg := SFopp;
  fabs := SFabs;
  fltb := SFltb;
  fleb := SFleb;
  fneb := neb;
  fmin := min;
  fmax := max;
  ffloor := floor;
  f32_of_u32 := of_Z;
  u32_of_f32 := to_u32;
  i32_of_f32 := to_i32;
|}.

#[global] Instance bits_ops : Bits t := {|
  bitcast_i32 := fun x => i32 (bits x);
  bitcast_f32 := of_bits;
|}.

(** The square root is correctly rounded; the other library functions
    are supplied by the platform. *)
Definition mathlib (cos sin acos exp : t -> t) (pow fmod : t -> t -> t)
  : MathLib t := {|
  fsqrt := SFsqrt prec emax;
  fcos := cos;
  fsin := sin;
  facos := acos;
  fexp := exp;
  fpow := pow;
  ffmod := fmod;
|}.
End B32.

(** ** Exact rationals *)

Module QS.
Definition ltb (a b : Q) : bool := negb (Qle_bool b a).
Definition neb (a b : Q) : bool := negb (Qeq_bool a b).
Definition min (a b : Q) : Q := if ltb b a then b else a.
Definition max (a b : Q) : Q := if ltb a b then b else a.
Definition truncZ (q : Q) : Z := Z.quot (Qnum q) (Zpos (Qden q)).

#[global] Instance scalar : Scalar Q := {|
  fconst := fun q => q;
  fadd := Qplus;
  fsub := Qminus;
  fmul := Qmult;
  fdiv := Qdiv;
  fneg := Qopp;
  fabs := Qabs;
  fltb := ltb;
  fleb := Qle_bool;
  fneb := neb;
  fmin := min;
  fmax := max;
  ffloor := fun q => inject_Z (Qfloor q);
  f32_of_u32 := inject_Z;
  u32_of_f32 := fun q => B32.clampZ 0 (2 ^ 32 - 1) (truncZ q);
  i32_of_f32 := fun q => B32.clampZ (- 2 ^ 31) (2 ^ 31 - 1) (truncZ q);
|}.
End QS.

(** ** Vectors *)

Record vec3 (F : Type) := mkVec3 { vx : F; vy : F; vz : F }.
Arguments mkVec3 {F} _ _ _.
Arguments vx {F} _.
Arguments vy {F} _.
Arguments vz {F} _.

Record vec2 (F : Type) := mkVec2 { v2x : F; v2y : F }.
Arguments mkVec2 {F} _ _.
Arguments v2x {F} _.
Arguments v2y {F} _.

Section VectorOps.
Context {F : Type} `{Scalar F} `{MathLib F}.
Local Open Scope f32_scope.

Definition vsplat (a : F) : vec3 F := mkVec3 a a a.
Definition vadd (a b : vec3 F) : vec3 F :=
  mkVec3 (vx a + vx b) (vy a + vy b) (vz a + vz b).
Definition vsub (a b : vec3 F) : vec3 F :=
  mkVec3 (vx a - vx b) (vy a - vy b) (vz a - vz b).
Definition vmul (a b : vec3 F) : vec3 F :=
  mkVec3 (vx a * vx b) (vy a * vy b) (vz a * vz b).
Definition vscale (k : F) (a : vec3 F) : vec3 F :=
  mkVec3 (k * vx a) (k * vy a) (k * vz a).
Definition vmuls (a : vec3 F) (k : F) : vec3 F :=
  mkVec3 (vx a * k) (vy a * k) (vz a * k).
Definition vdivs (a : vec3 F) (k : F) : vec3 F :=
  mkVec3 (vx a / k) (vy a / k) (vz a / k).
Definition dot (a b : vec3 F) : F :=
  vx a * vx b + vy a * vy b + vz a * vz b.
Definition cross (a b : vec3 F) : vec3 F :=
  mkVec3 (vy a * vz b - vz a * vy b)
         (vz a * vx b - vx a * vz b)
         (vx a * vy b - vy a * vx b).
Definition vlength (a : vec3 F) : F := fsqrt (dot a a).
Definition normalize (a : vec3 F) : vec3 F := vdivs a (vlength a).

(** Component [i] of a vector, as WGSL's [v[i]]. *)
Definition vidx {A} (a : vec3 A) (i : Z) : A :=
  if i =? 0 then vx a else if i =? 1 then vy a else vz a.

Definition v2add (a b : vec2 F) : vec2 F := mkVec2 (v2x a + v2x b) (v2y a + v2y b).
Definition v2scale (k : F) (a : vec2 F) : vec2 F := mkVec2 (k * v2x a) (k * v2y a).

Definition fract (x : F) : F := x - ffloor x.
Definition clamp (x lo hi : F) : F := fmin (fmax x lo) hi.

End VectorOps.

(** ** Geometry shared by both shaders *)

Record Ray (F : Type) := mkRay { origin : vec3 F; direction : vec3 F }.
Arguments mkRay {F} _ _.
Arguments origin {F} _.
Arguments direction {F} _.

Record Aabb (F : Type) := mkAabb { aabb_min : vec3 F; aabb_max : vec3 F }.
Arguments mkAabb {F} _ _.
Arguments aabb_min {F} _.
Arguments aabb_max {F} _.

Record BvhNode (F : Type) := mkBvhNode {
  aabb : Aabb F;
  trianglesOffset : Z;
  secondChildOffset : Z;
  triangleCount : Z;
  splitAxis : Z;
}.
Arguments mkBvhNode {F} _ _ _ _ _.
Arguments aabb {F} _.
Arguments trianglesOffset {F} _.
Arguments secondChildOffset {F} _.
Arguments triangleCount {F} _.
Arguments splitAxis {F} _.

(** [Positions] in the deferred shader, [Triangle] in the raytracer. *)
Record Positions (F : Type) := mkPositions { p0 : vec3 F; p1 : vec3 F; p2 : vec3 F }.
Arguments mkPositions {F} _ _ _.
Arguments p0 {F} _.
Arguments p1 {F} _.
Arguments p2 {F} _.

Record RayAabbIntersector (F : Type) := mkRayAabbIntersector {
  ri_origin : vec3 F;
  invDir : vec3 F;
  dirNeg : vec3 Z;
}.
Arguments mkRayAabbIntersector {F} _ _ _.
Arguments ri_origin {F} _.
Arguments invDir {F} _.
Arguments dirNeg {F} _.

Section Geometry.
Context {F : Type} `{Scalar F} `{MathLib F}.
Local Open Scope f32_scope.

Definition EPSILON : F := fconst 0.00001.
Definition PI : F := fconst 3.1415927.
Definition FRAC_1_PI : F := fconst 0.31830987.
Definition T_MAX : F := fconst 10000.

Definition f0 : F := fconst 0.
Definition f1 : F := fconst 1.

Definition rayAabbIntersector (ray : Ray F) : RayAabbIntersector F :=
  let invDirection :=
    mkVec3 (f1 / vx (direction ray)) (f1 / vy (direction ray)) (f1 / vz (direction ray)) in
  mkRayAabbIntersector
    (origin ray)
    invDirection
    (mkVec3 (select 0%Z 1%Z (vx invDirection <? f0))
            (select 0%Z 1%Z (vy invDirection <? f0))
            (select 0%Z 1%Z (vz invDirection <? f0))).

(** [bounds[i]] for the two-element array [array(aabb.min, aabb.max)]. *)
Definition bounds (box : Aabb F) (i : Z) : vec3 F :=
  if (i =? 0)%Z then aabb_min box else aabb_max box.

(** The slab intervals of [rayIntersectAabb], before the comparison with
    [rayTMax]: [None] when one of the two early [return false] is taken. *)
Definition slabInterval (intersector : RayAabbIntersector F) (box : Aabb F)
  : option (F * F) :=
  let o := ri_origin intersector in
  let inv := invDir intersector in
  let dn := dirNeg intersector in
  let tmin := (vx (bounds box (vx dn)) - vx o) * vx inv in
  let tmax := (vx (bounds box (1 - vx dn)%Z) - vx o) * vx inv in
  let tymin := (vy (bounds box (vy dn)) - vy o) * vy inv in
  let tymax := (vy (bounds box (1 - vy dn)%Z) - vy o) * vy inv in
  if (tmin >? tymax) || (tymin >? tmax) then None else
  let tmin := fmax tymin tmin in
  let tmax := fmin tymax tmax in
  let tzmin := (vz (bounds box (vz dn)) - vz o) * vz inv in
  let tzmax := (vz (bounds box (1 - vz dn)%Z) - vz o) * vz inv in
  if (tmin >? tzmax) || (tzmin >? tmax) then None else
  let tmin := fmax tzmin tmin in
  let tmax := fmin tzmax tmax in
  Some (tmin, tmax).

Definition rayIntersectAabb (intersector : RayAabbIntersector F) (box : Aabb F)
    (rayTMax : F) : bool :=
  match slabInterval intersector box with
  | None => false
  | Some (tmin, tmax) => (tmin <? rayTMax) && (tmax >? f0)
  end.

End Geometry.

(** ** Moeller-Trumbore triangle intersection *)

Record TriangleHit (F : Type) := mkTriangleHit {
  th_p : vec3 F;   (* hit point, offset against self-intersection *)
  th_b : vec3 F;   (* barycentric weights *)
  th_t : F;        (* parametric distance *)
}.
Arguments mkTriangleHit {F} _ _ _.
Arguments th_p {F} _.
Arguments th_b {F} _.
Arguments th_t {F} _.

Section Triangle.
Context {F : Type} `{Scalar F} `{MathLib F} `{Bits F}.
Local Open Scope f32_scope.

Definition ORIGIN : F := f1 / fconst 32.
Definition FLOAT_SCALE : F := f1 / fconst 16384.
Definition INT_SCALE : F := fconst 1024.

(** One coordinate of [offsetPosition]. *)
Definition offsetCoord (p n : F) : F :=
  let offset := i32_of_f32 (INT_SCALE * n) in
  let po := bitcast_f32 (i32_add (bitcast_i32 p) (select offset (i32_neg offset) (p <? f0))) in
  select po (p + FLOAT_SCALE * n) (fabs p <? ORIGIN).

Definition offsetPosition (p n : vec3 F) : vec3 F :=
  mkVec3 (offsetCoord (vx p) (vx n))
         (offsetCoord (vy p) (vy n))
         (offsetCoord (vz p) (vz n)).

(** The locals of [rayIntersectTriangle], named as in the source. *)
Definition mt_e1 (tri : Positions F) : vec3 F := vsub (p1 tri) (p0 tri).
Definition mt_e2 (tri : Positions F) : vec3 F := vsub (p2 tri) (p0 tri).
Definition mt_h (ray : Ray F) (tri : Positions F) : vec3 F :=
  cross (direction ray) (mt_e2 tri).
Definition mt_det (ray : Ray F) (tri : Positions F) : F :=
  dot (mt_e1 tri) (mt_h ray tri).
Definition mt_invDet (ray : Ray F) (tri : Positions F) : F :=
  f1 / mt_det ray tri.
Definition mt_s (ray : Ray F) (tri : Positions F) : vec3 F :=
  vsub (origin ray) (p0 tri).
Definition mt_u (ray : Ray F) (tri : Positions F) : F :=
  mt_invDet ray tri * dot (mt_s ray tri) (mt_h ray tri).
Definition mt_q (ray : Ray F) (tri : Positions F) : vec3 F :=
  cross (mt_s ray tri) (mt_e1 tri).
Definition mt_v (ray : Ray F) (tri : Positions F) : F :=
  mt_invDet ray tri * dot (direction ray) (mt_q ray tri).
Definition mt_t (ray : Ray F) (tri : Positions F) : F :=
  mt_invDet ray tri * dot (mt_e2 tri) (mt_q ray tri).

(** [p = v0 + u * e1 + v * e2], before the self-intersection offset. *)
Definition mt_p (ray : Ray F) (tri : Positions F) : vec3 F :=
  vadd (vadd (p0 tri) (vscale (mt_u ray tri) (mt_e1 tri)))
       (vscale (mt_v ray tri) (mt_e2 tri)).
Definition mt_n (tri : Positions F) : vec3 F :=
  normalize (cross (mt_e1 tri) (mt_e2 tri)).

(** [rayIntersectTriangle] of the deferred shader: [None] is [return false],
    [Some hit] is [*hit = ...; return true]. *)
Definition rayIntersectTriangle (ray : Ray F) (tri : Positions F) (tmax : F)
  : option (TriangleHit F) :=
  let e1 := vsub (p1 tri) (p0 tri) in
  let e2 := vsub (p2 tri) (p0 tri) in
  let h := cross (direction ray) e2 in
  let det := dot e1 h in
  if (det >? - EPSILON) && (det <? EPSILON) then None else
  let invDet := f1 / det in
  let s := vsub (origin ray) (p0 tri) in
  let u := invDet * dot s h in
  if (u <? f0) || (u >? f1) then None else
  let q := cross s e1 in
  let v := invDet * dot (direction ray) q in
  if (v <? f0) || (u + v >? f1) then None else
  let t := invDet * dot e2 q in
  if (t >? EPSILON) && (t <? tmax) then
    let p := vadd (vadd (p0 tri) (vscale u e1)) (vscale v e2) in
    let n := normalize (cross e1 e2) in
    let b := mkVec3 (f1 - u - v) u v in
    Some (mkTriangleHit (offsetPosition p n) b t)
  else None.

End Triangle.

(** ** The raytracer shader's variant *)

Module Raytracer.

Record Intersection (F : Type) := mkIntersection {
  p : vec3 F;
  n : vec3 F;
  t : F;
}.
Arguments mkIntersection {F} _ _ _.
Arguments p {F} _.
Arguments n {F} _.
Arguments t {F} _.

Section Triangle.
Context {F : Type} `{Scalar F} `{MathLib F}.
Local Open Scope f32_scope.

Definition rayPointAtParameter (ray : Ray F) (t : F) : vec3 F :=
  vadd (origin ray) (vscale t (direction ray)).

Definition rayIntersectTriangle (ray : Ray F) (tri : Positions F) (tmax : F)
  : option (Intersection F) :=
  let e1 := vsub (p1 tri) (p0 tri) in
  let e2 := vsub (p2 tri) (p0 tri) in
  let h := cross (direction ray) e2 in
  let det := dot e1 h in
  if (det >? - EPSILON) && (det <? EPSILON) then None else
  let invDet := f1 / det in
  let s := vsub (origin ray) (p0 tri) in
  let u := invDet * dot s h in
  if (u <? f0) || (u >? f1) then None else
  let q := cross s e1 in
  let v := invDet * dot (direction ray) q in
  if (v <? f0) || (u + v >? f1) then None else
  let t := invDet * dot e2 q in
  if (t >? EPSILON) && (t <? tmax) then
    Some (mkIntersection (rayPointAtParameter ray t) (normalize (cross e1 e2)) t)
  else None.

End Triangle.
End Raytracer.

(** ** Arrays *)

(** A read of a fixed-size shader array at a dynamic index; an index out of
    range reads as zero (WGSL leaves the value open). *)
Definition aget {F} `{Scalar F} (a : list F) (i : Z) : F :=
  default (fconst 0) (a !! Z.to_nat i).

(** A C pointer into a static table: the table from that element on. *)
Definition ptr_add {A} (data : nat -> A) (k : nat) : nat -> A :=
  fun i => data (k + i)%nat.

(** ** The sky model library (C) *)

Module HwSkymodel.

Inductive SkyStateResult :=
| SkyStateResult_Success
| SkyStateResult_ElevationOutOfRange
| SkyStateResult_TurbidityOutOfRange
| SkyStateResult_AlbedoOutOfRange.

Inductive Channel := Channel_R | Channel_G | Channel_B.

(** [(size_t)channel]. *)
Definition channelIdx (c : Channel) : nat :=
  match c with Channel_R => 0 | Channel_G => 1 | Channel_B => 2 end%nat.

Record SkyParams (F : Type) := mkSkyParams {
  elevation : F;
  turbidity : F;
  albedo : vec3 F;    (* albedo[0], albedo[1], albedo[2] *)
}.
Arguments mkSkyParams {F} _ _ _.
Arguments elevation {F} _.
Arguments turbidity {F} _.
Arguments albedo {F} _.

Record SkyState (F : Type) := mkSkyState {
  params : list F;      (* float params[27] *)
  radiances : list F;   (* float radiances[3] *)
}.
Arguments mkSkyState {F} _ _.
Arguments params {F} _.
Arguments radiances {F} _.

Section Model.
Context {F : Type} `{Scalar F} `{MathLib F}.
(** The tabulated datasets ([params_r.h] ... [radiances_b.h]). *)
Variables paramsR paramsG paramsB radiancesR radiancesG radiancesB : nat -> F.
Local Open Scope f32_scope.

(** Every expression is evaluated in the scalar type; C's promotion of
    intermediate results to [double] is not distinguished. *)
Definition PI : F := fconst 3.14159265358979323846.

Definition quintic (stride : nat) (data : nat -> F) (t : F) : F :=
  let t2 := t * t in
  let t3 := t2 * t in
  let t4 := t2 * t2 in
  let t5 := t4 * t in
  let inv_t := fconst 1 - t in
  let inv_t2 := inv_t * inv_t in
  let inv_t3 := inv_t2 * inv_t in
  let inv_t4 := inv_t2 * inv_t2 in
  let inv_t5 := inv_t4 * inv_t in
  let m0 := data 0%nat * inv_t5 in
  let m1 := data stride * fconst 5 * inv_t4 * t in
  let m2 := data (2 * stride)%nat * fconst 10 * inv_t3 * t2 in
  let m3 := data (3 * stride)%nat * fconst 10 * inv_t2 * t3 in
  let m4 := data (4 * stride)%nat * fconst 5 * inv_t * t4 in
  let m5 := data (5 * stride)%nat * t5 in
  m0 + m1 + m2 + m3 + m4 + m5.

Definition quintic_9 := quintic 9.
Definition quintic_1 := quintic 1.

(** [(size_t)turbidity]. *)
Definition size_t_of_float (x : F) : nat := Z.to_nat (u32_of_f32 x).

(** The blend of the four corner datasets, with the accumulation order of
    the source ([out = 0; out += s0 * ...; ...]). *)
Definition blend (s0 s1 s2 s3 q0 q1 q2 q3 : F) : F :=
  fconst 0 + s0 * q0 + s1 * q1 + s2 * q2 + s3 * q3.

(** The body of the [for] loop of [initParams], iterations [i .. 8]. *)
Fixpoint initParamsLoop (n i : nat) (outParams : list F) (base : nat)
    (p0 p1 p2 p3 : nat -> F) (s0 s1 s2 s3 t : F) : list F :=
  match n with
  | O => outParams
  | S n' =>
      let v := blend s0 s1 s2 s3
                 (quintic_9 (ptr_add p0 i) t) (quintic_9 (ptr_add p1 i) t)
                 (quintic_9 (ptr_add p2 i) t) (quintic_9 (ptr_add p3 i) t) in
      initParamsLoop n' (S i) (<[(base + i)%nat := v]> outParams) base
                     p0 p1 p2 p3 s0 s1 s2 s3 t
  end.

(** [initParams(outParams + base, data, turbidity, albedo, t)]. *)
Definition initParams (outParams : list F) (base : nat) (data : nat -> F)
    (turbidity albedo t : F) : list F :=
  let turbidityInt := size_t_of_float turbidity in
  let turbidityRem := ffmod turbidity (fconst 1) in
  let turbidityMin := (turbidityInt - 1)%nat in
  let turbidityMax := if (turbidityInt <? 9)%nat then turbidityInt else 9%nat in
  let p0 := ptr_add data (9 * 6 * turbidityMin) in
  let p1 := ptr_add data (9 * 6 * turbidityMax) in
  let p2 := ptr_add data (9 * 6 * 10 + 9 * 6 * turbidityMin) in
  let p3 := ptr_add data (9 * 6 * 10 + 9 * 6 * turbidityMax) in
  let s0 := (fconst 1 - albedo) * (fconst 1 - turbidityRem) in
  let s1 := (fconst 1 - albedo) * turbidityRem in
  let s2 := albedo * (fconst 1 - turbidityRem) in
  let s3 := albedo * turbidityRem in
  initParamsLoop 9 0 outParams base p0 p1 p2 p3 s0 s1 s2 s3 t.

(** [initRadiances(outRadiance + base, data, turbidity, albedo, t)]. *)
Definition initRadiances (outRadiance : list F) (base : nat) (data : nat -> F)
    (turbidity albedo t : F) : list F :=
  let turbidity_int := size_t_of_float turbidity in
  let turbidity_rem := ffmod turbidity (fconst 1) in
  let turbidity_min := (turbidity_int - 1)%nat in
  let turbidity_max := if (turbidity_int <? 9)%nat then turbidity_int else 9%nat in
  let p0 := ptr_add data (6 * turbidity_min) in
  let p1 := ptr_add data (6 * turbidity_max) in
  let p2 := ptr_add data (6 * 10 + 6 * turbidity_min) in
  let p3 := ptr_add data (6 * 10 + 6 * turbidity_max) in
  let s0 := (fconst 1 - albedo) * (fconst 1 - turbidity_rem) in
  let s1 := (fconst 1 - albedo) * turbidity_rem in
  let s2 := albedo * (fconst 1 - turbidity_rem) in
  let s3 := albedo * turbidity_rem in
  <[base := blend s0 s1 s2 s3 (quintic_1 p0 t) (quintic_1 p1 t)
                              (quintic_1 p2 t) (quintic_1 p3 t)]> outRadiance.

(** [skyStateNew(skyParams, skyState)]: the result code and the caller's
    [SkyState] object after the call. *)
Definition skyStateNew (skyParams : SkyParams F) (skyState : SkyState F)
  : SkyStateResult * SkyState F :=
  let elevation := elevation skyParams in
  let turbidity := turbidity skyParams in
  let albedo := albedo skyParams in
  if (elevation <? fconst 0) || (elevation >? PI) then
    (SkyStateResult_ElevationOutOfRange, skyState)
  else if (turbidity <? fconst 1) || (turbidity >? fconst 10) then
    (SkyStateResult_TurbidityOutOfRange, skyState)
  else if ((vx albedo <? fconst 0) || (vx albedo >? fconst 1))
       || ((vy albedo <? fconst 0) || (vy albedo >? fconst 1))
       || ((vz albedo <? fconst 0) || (vz albedo >? fconst 1)) then
    (SkyStateResult_AlbedoOutOfRange, skyState)
  else
    let t := fpow (elevation / (fconst 0.5 * PI)) (fconst 1 / fconst 3) in
    let ps := params skyState in
    let ps := initParams ps 0 paramsR turbidity (vx albedo) t in
    let ps := initParams ps 9 paramsG turbidity (vy albedo) t in
    let ps := initParams ps (9 * 2) paramsB turbidity (vz albedo) t in
    let rs := radiances skyState in
    let rs := initRadiances rs 0 radiancesR turbidity (vx albedo) t in
    let rs := initRadiances rs 1 radiancesG turbidity (vy albedo) t in
    let rs := initRadiances rs 2 radiancesB turbidity (vz albedo) t in
    (SkyStateResult_Success, mkSkyState ps rs).

End Model.

Section Radiance.
Context {F : Type} `{Scalar F} `{MathLib F}.
Local Open Scope f32_scope.

(** [skyStateRadiance(skyState, theta, gamma, channel)]. *)
Definition skyStateRadiance (skyState : SkyState F) (theta gamma : F)
    (channel : Channel) : F :=
  let channelIdx := channelIdx channel in
  let r := aget (radiances skyState) (Z.of_nat channelIdx) in
  let p := fun i : nat => aget (params skyState) (Z.of_nat (9 * channelIdx + i)) in
  let p0 := p 0%nat in
  let p1 := p 1%nat in
  let p2 := p 2%nat in
  let p3 := p 3%nat in
  let p4 := p 4%nat in
  let p5 := p 5%nat in
  let p6 := p 6%nat in
  let p7 := p 7%nat in
  let p8 := p 8%nat in
  let cosGamma := fcos gamma in
  let cosGamma2 := cosGamma * cosGamma in
  let cos_theta := fabs (fcos theta) in
  let expM := fexp (p4 * gamma) in
  let rayM := cosGamma2 in
  let mieMLhs := fconst 1 + cosGamma2 in
  let mieMRhs := fpow (fconst 1 + p8 * p8 - fconst 2 * p8 * cosGamma) (fconst 1.5) in
  let mieM := mieMLhs / mieMRhs in
  let zenith := fsqrt cos_theta in
  let radiance_lhs := fconst 1 + p0 * fexp (p1 / (cos_theta + fconst 0.01)) in
  let radiance_rhs := p2 + p3 * expM + p5 * rayM + p6 * mieM + p7 * zenith in
  let radiance_dist := radiance_lhs * radiance_rhs in
  r * radiance_dist.

End Radiance.
End HwSkymodel.

(** ** Results of partial computations *)

(** A run ends normally, reads or writes an array out of range ([Fault]),
    or has not ended within the given number of loop iterations. *)
Inductive Outcome (A : Type) :=
| Done (a : A)
| Fault
| OutOfFuel.
Arguments Done {A} _.
Arguments Fault {A}.
Arguments OutOfFuel {A}.

Definition obind {A B} (c : Outcome A) (k : A -> Outcome B) : Outcome B :=
  match c with
  | Done a => k a
  | Fault => Fault
  | OutOfFuel => OutOfFuel
  end.

Notation "'let*' x ':=' c 'in' k" := (obind c (fun x => k))
  (at level 10, x name, c at level 100, k at level 200).

(** What one iteration of a [loop] does next. *)
Inductive Flow (S R : Type) :=
| Continue (s : S)
| Break (r : R).
Arguments Continue {S R} _.
Arguments Break {S R} _.

(** [a[i]] for a [u32] index. *)
Definition lookupZ {A} (a : list A) (i : Z) : Outcome A :=
  match a !! Z.to_nat i with
  | Some x => Done x
  | None => Fault
  end.

(** [a[i] = v] for a [u32] index. *)
Definition storeZ {A} (a : list A) (i : Z) (v : A) : Outcome (list A) :=
  if (Z.to_nat i <? length a)%nat then Done (<[Z.to_nat i := v]> a) else Fault.

(** ** BVH traversal with an explicit stack *)

(** The loop variables the three traversals share, and the rest. *)
Record Traversal (A : Type) := mkTraversal {
  toVisitOffset : Z;
  currentNodeIdx : Z;
  nodesToVisit : list Z;      (* array<u32, 32u> *)
  locals : A;
}.
Arguments mkTraversal {A} _ _ _ _.
Arguments toVisitOffset {A} _.
Arguments currentNodeIdx {A} _.
Arguments nodesToVisit {A} _.
Arguments locals {A} _.

Definition STACK_SIZE : nat := 32.

Section Traverse.
Context {F : Type} `{Scalar F} `{MathLib F}.
Context {A R : Type}.
Variable bvhNodes : list (BvhNode F).
Variable intersector : RayAabbIntersector F.
(** The bound the box test is called with. *)
Variable limit : A -> F.
(** The [for] loop over the triangles of a leaf. *)
Variable leaf : BvhNode F -> A -> Outcome (Flow A R).
(** The value returned once the loop is left by [break]. *)
Variable result : A -> R.

(** [if toVisitOffset == 0u { break; } toVisitOffset -= 1u;
     currentNodeIdx = nodesToVisit[toVisitOffset];] *)
Definition popNode (s : Traversal A) (a : A) : Outcome (Flow (Traversal A) R) :=
  if toVisitOffset s =? 0 then Done (Break (result a))
  else
    let off := u32_sub (toVisitOffset s) 1 in
    let* idx := lookupZ (nodesToVisit s) off in
    Done (Continue (mkTraversal off idx (nodesToVisit s) a)).

(** The interior-node branch: the far child is pushed, the near child is
    visited next. *)
Definition pushNode (s : Traversal A) (node : BvhNode F)
  : Outcome (Flow (Traversal A) R) :=
  if vidx (dirNeg intersector) (splitAxis node) =? 1 then
    let* stack := storeZ (nodesToVisit s) (toVisitOffset s) (u32_add (currentNodeIdx s) 1) in
    Done (Continue (mkTraversal (u32_add (toVisitOffset s) 1) (secondChildOffset node)
                                stack (locals s)))
  else
    let* stack := storeZ (nodesToVisit s) (toVisitOffset s) (secondChildOffset node) in
    Done (Continue (mkTraversal (u32_add (toVisitOffset s) 1) (u32_add (currentNodeIdx s) 1)
                                stack (locals s))).

(** One iteration of the [loop]. *)
Definition traverseStep (s : Traversal A) : Outcome (Flow (Traversal A) R) :=
  let* node := lookupZ bvhNodes (currentNodeIdx s) in
  if rayIntersectAabb intersector (aabb node) (limit (locals s)) then
    if triangleCount node >? 0 then
      let* fl := leaf node (locals s) in
      match fl with
      | Break r => Done (Break r)
      | Continue a => popNode s a
      end
    else pushNode s node
  else popNode s (locals s).

Fixpoint traverseLoop (fuel : nat) (s : Traversal A) : Outcome R :=
  match fuel with
  | O => OutOfFuel
  | S fuel' =>
      let* fl := traverseStep s in
      match fl with
      | Break r => Done r
      | Continue s' => traverseLoop fuel' s'
      end
  end.

(** The state after [n] iterations, for statements about every state the
    loop passes through. *)
Fixpoint traverseSteps (n : nat) (s : Traversal A) : Outcome (Flow (Traversal A) R) :=
  match n with
  | O => Done (Continue s)
  | S n' =>
      let* fl := traverseStep s in
      match fl with
      | Break r => Done (Break r)
      | Continue s' => traverseSteps n' s'
      end
  end.

Definition traverseInit (a : A) : Traversal A :=
  mkTraversal 0 0 (replicate STACK_SIZE 0) a.

End Traverse.

(** ** The raytracer shader's closest-hit traversal *)

Module RaytracerBvh.
Import Raytracer.

Record BvhLocals (F : Type) := mkBvhLocals {
  didIntersect : bool;
  tmax : F;
  hit : Intersection F;
}.
Arguments mkBvhLocals {F} _ _ _.
Arguments didIntersect {F} _.
Arguments tmax {F} _.
Arguments hit {F} _.

Section Bvh.
Context {F : Type} `{Scalar F} `{MathLib F}.
Variable bvhNodes : list (BvhNode F).
Variable triangles : list (Positions F).

(** [for (var idx: u32 = 0; idx < node.triangleCount; idx = idx + 1)],
    with [n] iterations left. *)
Fixpoint leafLoop (ray : Ray F) (node : BvhNode F) (n : nat) (idx : Z)
    (a : BvhLocals F) : Outcome (BvhLocals F) :=
  match n with
  | O => Done a
  | S n' =>
      let* triangle := lookupZ triangles (u32_add (trianglesOffset node) idx) in
      match rayIntersectTriangle ray triangle (tmax a) with
      | Some h => leafLoop ray node n' (u32_add idx 1) (mkBvhLocals true (t h) h)
      | None => leafLoop ray node n' (u32_add idx 1) a
      end
  end.

Definition leaf (ray : Ray F) (node : BvhNode F) (a : BvhLocals F)
  : Outcome (Flow (BvhLocals F) (bool * Intersection F)) :=
  let* a' := leafLoop ray node (Z.to_nat (triangleCount node)) 0 a in
  Done (Continue a').

(** [rayIntersectBvh(ray, rayTMax, hit)]: the returned flag and [*hit]. *)
Definition rayIntersectBvh (fuel : nat) (ray : Ray F) (rayTMax : F)
    (hit0 : Intersection F) : Outcome (bool * Intersection F) :=
  traverseLoop bvhNodes (rayAabbIntersector ray) tmax (leaf ray)
    (fun a => (didIntersect a, hit a))
    fuel (traverseInit (mkBvhLocals false rayTMax hit0)).

End Bvh.
End RaytracerBvh.

(** ** The deferred lighting pass shader *)

Module Deferred.

Record SkyState (F : Type) := mkSkyState {
  params : list F;           (* array<f32, 27> *)
  skyRadiances : list F;     (* array<f32, 3> *)
  solarRadiances : list F;   (* array<f32, 3> *)
  sunDirection : vec3 F;
}.
Arguments mkSkyState {F} _ _ _ _.
Arguments params {F} _.
Arguments skyRadiances {F} _.
Arguments solarRadiances {F} _.
Arguments sunDirection {F} _.

Record VertexAttributes (F : Type) := mkVertexAttributes {
  n0 : vec3 F;
  n1 : vec3 F;
  n2 : vec3 F;
  uv0 : vec2 F;
  uv1 : vec2 F;
  uv2 : vec2 F;
  va_textureDescriptorIdx : Z;
}.
Arguments mkVertexAttributes {F} _ _ _ _ _ _ _.
Arguments n0 {F} _.
Arguments n1 {F} _.
Arguments n2 {F} _.
Arguments uv0 {F} _.
Arguments uv1 {F} _.
Arguments uv2 {F} _.
Arguments va_textureDescriptorIdx {F} _.

Record TextureDescriptor := mkTextureDescriptor {
  width : Z;
  height : Z;
  offset : Z;
}.

Record BlueNoise (F : Type) := mkBlueNoise {
  bn_width : Z;
  bn_height : Z;
  bn_data : list (vec2 F);
}.
Arguments mkBlueNoise {F} _ _ _.
Arguments bn_width {F} _.
Arguments bn_height {F} _.
Arguments bn_data {F} _.

Record Intersection (F : Type) := mkIntersection {
  p : vec3 F;
  n : vec3 F;
  uv : vec2 F;
  textureDescriptorIdx : Z;
}.
Arguments mkIntersection {F} _ _ _ _.
Arguments p {F} _.
Arguments n {F} _.
Arguments uv {F} _.
Arguments textureDescriptorIdx {F} _.

(** The resources bound to the shader. *)
Record Bindings (F : Type) := mkBindings {
  frameCount : Z;                                  (* uniforms.frameCount *)
  skyState : SkyState F;
  bvhNodes : list (BvhNode F);
  positionAttributes : list (Positions F);
  vertexAttributes : list (VertexAttributes F);
  textureDescriptors : list TextureDescriptor;
  textures : list Z;
  blueNoise : BlueNoise F;
}.
Arguments mkBindings {F} _ _ _ _ _ _ _ _.
Arguments frameCount {F} _.
Arguments skyState {F} _.
Arguments bvhNodes {F} _.
Arguments positionAttributes {F} _.
Arguments vertexAttributes {F} _.
Arguments textureDescriptors {F} _.
Arguments textures {F} _.
Arguments blueNoise {F} _.

Record BvhLocals (F : Type) := mkBvhLocals {
  didIntersect : bool;
  tmax : F;
  hit : Intersection F;
}.
Arguments mkBvhLocals {F} _ _ _.
Arguments didIntersect {F} _.
Arguments tmax {F} _.
Arguments hit {F} _.

Definition CHANNEL_R : Z := 0.
Definition CHANNEL_G : Z := 1.
Definition CHANNEL_B : Z := 2.
Definition NUM_BOUNCES : Z := 2.

Section Shader.
Context {F : Type} `{Scalar F} `{MathLib F} `{Bits F}.
Variable g : Bindings F.
Local Open Scope f32_scope.

Definition DEGREES_TO_RADIANS : F := PI / fconst 180.
Definition TERRESTRIAL_SOLAR_RADIUS : F := fconst 0.255 * DEGREES_TO_RADIANS.
Definition SOLAR_COS_THETA_MAX : F := fcos TERRESTRIAL_SOLAR_RADIUS.
Definition SOLAR_INV_PDF : F := fconst 2 * PI * (f1 - SOLAR_COS_THETA_MAX).

(** *** Closest hit *)

(** The [Intersection] written for triangle [triangleIdx] and its hit. *)
Definition shadeHit (trihit : TriangleHit F) (vert : VertexAttributes F)
  : Intersection F :=
  let b := th_b trihit in
  let p := th_p trihit in
  let n := vadd (vadd (vscale (vx b) (n0 vert)) (vscale (vy b) (n1 vert)))
                (vscale (vz b) (n2 vert)) in
  let uv := v2add (v2add (v2scale (vx b) (uv0 vert)) (v2scale (vy b) (uv1 vert)))
                  (v2scale (vz b) (uv2 vert)) in
  mkIntersection p n uv (va_textureDescriptorIdx vert).

(** [for (var idx = 0u; idx < node.triangleCount; idx = idx + 1u)], with
    [n] iterations left. *)
Fixpoint closestLeafLoop (ray : Ray F) (node : BvhNode F) (n : nat) (idx : Z)
    (a : BvhLocals F) : Outcome (BvhLocals F) :=
  match n with
  | O => Done a
  | S n' =>
      let* triangle := lookupZ (positionAttributes g) (u32_add (trianglesOffset node) idx) in
      match rayIntersectTriangle ray triangle (tmax a) with
      | Some trihit =>
          let triangleIdx := u32_add (trianglesOffset node) idx in
          let* vert := lookupZ (vertexAttributes g) triangleIdx in
          closestLeafLoop ray node n' (u32_add idx 1)
            (mkBvhLocals true (th_t trihit) (shadeHit trihit vert))
      | None => closestLeafLoop ray node n' (u32_add idx 1) a
      end
  end.

Definition closestLeaf (ray : Ray F) (node : BvhNode F) (a : BvhLocals F)
  : Outcome (Flow (BvhLocals F) (bool * Intersection F)) :=
  let* a' := closestLeafLoop ray node (Z.to_nat (triangleCount node)) 0 a in
  Done (Continue a').

(** [rayIntersectBvh(ray, rayTMax, hit)]: the returned flag and [*hit]. *)
Definition rayIntersectBvh (fuel : nat) (ray : Ray F) (rayTMax : F)
    (hit0 : Intersection F) : Outcome (bool * Intersection F) :=
  traverseLoop (bvhNodes g) (rayAabbIntersector ray) tmax (closestLeaf ray)
    (fun a => (didIntersect a, hit a))
    fuel (traverseInit (mkBvhLocals false rayTMax hit0)).

(** *** Any hit *)

Fixpoint shadowLeafLoop (ray : Ray F) (rayTMax : F) (node : BvhNode F)
    (n : nat) (idx : Z) : Outcome (Flow unit F) :=
  match n with
  | O => Done (Continue tt)
  | S n' =>
      let* triangle := lookupZ (positionAttributes g) (u32_add (trianglesOffset node) idx) in
      match rayIntersectTriangle ray triangle rayTMax with
      | Some _ => Done (Break f0)
      | None => shadowLeafLoop ray rayTMax node n' (u32_add idx 1)
      end
  end.

Definition shadowLeaf (ray : Ray F) (rayTMax : F) (node : BvhNode F) (_ : unit)
  : Outcome (Flow unit F) :=
  shadowLeafLoop ray rayTMax node (Z.to_nat (triangleCount node)) 0.

(** [shadowRay(ray, rayTMax)]: 1 if no forward intersection, 0 otherwise. *)
Definition shadowRay (fuel : nat) (ray : Ray F) (rayTMax : F) : Outcome F :=
  traverseLoop (bvhNodes g) (rayAabbIntersector ray) (fun _ => rayTMax)
    (shadowLeaf ray rayTMax) (fun _ => f1)
    fuel (traverseInit tt).

(** *** Sky *)

(** [skyRadiance(theta, gamma, channel)]. *)
Definition skyRadiance (theta gamma : F) (channel : Z) : F :=
  let r := aget (skyRadiances (skyState g)) channel in
  let idx := u32_mul 9 channel in
  let p0 := aget (params (skyState g)) (u32_add idx 0) in
  let p1 := aget (params (skyState g)) (u32_add idx 1) in
  let p2 := aget (params (skyState g)) (u32_add idx 2) in
  let p3 := aget (params (skyState g)) (u32_add idx 3) in
  let p4 := aget (params (skyState g)) (u32_add idx 4) in
  let p5 := aget (params (skyState g)) (u32_add idx 5) in
  let p6 := aget (params (skyState g)) (u32_add idx 6) in
  let p7 := aget (params (skyState g)) (u32_add idx 7) in
  let p8 := aget (params (skyState g)) (u32_add idx 8) in
  let cosGamma := fcos gamma in
  let cosGamma2 := cosGamma * cosGamma in
  let cosTheta := fabs (fcos theta) in
  let expM := fexp (p4 * gamma) in
  let rayM := cosGamma2 in
  let mieMLhs := fconst 1 + cosGamma2 in
  let mieMRhs := fpow (fconst 1 + p8 * p8 - fconst 2 * p8 * cosGamma) (fconst 1.5) in
  let mieM := mieMLhs / mieMRhs in
  let zenith := fsqrt cosTheta in
  let radianceLhs := fconst 1 + p0 * fexp (p1 / (cosTheta + fconst 0.01)) in
  let radianceRhs := p2 + p3 * expM + p5 * rayM + p6 * mieM + p7 * zenith in
  let radianceDist := radianceLhs * radianceRhs in
  let solarDiskRadius := gamma / TERRESTRIAL_SOLAR_RADIUS in
  let solarRadiance :=
    select f0 (aget (solarRadiances (skyState g)) channel) (solarDiskRadius <=? f1) in
  r * radianceDist + solarRadiance.

(** The three channels along direction [v], as [main] and [surfaceColor]
    evaluate them. *)
Definition skyColor (v : vec3 F) : vec3 F :=
  let s := sunDirection (skyState g) in
  let theta := facos (vy v) in
  let gamma := facos (clamp (dot v s) (- f1) f1) in
  mkVec3 (skyRadiance theta gamma CHANNEL_R)
         (skyRadiance theta gamma CHANNEL_G)
         (skyRadiance theta gamma CHANNEL_B).

(** *** Textures *)

(** The flat index of the texel [textureLookup] reads. *)
Definition texelIndex (desc : TextureDescriptor) (uv : vec2 F) : Z :=
  let u := fract (v2x uv) in
  let v := fract (v2y uv) in
  let j := u32_of_f32 (u * f32_of_u32 (width desc)) in
  let i := u32_of_f32 (v * f32_of_u32 (height desc)) in
  let idx := u32_add (u32_mul i (width desc)) j in
  u32_add (offset desc) idx.

(** The decoding of a packed texel. *)
Definition decodeTexel (bgra : Z) : vec3 F :=
  let srgb := vdivs (mkVec3 (f32_of_u32 (u32_and (u32_shr bgra 16) 255))
                            (f32_of_u32 (u32_and (u32_shr bgra 8) 255))
                            (f32_of_u32 (u32_and bgra 255)))
                    (fconst 255) in
  let linearRgb := mkVec3 (fpow (vx srgb) (fconst 2.2))
                          (fpow (vy srgb) (fconst 2.2))
                          (fpow (vz srgb) (fconst 2.2)) in
  linearRgb.

(** [textureLookup(desc, uv)]. *)
Definition textureLookup (desc : TextureDescriptor) (uv : vec2 F) : Outcome (vec3 F) :=
  let u := fract (v2x uv) in
  let v := fract (v2y uv) in
  let j := u32_of_f32 (u * f32_of_u32 (width desc)) in
  let i := u32_of_f32 (v * f32_of_u32 (height desc)) in
  let idx := u32_add (u32_mul i (width desc)) j in
  let* bgra := lookupZ (textures g) (u32_add (offset desc) idx) in
  let srgb := vdivs (mkVec3 (f32_of_u32 (u32_and (u32_shr bgra 16) 255))
                            (f32_of_u32 (u32_and (u32_shr bgra 8) 255))
                            (f32_of_u32 (u32_and bgra 255)))
                    (fconst 255) in
  let linearRgb := mkVec3 (fpow (vx srgb) (fconst 2.2))
                          (fpow (vy srgb) (fconst 2.2))
                          (fpow (vz srgb) (fconst 2.2)) in
  Done linearRgb.

Definition evalTexture (textureDescriptorIdx : Z) (uv : vec2 F) : Outcome (vec3 F) :=
  let* textureDesc := lookupZ (textureDescriptors g) textureDescriptorIdx in
  textureLookup textureDesc uv.

(** *** Sampling *)

(** A [mat3x3f], by columns. *)
Record mat3 := mkMat3 { col0 : vec3 F; col1 : vec3 F; col2 : vec3 F }.

Definition mat3_mul (m : mat3) (v : vec3 F) : vec3 F :=
  vadd (vadd (vscale (vx v) (col0 m)) (vscale (vy v) (col1 m))) (vscale (vz v) (col2 m)).

Definition pixarOnb (n : vec3 F) : mat3 :=
  let s := select (- f1) f1 (vz n >=? f0) in
  let a := - f1 / (s + vz n) in
  let b := vx n * vy n * a in
  let u := mkVec3 (f1 + s * vx n * vx n * a) (s * b) (- s * vx n) in
  let v := mkVec3 b (s + vy n * vy n * a) (- vy n) in
  mkMat3 u v n.

Definition directionInCone (u : vec2 F) (cosThetaMax : F) : vec3 F :=
  let cosTheta := f1 - v2x u * (f1 - cosThetaMax) in
  let sinTheta := fsqrt (f1 - cosTheta * cosTheta) in
  let phi := fconst 2 * PI * v2y u in
  mkVec3 (fcos phi * sinTheta) (fsin phi * sinTheta) cosTheta.

Definition directionInCosineWeightedHemisphere (u : vec2 F) : vec3 F :=
  let phi := fconst 2 * PI * v2y u in
  let sinTheta := fsqrt (f1 - v2x u) in
  mkVec3 (fcos phi * sinTheta) (fsin phi * sinTheta) (fsqrt (v2x u)).

Definition sampleSolarDiskDirection (u : vec2 F) (cosThetaMax : F) (direction : vec3 F)
  : vec3 F :=
  let v := directionInCone u cosThetaMax in
  let onb := pixarOnb direction in
  mat3_mul onb v.

Definition evalImplicitLambertian (u : vec2 F) (n : vec3 F) : vec3 F :=
  let v := directionInCosineWeightedHemisphere u in
  let onb := pixarOnb n in
  mat3_mul onb v.

Definition animatedBlueNoise (coord : Z * Z) (frameCount frameCountCycle : Z)
  : Outcome (vec2 F) :=
  let bn := blueNoise g in
  let idx := u32_add (u32_mul (snd coord mod bn_height bn) (bn_width bn))
                     (fst coord mod bn_width bn) in
  let* noise := lookupZ (bn_data bn) idx in
  let n := frameCount mod frameCountCycle in
  let a1 := fconst 0.7548776662466927 in
  let a2 := fconst 0.5698402909980532 in
  let r2Seq := mkVec2 (fract (a1 * f32_of_u32 n)) (fract (a2 * f32_of_u32 n)) in
  Done (mkVec2 (fract (v2x noise + v2x r2Seq)) (fract (v2y noise + v2y r2Seq))).

(** *** The integrator *)

(** The scene queries a path performs, in order. *)
Inductive Event :=
| EvShadowRay (ray : Ray F)        (* a direct-light sample *)
| EvClosestHit (ray : Ray F)       (* a bounce *)
| EvSky (v : vec3 F).              (* the sky along an escaped direction *)

(** [lightSample(u, position, normal, albedo)]. *)
Definition lightSample (fuel : nat) (u : vec2 F) (position normal albedo : vec3 F)
  : Outcome (vec3 F * list Event) :=
  let lightDirection :=
    sampleSolarDiskDirection u SOLAR_COS_THETA_MAX (sunDirection (skyState g)) in
  let lightIntensity :=
    mkVec3 (aget (solarRadiances (skyState g)) CHANNEL_R)
           (aget (solarRadiances (skyState g)) CHANNEL_G)
           (aget (solarRadiances (skyState g)) CHANNEL_B) in
  let brdf := vmuls albedo FRAC_1_PI in
  let reflectance := vmuls brdf (dot normal lightDirection) in
  let shadow := mkRay position lightDirection in
  let* lightVisibility := shadowRay fuel shadow T_MAX in
  Done (vmuls (vmuls (vmul lightIntensity reflectance) lightVisibility) SOLAR_INV_PDF,
        [EvShadowRay shadow]).

(** The variables of [surfaceColor] that the loop updates. *)
Record Path := mkPath {
  position : vec3 F;
  normal : vec3 F;
  albedo : vec3 F;
  radiance : vec3 F;
  throughput : vec3 F;
}.

(** The zero value of a [var hit: Intersection] without initializer. *)
Definition zeroIntersection : Intersection F :=
  mkIntersection (vsplat f0) (vsplat f0) (mkVec2 f0 f0) 0.

(** The [if]/[else] on the continuation ray inside the loop: on a hit the
    shading point moves to the hit ([Continue]), on an escape the sky is
    added and the loop is left ([Break]). *)
Definition bounce (fuel : nat) (ray : Ray F) (throughput : vec3 F) (st : Path)
  : Outcome (Flow Path (vec3 F) * list Event) :=
  let* r := rayIntersectBvh fuel ray T_MAX zeroIntersection in
  if fst r then
    let hit := snd r in
    let* albedo := evalTexture (textureDescriptorIdx hit) (uv hit) in
    Done (Continue (mkPath (p hit) (n hit) albedo (radiance st) throughput),
          [EvClosestHit ray])
  else
    let v := direction ray in
    let skyRadiance := skyColor v in
    Done (Break (vadd (radiance st) (vmul throughput skyRadiance)),
          [EvClosestHit ray; EvSky v]).

(** The [for] loop of [surfaceColor] with [k] iterations left: the radiance
    returned and the queries made from here on. *)
Fixpoint bounceLoop (fuel : nat) (u : vec2 F) (k : nat) (st : Path)
  : Outcome (vec3 F * list Event) :=
  match k with
  | O => Done (radiance st, [])
  | S k' =>
      let wi := evalImplicitLambertian u (normal st) in
      let ray := mkRay (position st) wi in
      let throughput := vmul (throughput st) (albedo st) in
      let* b := bounce fuel ray throughput st in
      match fst b with
      | Break radiance => Done (radiance, snd b)
      | Continue st' =>
          let* ls := lightSample fuel u (position st') (normal st') (albedo st') in
          let radiance := vadd (radiance st') (vmul throughput (fst ls)) in
          let* rest := bounceLoop fuel u k'
                         (mkPath (position st') (normal st') (albedo st') radiance throughput) in
          Done (fst rest, snd b ++ snd ls ++ snd rest)
      end
  end.

(** [surfaceColor(coord, primaryPos, primaryNormal, primaryAlbedo)]. *)
Definition surfaceColor (fuel : nat) (coord : Z * Z)
    (primaryPos primaryNormal primaryAlbedo : vec3 F) : Outcome (vec3 F * list Event) :=
  let* u := animatedBlueNoise coord (frameCount g) (Z.shiftl 1 20) in
  let* ls := lightSample fuel u primaryPos primaryNormal primaryAlbedo in
  let radiance := vadd (vsplat f0) (vmul (vsplat f1) (fst ls)) in
  let* rest := bounceLoop fuel u (Z.to_nat (NUM_BOUNCES - 1))
                 (mkPath primaryPos primaryNormal primaryAlbedo radiance (vsplat f1)) in
  Done (fst rest, snd ls ++ snd rest).

End Shader.
End Deferred.

(** ** The reference path tracer's sample accumulation (C++) *)

Module ReferencePathTracer.

Record Extent2u := mkExtent2u { x : Z; y : Z }.

Record Camera (F : Type) := mkCamera {
  cam_origin : vec3 F;
  lowerLeftCorner : vec3 F;
  horizontal : vec3 F;
  vertical : vec3 F;
  up : vec3 F;
  right : vec3 F;
  lensRadius : F;
}.
Arguments mkCamera {F} _ _ _ _ _ _ _.
Arguments cam_origin {F} _.
Arguments lowerLeftCorner {F} _.
Arguments horizontal {F} _.
Arguments vertical {F} _.
Arguments up {F} _.
Arguments right {F} _.
Arguments lensRadius {F} _.

Record SamplingParams := mkSamplingParams {
  numSamplesPerPixel : Z;   (* std::uint32_t *)
  numBounces : Z;           (* std::uint32_t *)
}.

Record Sky (F : Type) := mkSky {
  turbidity : F;
  albedo : vec3 F;
  sunZenithDegrees : F;
  sunAzimuthDegrees : F;
}.
Arguments mkSky {F} _ _ _ _.
Arguments turbidity {F} _.
Arguments albedo {F} _.
Arguments sunZenithDegrees {F} _.
Arguments sunAzimuthDegrees {F} _.

Record RenderParameters (F : Type) := mkRenderParameters {
  framebufferSize : Extent2u;
  camera : Camera F;
  samplingParams : SamplingParams;
  sky : Sky F;
}.
Arguments mkRenderParameters {F} _ _ _ _.
Arguments framebufferSize {F} _.
Arguments camera {F} _.
Arguments samplingParams {F} _.
Arguments sky {F} _.

(** The members of the renderer that [setRenderParameters] and [render]
    read and write. *)
Record Renderer (F : Type) := mkRenderer {
  mCurrentRenderParams : RenderParameters F;
  mFrameCount : Z;                 (* std::uint32_t *)
  mAccumulatedSampleCount : Z;     (* std::uint32_t *)
}.
Arguments mkRenderer {F} _ _ _.
Arguments mCurrentRenderParams {F} _.
Arguments mFrameCount {F} _.
Arguments mAccumulatedSampleCount {F} _.

(** What [render] uploads for the shading stage ([RenderParamsLayout]). *)
Record FrameUpload := mkFrameUpload {
  up_frameCount : Z;
  up_numSamplesPerPixel : Z;
  up_accumulatedSampleCount : Z;
}.

Section Model.
Context {F : Type} `{Scalar F}.

(** Modelled from the spec: the header that declares the parameter structs
    and their [operator!=] is not among the sources.  The members are those
    the renderer reads, and two values differ when a member differs. *)
Definition vec3_neq (a b : vec3 F) : bool :=
  fneb (vx a) (vx b) || fneb (vy a) (vy b) || fneb (vz a) (vz b).

Definition extent_neq (a b : Extent2u) : bool :=
  negb (x a =? x b) || negb (y a =? y b).

Definition camera_neq (a b : Camera F) : bool :=
  vec3_neq (cam_origin a) (cam_origin b)
  || vec3_neq (lowerLeftCorner a) (lowerLeftCorner b)
  || vec3_neq (horizontal a) (horizontal b)
  || vec3_neq (vertical a) (vertical b)
  || vec3_neq (up a) (up b)
  || vec3_neq (right a) (right b)
  || fneb (lensRadius a) (lensRadius b).

Definition sampling_neq (a b : SamplingParams) : bool :=
  negb (numSamplesPerPixel a =? numSamplesPerPixel b)
  || negb (numBounces a =? numBounces b).

Definition sky_neq (a b : Sky F) : bool :=
  fneb (turbidity a) (turbidity b)
  || vec3_neq (albedo a) (albedo b)
  || fneb (sunZenithDegrees a) (sunZenithDegrees b)
  || fneb (sunAzimuthDegrees a) (sunAzimuthDegrees b).

(** Modelled from the spec: [mCurrentRenderParams != renderParams] holds
    when any render parameter (framebuffer size, camera, sampling
    configuration, sky configuration) has changed. *)
Definition renderParameters_neq (a b : RenderParameters F) : bool :=
  extent_neq (framebufferSize a) (framebufferSize b)
  || camera_neq (camera a) (camera b)
  || sampling_neq (samplingParams a) (samplingParams b)
  || sky_neq (sky a) (sky b).

(** The constructor's initialisation of these members. *)
Definition new (renderParams : RenderParameters F) : Renderer F :=
  mkRenderer renderParams 0 0.

Definition setRenderParameters (renderParams : RenderParameters F) (r : Renderer F)
  : Renderer F :=
  if renderParameters_neq (mCurrentRenderParams r) renderParams then
    mkRenderer renderParams (mFrameCount r) 0
  else r.

(** [render]; [nextTexture] tells whether the swap chain handed out a
    texture view.  The GPU commands are left out, the upload of the frame's
    parameters is returned. *)
Definition render (nextTexture : bool) (r : Renderer F)
  : Renderer F * option FrameUpload :=
  if negb nextTexture then (r, None)
  else
    let target := numSamplesPerPixel (samplingParams (mCurrentRenderParams r)) in
    let upload := mkFrameUpload (mFrameCount r) target (mAccumulatedSampleCount r) in
    (mkRenderer (mCurrentRenderParams r)
                (u32_add (mFrameCount r) 1)
                (Z.min (u32_add (mAccumulatedSampleCount r) 1) target),
     Some upload).

(** The calls a render loop makes. *)
Inductive Op :=
| OpSetRenderParameters (renderParams : RenderParameters F)
| OpRender (nextTexture : bool).

Definition apply (op : Op) (r : Renderer F) : Renderer F :=
  match op with
  | OpSetRenderParameters p => setRenderParameters p r
  | OpRender b => fst (render b r)
  end.

Definition run (ops : list Op) (r : Renderer F) : Renderer F :=
  fold_left (fun r op => apply op r) ops r.

Definition target (r : Renderer F) : Z :=
  numSamplesPerPixel (samplingParams (mCurrentRenderParams r)).

(** The invariant [render] asserts on entry. *)
Definition counterInvariant (r : Renderer F) : Prop :=
  0 <= mAccumulatedSampleCount r <= target r.

End Model.
End ReferencePathTracer.

(** ** BVH trees *)

(** The tree a flattened node array encodes: every node with its index. *)
Inductive BvhTree (F : Type) :=
| Leaf (idx : Z) (node : BvhNode F)
| Interior (idx : Z) (node : BvhNode F) (first second : BvhTree F).
Arguments Leaf {F} _ _.
Arguments Interior {F} _ _ _ _.

Section Trees.
Context {F : Type}.

Definition root (t : BvhTree F) : Z :=
  match t with Leaf i _ => i | Interior i _ _ _ => i end.

Definition treeNode (t : BvhTree F) : BvhNode F :=
  match t with Leaf _ nd => nd | Interior _ nd _ _ => nd end.

Fixpoint treeSize (t : BvhTree F) : nat :=
  match t with
  | Leaf _ _ => 1
  | Interior _ _ l r => S (treeSize l + treeSize r)
  end.

(** The largest number of interior nodes on a path from the root. *)
Fixpoint interiorDepth (t : BvhTree F) : nat :=
  match t with
  | Leaf _ _ => 0
  | Interior _ _ l r => S (Nat.max (interiorDepth l) (interiorDepth r))
  end.

(** The indices of the triangles in the leaves. *)
Fixpoint leafTriangles (t : BvhTree F) : list Z :=
  match t with
  | Leaf _ nd => seqZ (trianglesOffset nd) (triangleCount nd)
  | Interior _ _ l r => leafTriangles l ++ leafTriangles r
  end.

(** [t] is laid out in [nodes] the way the traversal reads it: a leaf has
    triangles, in range of the [numTriangles] triangles; an interior node
    has none, its first child follows it and its second child is at
    [secondChildOffset]. *)
Fixpoint treeIn (nodes : list (BvhNode F)) (numTriangles : Z) (t : BvhTree F) : Prop :=
  match t with
  | Leaf i nd =>
      0 <= i /\ nodes !! Z.to_nat i = Some nd /\
      0 < triangleCount nd < u32_modulus /\ 0 <= trianglesOffset nd /\
      trianglesOffset nd + triangleCount nd <= numTriangles
  | Interior i nd l r =>
      0 <= i /\ nodes !! Z.to_nat i = Some nd /\
      triangleCount nd = 0 /\ 0 <= splitAxis nd <= 2 /\
      root l = i + 1 /\ root r = secondChildOffset nd /\
      treeIn nodes numTriangles l /\ treeIn nodes numTriangles r
  end.

(** The layout of a flattened BVH over [numTriangles] triangles: the
    arrays are addressable by [u32], the tree is rooted at node 0 with the
    first child of a node right after it, and no leaf lies below more
    interior nodes than the traversal stack has entries. *)
Record BvhLayout (nodes : list (BvhNode F)) (numTriangles : Z) (t : BvhTree F)
  : Prop := {
  layout_nodes_u32 : Z.of_nat (length nodes) <= u32_modulus;
  layout_triangles_u32 : numTriangles <= u32_modulus;
  layout_root : root t = 0;
  layout_tree : treeIn nodes numTriangles t;
  layout_depth : (interiorDepth t <= STACK_SIZE)%nat;
}.

(** A well-formed BVH: the layout above, and every triangle is in a leaf. *)
Record WellFormedBvh (nodes : list (BvhNode F)) (numTriangles : Z) (t : BvhTree F)
  : Prop := {
  wf_layout : BvhLayout nodes numTriangles t;
  wf_cover : forall k, 0 <= k < numTriangles -> k ∈ leafTriangles t;
}.

End Trees.

Section TreeVisit.
Context {F : Type} `{Scalar F} `{MathLib F}.
Context {A R : Type}.
Variable intersector : RayAabbIntersector F.
Variable limit : A -> F.
Variable leaf : BvhNode F -> A -> Outcome (Flow A R).

Definition andThen (c : Outcome (Flow A R)) (k : A -> Outcome (Flow A R))
  : Outcome (Flow A R) :=
  let* fl := c in
  match fl with
  | Break r => Done (Break r)
  | Continue a => k a
  end.

(** The traversal as a recursion over the tree: what the loop computes
    between reaching the root of [t] and leaving [t]. *)
Fixpoint visit (t : BvhTree F) (a : A) : Outcome (Flow A R) :=
  match t with
  | Leaf _ nd =>
      if rayIntersectAabb intersector (aabb nd) (limit a) then leaf nd a
      else Done (Continue a)
  | Interior _ nd l r =>
      if rayIntersectAabb intersector (aabb nd) (limit a) then
        if vidx (dirNeg intersector) (splitAxis nd) =? 1
        then andThen (visit r a) (visit l)
        else andThen (visit l a) (visit r)
      else Done (Continue a)
  end.

End TreeVisit.

Section Bounding.
Context {F : Type} `{Scalar F} `{MathLib F}.

(** The parametric distance at which the ray meets the triangle: the tests
    of [rayIntersectTriangle] without the comparison of [t] with [tmax]. *)
Definition hitTime (ray : Ray F) (tri : Positions F) : option F :=
  let det := mt_det ray tri in
  let u := mt_u ray tri in
  let v := mt_v ray tri in
  let t := mt_t ray tri in
  if (fgtb det (fneg EPSILON) && fltb det EPSILON)
     || (fltb u f0 || fgtb u f1)
     || (fltb v f0 || fgtb (fadd u v) f1)
     || negb (fgtb t EPSILON)
  then None
  else Some t.

(** Triangle [k] of [positions] is intersected at distance [t], with
    [EPSILON < t < rayTMax]. *)
Definition hitAt (positions : list (Positions F)) (ray : Ray F) (rayTMax : F)
    (k : Z) (t : F) : Prop :=
  0 <= k /\
  exists tri, positions !! Z.to_nat k = Some tri
              /\ hitTime ray tri = Some t
              /\ fgtb t EPSILON = true /\ fltb t rayTMax = true.

(** The box of every node bounds, for the ray, the triangles below the
    node: whenever the ray meets one of them before [tm], the box test with
    bound [tm] succeeds. *)
Fixpoint boxesBound (positions : list (Positions F)) (ray : Ray F) (t : BvhTree F)
  : Prop :=
  (forall k tri tm d,
      k ∈ leafTriangles t -> positions !! Z.to_nat k = Some tri ->
      hitTime ray tri = Some d -> fltb d tm = true ->
      rayIntersectAabb (rayAabbIntersector ray) (aabb (treeNode t)) tm = true)
  /\ match t with
     | Leaf _ _ => True
     | Interior _ _ l r => boxesBound positions ray l /\ boxesBound positions ray r
     end.

(** The same, as a check on the slab interval of each box: the ray enters
    the box no later than it meets the triangle and leaves it at a positive
    distance. *)
Definition boxBoundsHit (ray : Ray F) (box : Aabb F) (tri : Positions F) : bool :=
  match hitTime ray tri with
  | None => true
  | Some d =>
      match slabInterval (rayAabbIntersector ray) box with
      | None => false
      | Some (tmin, tmax) => fleb tmin d && fgtb tmax f0
      end
  end.

Definition boxBoundsAll (positions : list (Positions F)) (ray : Ray F) (box : Aabb F)
    (ks : list Z) : bool :=
  forallb (fun k => match positions !! Z.to_nat k with
                    | Some tri => boxBoundsHit ray box tri
                    | None => true
                    end) ks.

Fixpoint boxesBoundCheck (positions : list (Positions F)) (ray : Ray F) (t : BvhTree F)
  : bool :=
  boxBoundsAll positions ray (aabb (treeNode t)) (leafTriangles t)
  && match t with
     | Leaf _ _ => true
     | Interior _ _ l r =>
         boxesBoundCheck positions ray l && boxesBoundCheck positions ray r
     end.

(** The geometric condition a BVH build establishes: the box of every node
    contains the vertices of the triangles below the node. *)
Definition pointInBox (box : Aabb F) (p : vec3 F) : Prop :=
  (fleb (vx (aabb_min box)) (vx p) = true /\ fleb (vx p) (vx (aabb_max box)) = true)
  /\ (fleb (vy (aabb_min box)) (vy p) = true /\ fleb (vy p) (vy (aabb_max box)) = true)
  /\ (fleb (vz (aabb_min box)) (vz p) = true /\ fleb (vz p) (vz (aabb_max box)) = true).

Definition triangleInBox (box : Aabb F) (tri : Positions F) : Prop :=
  pointInBox box (p0 tri) /\ pointInBox box (p1 tri) /\ pointInBox box (p2 tri).

Fixpoint boxesContain (positions : list (Positions F)) (t : BvhTree F) : Prop :=
  (forall k tri,
      k ∈ leafTriangles t -> positions !! Z.to_nat k = Some tri ->
      triangleInBox (aabb (treeNode t)) tri)
  /\ match t with
     | Leaf _ _ => True
     | Interior _ _ l r => boxesContain positions l /\ boxesContain positions r
     end.

(** No component of the ray's direction is zero. *)
Definition obliqueRay (ray : Ray F) : Prop :=
  fneb (vx (direction ray)) f0 = true
  /\ fneb (vy (direction ray)) f0 = true
  /\ fneb (vz (direction ray)) f0 = true.

(** The hit record [rayIntersectTriangle] writes for a triangle met at
    distance [t]. *)
Definition triangleHitAt `{Bits F} (ray : Ray F) (tri : Positions F) (t : F)
  : TriangleHit F :=
  mkTriangleHit (offsetPosition (mt_p ray tri) (mt_n tri))
                (mkVec3 (fsub (fsub f1 (mt_u ray tri)) (mt_v ray tri))
                        (mt_u ray tri) (mt_v ray tri))
                t.

(** The [Intersection] the raytracer's variant writes. *)
Definition intersectionAt (ray : Ray F) (tri : Positions F) (t : F)
  : Raytracer.Intersection F :=
  Raytracer.mkIntersection (Raytracer.rayPointAtParameter ray t) (mt_n tri) t.

(** Two stacks hold the same entries below [off]. *)
Definition stackAgree (off : Z) (s1 s2 : list Z) : Prop :=
  length s1 = length s2 /\ forall j : nat, (Z.of_nat j < off) -> s1 !! j = s2 !! j.

End Bounding.

(** ** Rays through a known point of a triangle *)

Section KnownPoint.
Context {F : Type} `{Scalar F}.

(** The point of the triangle with barycentric weights [(1 - a - b, a, b)]. *)
Definition pointOn (tri : Positions F) (a b : F) : vec3 F :=
  vadd (vadd (p0 tri) (vscale a (mt_e1 tri))) (vscale b (mt_e2 tri)).

(** The ray with direction [d] that is at that point for the parameter
    [t0]: its origin is the point moved back by [t0 * d]. *)
Definition rayThrough (tri : Positions F) (a b : F) (d : vec3 F) (t0 : F) : Ray F :=
  mkRay (vsub (pointOn tri a b) (vscale t0 d)) d.

End KnownPoint.

Definition vec3_Qeq (a b : vec3 Q) : Prop :=
  (vx a == vx b /\ vy a == vy b /\ vz a == vz b)%Q.

(** The unit test's vectors, on binary32. *)
Definition b32 (q : Q) : B32.t := B32.of_Q q.

Definition test_ray : Ray B32.t :=
  mkRay (mkVec3 (b32 0) (b32 0) (b32 0)) (mkVec3 (b32 0) (b32 0) (b32 1)).
Definition test_triangle : Positions B32.t :=
  mkPositions (mkVec3 (b32 0) (b32 0) (b32 1))
              (mkVec3 (b32 1) (b32 0) (b32 1))
              (mkVec3 (b32 0) (b32 1) (b32 1)).

(** Library functions for runs that do not depend on their values. *)
Definition b32_mathlib_sqrt_only : MathLib B32.t :=
  B32.mathlib (fun x => x) (fun x => x) (fun x => x) (fun x => x)
              (fun x _ => x) (fun x _ => x).
Definition q_mathlib_none : MathLib Q :=
  {| fsqrt := fun x => x; fcos := fun x => x; fsin := fun x => x;
     facos := fun x => x; fexp := fun x => x;
     fpow := fun x _ => x; ffmod := fun x _ => x |}.
Definition q_bits_none : Bits Q :=
  {| bitcast_i32 := fun _ => 0%Z; bitcast_f32 := fun _ => 0%Q |}.

(** ** Specification-level notions *)

Section SpecNotions.
Context {F : Type} `{Scalar F} `{MathLib F}.
Local Open Scope f32_scope.

(** [x] violates the domain [[lo, hi]], as the validation tests it. *)
Definition outsideRange (lo hi x : F) : Prop :=
  (x <? lo) = true \/ (x >? hi) = true.

Definition insideRange (lo hi x : F) : Prop :=
  (lo <=? x) = true /\ (x <=? hi) = true.

(** The radiance distribution of the sky dome for coefficients [p 0 .. p 8]:
    the zenith term times the sum of the constant, forward-scattering,
    Rayleigh, Mie and horizon terms. *)
Definition radianceDistribution (p : Z -> F) (theta gamma : F) : F :=
  (fconst 1 + p 0%Z * fexp (p 1%Z / (fabs (fcos theta) + fconst 0.01)))
  * (p 2%Z
     + p 3%Z * fexp (p 4%Z * gamma)
     + p 5%Z * (fcos gamma * fcos gamma)
     + p 6%Z * ((fconst 1 + fcos gamma * fcos gamma)
                / fpow (fconst 1 + p 8%Z * p 8%Z - fconst 2 * p 8%Z * fcos gamma)
                       (fconst 1.5))
     + p 7%Z * fsqrt (fabs (fcos theta))).

(** The shader's test for a direction inside the solar disc. *)
Definition withinSolarDisk (gamma : F) : bool :=
  (gamma / Deferred.TERRESTRIAL_SOLAR_RADIUS <=? f1).

End SpecNotions.

(** Inputs of the sky model on binary32, with all tables zero. *)
Definition zeroTable : nat -> B32.t := fun _ => S754_zero false.

Definition b32_skyStateNew (p : HwSkymodel.SkyParams B32.t) (st : HwSkymodel.SkyState B32.t)
  : HwSkymodel.SkyStateResult * HwSkymodel.SkyState B32.t :=
  @HwSkymodel.skyStateNew _ B32.scalar b32_mathlib_sqrt_only
    zeroTable zeroTable zeroTable zeroTable zeroTable zeroTable p st.

Definition b32_skyParams (elevation turbidity a0 a1 a2 : Q) : HwSkymodel.SkyParams B32.t :=
  HwSkymodel.mkSkyParams (b32 elevation) (b32 turbidity) (mkVec3 (b32 a0) (b32 a1) (b32 a2)).

Definition emptySkyState : HwSkymodel.SkyState B32.t :=
  HwSkymodel.mkSkyState (replicate 27 (S754_zero false)) (replicate 3 (S754_zero false)).

(** Render parameters for running the accumulation: everything zero but
    the target sample count. *)
Definition test_renderParams (target : Z) : ReferencePathTracer.RenderParameters Q :=
  ReferencePathTracer.mkRenderParameters
    (ReferencePathTracer.mkExtent2u 640 480)
    (ReferencePathTracer.mkCamera (mkVec3 0 0 0) (mkVec3 0 0 0) (mkVec3 0 0 0)
       (mkVec3 0 0 0) (mkVec3 0 0 0) (mkVec3 0 0 0) 0)%Q
    (ReferencePathTracer.mkSamplingParams target 2)
    (ReferencePathTracer.mkSky 1 (mkVec3 1 1 1) 30 0)%Q.

Definition opWellTyped {F} (op : ReferencePathTracer.Op (F := F)) : Prop :=
  match op with
  | ReferencePathTracer.OpSetRenderParameters p =>
      is_u32 (ReferencePathTracer.numSamplesPerPixel (ReferencePathTracer.samplingParams p))
  | ReferencePathTracer.OpRender _ => True
  end.

(** The 8-bit component of a packed texel at bit [s]. *)
Definition channel8 (bgra s : Z) : Z := u32_and (u32_shr bgra s) 255.

Definition b32_uv (u v : Q) : vec2 B32.t := mkVec2 (b32 u) (b32 v).

Section SubtreeRun.
Context {F : Type} `{Scalar F} `{MathLib F}.
Context {A R : Type}.
Variable nodes : list (BvhNode F).
Variable intersector : RayAabbIntersector F.
Variable limit : A -> F.
Variable leaf : BvhNode F -> A -> Outcome (Flow A R).
Variable result : A -> R.

(** What the loop does between reaching the root of a subtree with
    [toVisitOffset = off] and leaving the subtree, [n] iterations later:
    it computes [visit], pops the node to visit next, keeps the stack
    below [off], and its offset stays within [off] and [off] plus the
    interior depth of the subtree. *)
Definition subtreeRun (t : BvhTree F) (off : Z) (stack : list Z) (a : A)
    (n : nat) (stack' : list Z) : Prop :=
  (1 <= n <= treeSize t)%nat
  /\ stackAgree off stack stack'
  /\ traverseSteps nodes intersector limit leaf result n (mkTraversal off (root t) stack a) =
     match visit intersector limit leaf t a with
     | Done (Continue a') => popNode result (mkTraversal off (root t) stack' a) a'
     | Done (Break r) => Done (Break r)
     | Fault => Fault
     | OutOfFuel => OutOfFuel
     end
  /\ forall j : nat, (j < n)%nat ->
       exists s', traverseSteps nodes intersector limit leaf result j
                    (mkTraversal off (root t) stack a) = Done (Continue s')
                  /\ off <= toVisitOffset s' <= off + Z.of_nat (interiorDepth t).

End SubtreeRun.

(** ** What a closest-hit traversal has established *)

Section ClosestSpec.
Context {F : Type} `{Scalar F} `{MathLib F}.
Context {A : Type}.
Variable positions : list (Positions F).
Variable ray : Ray F.
Variable rayTMax : F.
(** The flag and the bound among the loop variables, the relation between
    the loop variables and the triangle their hit was written for, and the
    loop variables before the loop. *)
Variable did : A -> bool.
Variable tm : A -> F.
Variable writtenFor : A -> Z -> Prop.
Variable a0 : A.

(** After the triangles [P] have been dealt with (tested, or skipped with
    their box): without a hit so far the variables are the initial ones
    and no triangle of [P] is intersected before [rayTMax]; with a hit, it
    is the hit of a triangle of [P], the bound is its distance, and no
    triangle of [P] is intersected at a smaller distance. *)
Definition closestInv (P : Z -> Prop) (a : A) : Prop :=
  (did a = false ->
     a = a0 /\ forall k t, P k -> ~ hitAt positions ray rayTMax k t)
  /\ (did a = true ->
      exists k t, P k /\ hitAt positions ray rayTMax k t /\ tm a = t /\ writtenFor a k
                  /\ forall k' t', P k' -> hitAt positions ray rayTMax k' t' ->
                                   fltb t' t = false).

End ClosestSpec.

(** The hit of the deferred shader's traversal was written for triangle
    [k]: its point, normal and UV are those of [shadeHit]. *)
Definition deferredWrittenFor {F} `{Scalar F} `{MathLib F} `{Bits F}
    (g : Deferred.Bindings F) (ray : Ray F) (a : Deferred.BvhLocals F) (k : Z) : Prop :=
  exists tri vert,
    Deferred.positionAttributes g !! Z.to_nat k = Some tri
    /\ Deferred.vertexAttributes g !! Z.to_nat k = Some vert
    /\ Deferred.hit a = Deferred.shadeHit (triangleHitAt ray tri (Deferred.tmax a)) vert.

(** What the closest-hit query has to return: the flag tells whether some
    triangle is intersected before [rayTMax]; with a hit, the record
    written is that of an intersected triangle and no triangle is
    intersected at a smaller distance; without one, the record is left as
    it was. *)
Definition closestHitOf {F} `{Scalar F} `{MathLib F} `{Bits F}
    (g : Deferred.Bindings F) (ray : Ray F) (rayTMax : F)
    (hit0 : Deferred.Intersection F) (did : bool) (hit : Deferred.Intersection F) : Prop :=
  (did = true <-> exists k d, hitAt (Deferred.positionAttributes g) ray rayTMax k d)
  /\ (did = true ->
      exists k d tri vert,
        hitAt (Deferred.positionAttributes g) ray rayTMax k d
        /\ Deferred.positionAttributes g !! Z.to_nat k = Some tri
        /\ Deferred.vertexAttributes g !! Z.to_nat k = Some vert
        /\ hit = Deferred.shadeHit (triangleHitAt ray tri d) vert
        /\ forall k' d',
             hitAt (Deferred.positionAttributes g) ray rayTMax k' d' ->
             fltb d' d = false)
  /\ (did = false -> hit = hit0).

Definition raytracerWrittenFor {F} `{Scalar F} `{MathLib F}
    (triangles : list (Positions F)) (ray : Ray F) (a : RaytracerBvh.BvhLocals F) (k : Z)
  : Prop :=
  exists tri,
    triangles !! Z.to_nat k = Some tri
    /\ RaytracerBvh.hit a = intersectionAt ray tri (RaytracerBvh.tmax a).

(** ** A small scene on binary32 *)

(** Two triangles in the planes [z = 1] and [z = 2], one leaf each under a
    root that splits along [z]; every box is the bounding box of the
    triangles below it. *)
Definition b32_vec3 (x y z : Q) : vec3 B32.t := mkVec3 (b32 x) (b32 y) (b32 z).

Definition scene_triangle (z : Q) : Positions B32.t :=
  mkPositions (b32_vec3 0 0 z) (b32_vec3 1 0 z) (b32_vec3 0 1 z).

Definition scene_vertex (textureDescriptorIdx : Z) : Deferred.VertexAttributes B32.t :=
  Deferred.mkVertexAttributes
    (b32_vec3 0 0 (-1)) (b32_vec3 0 0 (-1)) (b32_vec3 0 0 (-1))
    (mkVec2 (b32 0) (b32 0)) (mkVec2 (b32 1) (b32 0)) (mkVec2 (b32 0) (b32 1))
    textureDescriptorIdx.

Definition scene_root : BvhNode B32.t :=
  mkBvhNode (mkAabb (b32_vec3 0 0 1) (b32_vec3 1 1 2)) 0 2 0 2.
Definition scene_near : BvhNode B32.t :=
  mkBvhNode (mkAabb (b32_vec3 0 0 1) (b32_vec3 1 1 1)) 0 0 1 0.
Definition scene_far : BvhNode B32.t :=
  mkBvhNode (mkAabb (b32_vec3 0 0 2) (b32_vec3 1 1 2)) 1 0 1 0.

Definition scene_tree : BvhTree B32.t :=
  Interior 0 scene_root (Leaf 1 scene_near) (Leaf 2 scene_far).

Definition scene_sky : Deferred.SkyState B32.t :=
  Deferred.mkSkyState (replicate 27 (b32 0)) (replicate 3 (b32 1)) (replicate 3 (b32 2))
    (b32_vec3 0 1 0).

Definition scene : Deferred.Bindings B32.t :=
  Deferred.mkBindings 0 scene_sky
    [scene_root; scene_near; scene_far]
    [scene_triangle 1; scene_triangle 2]
    [scene_vertex 0; scene_vertex 0]
    [Deferred.mkTextureDescriptor 1 1 0]
    [16777215]
    (Deferred.mkBlueNoise 1 1 [mkVec2 (b32 0.5) (b32 0.5)]).

(** A ray that goes up through both triangles, and its reverse, which
    leaves the scene. *)
Definition scene_ray : Ray B32.t :=
  mkRay (b32_vec3 0.25 0.25 0) (b32_vec3 0.125 0.125 1).
Definition scene_ray_down : Ray B32.t :=
  mkRay (b32_vec3 0.25 0.25 0) (b32_vec3 (-0.125) (-0.125) (-1)).

Definition scene_hit0 : Deferred.Intersection B32.t :=
  @Deferred.zeroIntersection _ B32.scalar.

(** Bindings over the rationals that hold a sky state only. *)
Definition q_sky : Deferred.Bindings Q :=
  Deferred.mkBindings 0
    (Deferred.mkSkyState (replicate 27 0%Q) (replicate 3 1%Q) (replicate 3 2%Q)
       (mkVec3 0 1 0)%Q)
    [] [] [] [] [] (Deferred.mkBlueNoise 1 1 []).

(** ** Further notions for the kernels *)

Section BoxNotions.
Context {F : Type} `{Scalar F}.

(** A box whose minimum corner is not beyond its maximum corner. *)
Definition properBox (box : Aabb F) : Prop :=
  fleb (vx (aabb_min box)) (vx (aabb_max box)) = true
  /\ fleb (vy (aabb_min box)) (vy (aabb_max box)) = true
  /\ fleb (vz (aabb_min box)) (vz (aabb_max box)) = true.

End BoxNotions.

(** Library functions over the rationals for a run along the axis of
    the angle 0: cosine 1, sine 0, and a root that is exact at 0 and 1. *)
Definition q_mathlib_axis : MathLib Q :=
  {| fsqrt := fun x => x; fcos := fun _ => 1%Q; fsin := fun _ => 0%Q;
     facos := fun _ => 0%Q; fexp := fun _ => 1%Q;
     fpow := fun x _ => x; ffmod := fun x _ => x |}.

(** ** A small scene over the rationals *)

(** One triangle in the plane [z = 1] in a single leaf, under a sun along
    the diagonal. *)
Definition q_scene_triangle : Positions Q :=
  mkPositions (mkVec3 0 0 1)%Q (mkVec3 2 0 1)%Q (mkVec3 0 2 1)%Q.

Definition q_scene_leaf : BvhNode Q :=
  mkBvhNode (mkAabb (mkVec3 0 0 1)%Q (mkVec3 2 2 1)%Q) 0 0 1 0.

Definition q_scene_tree : BvhTree Q := Leaf 0 q_scene_leaf.

Definition q_scene : Deferred.Bindings Q :=
  Deferred.mkBindings 0
    (Deferred.mkSkyState (replicate 27 0%Q) (replicate 3 1%Q) (replicate 3 2%Q)
       (mkVec3 1 1 1)%Q)
    [q_scene_leaf]
    [q_scene_triangle]
    [Deferred.mkVertexAttributes
       (mkVec3 0 0 (-1))%Q (mkVec3 0 0 (-1))%Q (mkVec3 0 0 (-1))%Q
       (mkVec2 0 0)%Q (mkVec2 1 0)%Q (mkVec2 0 1)%Q 0]
    [Deferred.mkTextureDescriptor 1 1 0]
    [16777215]
    (Deferred.mkBlueNoise 1 1 [mkVec2 (1 # 2) (1 # 2)]%Q).

(** ** The raytracer shader's random numbers *)

Definition u32_shl (a n : Z) : Z := u32 (Z.shiftl a n).
Definition u32_xor (a b : Z) : Z := Z.lxor a b.

Module Rng.

(** [jenkinsHash(input)]. *)
Definition jenkinsHash (input : Z) : Z :=
  let x := input in
  let x := u32_add x (u32_shl x 10) in
  let x := u32_xor x (u32_shr x 6) in
  let x := u32_add x (u32_shl x 3) in
  let x := u32_xor x (u32_shr x 11) in
  let x := u32_add x (u32_shl x 15) in
  x.

(** [initRng(pixel, resolution, frame)]; the [dot] of two [vec2u] is
    evaluated in [u32]. *)
Definition initRng (pixel resolution : Z * Z) (frame : Z) : Z :=
  let seed := u32_xor (u32_add (u32_mul (fst pixel) 1)
                               (u32_mul (snd pixel) (fst resolution)))
                      (jenkinsHash frame) in
  jenkinsHash seed.

(** [rngNextInt(state)]: the new value of [*state]. *)
Definition rngNextInt (state : Z) : Z :=
  let oldState := u32_add (u32_add state 747796405) 2891336453 in
  let word := u32_mul (u32_xor (u32_shr oldState (u32_add (u32_shr oldState 28) 4))
                               oldState)
                      277803737 in
  u32_xor (u32_shr word 22) word.

(** [rngNextFloat(state)]: the value returned and the new [*state]. *)
Definition rngNextFloat {F} `{Scalar F} (state : Z) : F * Z :=
  let state' := rngNextInt state in
  (fdiv (f32_of_u32 state') (f32_of_u32 4294967295), state').

End Rng.

(** ** The deferred shader's entry point *)

Module DeferredEntry.

Record vec4 (F : Type) := mkVec4 { v4x : F; v4y : F; v4z : F; v4w : F }.
Arguments mkVec4 {F} _ _ _ _.
Arguments v4x {F} _.
Arguments v4y {F} _.
Arguments v4z {F} _.
Arguments v4w {F} _.

(** A [mat4x4f], by columns. *)
Record mat4 (F : Type) := mkMat4 { c0 : vec4 F; c1 : vec4 F; c2 : vec4 F; c3 : vec4 F }.
Arguments mkMat4 {F} _ _ _ _.
Arguments c0 {F} _.
Arguments c1 {F} _.
Arguments c2 {F} _.
Arguments c3 {F} _.

(** [uniforms]; its [frameCount] is the one of [Deferred.Bindings]. *)
Record Uniforms (F : Type) := mkUniforms {
  inverseViewReverseZProjectionMat : mat4 F;
  cameraEye : vec4 F;
  framebufferSize : vec2 F;
}.
Arguments mkUniforms {F} _ _ _.
Arguments inverseViewReverseZProjectionMat {F} _.
Arguments cameraEye {F} _.
Arguments framebufferSize {F} _.

(** The three G-buffer textures, as what [textureLoad(_, textureIdx, 0)]
    gives at a texel ([.rgb] for the colour textures). *)
Record GBuffer (F : Type) := mkGBuffer {
  gbufferAlbedo : Z * Z -> vec3 F;
  gbufferNormal : Z * Z -> vec3 F;
  gbufferDepth : Z * Z -> F;
}.
Arguments mkGBuffer {F} _ _ _.
Arguments gbufferAlbedo {F} _.
Arguments gbufferNormal {F} _.
Arguments gbufferDepth {F} _.

Section Entry.
Context {F : Type} `{Scalar F} `{MathLib F} `{Bits F}.
Variable g : Deferred.Bindings F.
Variable uniforms : Uniforms F.
Variable gbuffer : GBuffer F.
Local Open Scope f32_scope.

Definition xyz (v : vec4 F) : vec3 F := mkVec3 (v4x v) (v4y v) (v4z v).

(** [m * v] for a matrix held by columns. *)
Definition mat4_mul (m : mat4 F) (v : vec4 F) : vec4 F :=
  mkVec4 (v4x (c0 m) * v4x v + v4x (c1 m) * v4y v + v4x (c2 m) * v4z v + v4x (c3 m) * v4w v)
         (v4y (c0 m) * v4x v + v4y (c1 m) * v4y v + v4y (c2 m) * v4z v + v4y (c3 m) * v4w v)
         (v4z (c0 m) * v4x v + v4z (c1 m) * v4y v + v4z (c2 m) * v4z v + v4z (c3 m) * v4w v)
         (v4w (c0 m) * v4x v + v4w (c1 m) * v4y v + v4w (c2 m) * v4z v + v4w (c3 m) * v4w v).

(** [worldFromUv(uv, depthSample)]. *)
Definition worldFromUv (uv : vec2 F) (depthSample : F) : vec3 F :=
  let ndc := mkVec4 (fconst 2 * v2x uv - fconst 1)
                    (fconst 2 * (fconst 1 - v2y uv) - fconst 1)
                    depthSample (fconst 1) in
  let worldInvW := mat4_mul (inverseViewReverseZProjectionMat uniforms) ndc in
  let world := mkVec4 (v4x worldInvW / v4w worldInvW) (v4y worldInvW / v4w worldInvW)
                      (v4z worldInvW / v4w worldInvW) (v4w worldInvW / v4w worldInvW) in
  xyz world.

(** The framebuffer's width and height as the kernel reads them. *)
Definition framebufferWidth : Z := u32_of_f32 (v2x (framebufferSize uniforms)).
Definition framebufferHeight : Z := u32_of_f32 (v2y (framebufferSize uniforms)).

(** The cell of [sampleBuffer] an invocation writes. *)
Definition sampleBufferIdx (globalInvocationId : Z * Z) : Z :=
  u32_add (u32_mul (snd globalInvocationId) framebufferWidth) (fst globalInvocationId).

(** The texture coordinate of an invocation's pixel centre. *)
Definition pixelUv (globalInvocationId : Z * Z) : vec2 F :=
  mkVec2 ((f32_of_u32 (fst globalInvocationId) + fconst 0.5) / v2x (framebufferSize uniforms))
         ((f32_of_u32 (snd globalInvocationId) + fconst 0.5) / v2y (framebufferSize uniforms)).

(** [vec2u(uv * uniforms.framebufferSize)]. *)
Definition pixelCoord (uv : vec2 F) : Z * Z :=
  (u32_of_f32 (v2x uv * v2x (framebufferSize uniforms)),
   u32_of_f32 (v2y uv * v2y (framebufferSize uniforms))).

(** The [if]/[else] of [main] on the depth sample: the colour of the
    invocation's pixel and the scene queries made for it. *)
Definition pixelColor (fuel : nat) (globalInvocationId : Z * Z)
  : Outcome (vec3 F * list (Deferred.Event (F:=F))) :=
  let textureIdx := globalInvocationId in
  let uv := pixelUv globalInvocationId in
  let depthSample := gbufferDepth gbuffer textureIdx in
  if negb (fneb depthSample (fconst 0)) then
    let world := worldFromUv uv depthSample in
    let v := normalize (vsub world (xyz (cameraEye uniforms))) in
    Done (Deferred.skyColor g v, [Deferred.EvSky v])
  else
    let coord := pixelCoord uv in
    let position := worldFromUv uv depthSample in
    let encodedNormal := gbufferNormal gbuffer textureIdx in
    let decodedNormal := vsub (vscale (fconst 2) encodedNormal) (vsplat (fconst 1)) in
    let albedo := gbufferAlbedo gbuffer textureIdx in
    Deferred.surfaceColor g fuel coord (offsetPosition position decodedNormal)
      decodedNormal albedo.

(** [main(globalInvocationId)]: the sample buffer after the invocation and
    the scene queries it made. *)
Definition main (fuel : nat) (globalInvocationId : Z * Z) (sampleBuffer : list (vec3 F))
  : Outcome (list (vec3 F) * list (Deferred.Event (F:=F))) :=
  if (framebufferWidth <=? fst globalInvocationId)%Z
     || (framebufferHeight <=? snd globalInvocationId)%Z
  then Done (sampleBuffer, [])
  else
    let textureIdx := globalInvocationId in
    let* shaded := pixelColor fuel globalInvocationId in
    let* buffer := storeZ sampleBuffer (sampleBufferIdx textureIdx) (fst shaded) in
    Done (buffer, snd shaded).

End Entry.
End DeferredEntry.

(** A 2x2 frame over the rationals whose pixels all show the sky: the
    clip-to-world matrix is the identity and the eye is at the origin. *)
Definition q_uniforms : DeferredEntry.Uniforms Q :=
  DeferredEntry.mkUniforms
    (DeferredEntry.mkMat4 (DeferredEntry.mkVec4 1 0 0 0) (DeferredEntry.mkVec4 0 1 0 0)
                          (DeferredEntry.mkVec4 0 0 1 0) (DeferredEntry.mkVec4 0 0 0 1))%Q
    (DeferredEntry.mkVec4 0 0 0 1)%Q
    (mkVec2 2 2)%Q.

Definition q_gbuffer_sky : DeferredEntry.GBuffer Q :=
  DeferredEntry.mkGBuffer (fun _ => mkVec3 0 0 0)%Q (fun _ => mkVec3 0 0 0)%Q (fun _ => 0%Q).

(** Two arrays of one length that hold the same values below cell [k]. *)
Definition agreeBelow {A : Type} (k : nat) (l1 l2 : list A) : Prop :=
  length l1 = length l2 /\ forall j : nat, (j < k)%nat -> l1 !! j = l2 !! j.

(** ** The reference path tracer's timings and progress (C++) *)

Module RenderStats.

Definition u64_modulus : Z := 2 ^ 64.
Definition u64 (z : Z) : Z := z mod u64_modulus.

(** The callback [render] passes to [wgpuBufferMapAsync]:
    [mRenderPassDurationsNs] after the callback has run with the given
    status and timestamps. *)
Definition onTimestampsMapped (success : bool) (renderPassBegin renderPassEnd : Z)
    (renderPassDurations : list Z) : list Z :=
  if success then
    let renderPassDelta := u64 (renderPassEnd - renderPassBegin) in
    let durations := renderPassDurations ++ [renderPassDelta] in
    if (30 <? length durations)%nat then drop 1 durations else durations
  else renderPassDurations.

(** The callbacks of successive frames, each with its status and its two
    timestamps. *)
Definition onTimestampsMappedAll (frames : list (bool * Z * Z)) (renderPassDurations : list Z)
  : list Z :=
  fold_left (fun (durations : list Z) (frame : bool * Z * Z) =>
               let '(success, renderPassBegin, renderPassEnd) := frame in
               onTimestampsMapped success renderPassBegin renderPassEnd durations)
            frames renderPassDurations.

(** The durations the successful callbacks of [frames] measured. *)
Definition measured (frames : list (bool * Z * Z)) : list Z :=
  flat_map (fun frame : bool * Z * Z =>
              let '(success, renderPassBegin, renderPassEnd) := frame in
              if success then [u64 (renderPassEnd - renderPassBegin)] else [])
           frames.

Section Floats.
Context {F : Type} `{Scalar F}.
Local Open Scope f32_scope.

(** [std::accumulate] over [std::uint64_t]. *)
Definition accumulate (durations : list Z) : Z :=
  fold_left (fun sum d => u64 (sum + d)) durations 0.

(** [averageRenderpassDurationMs()]. *)
Definition averageRenderpassDurationMs (mRenderPassDurationsNs : list Z) : F :=
  match mRenderPassDurationsNs with
  | [] => fconst 0
  | _ =>
      let sum := accumulate mRenderPassDurationsNs in
      fconst 0.000001 * f32_of_u32 sum
        / f32_of_u32 (Z.of_nat (length mRenderPassDurationsNs))
  end.

(** [renderProgressPercentage()]. *)
Definition renderProgressPercentage (r : ReferencePathTracer.Renderer F) : F :=
  fconst 100 * f32_of_u32 (ReferencePathTracer.mAccumulatedSampleCount r)
    / f32_of_u32 (ReferencePathTracer.numSamplesPerPixel
                    (ReferencePathTracer.samplingParams
                       (ReferencePathTracer.mCurrentRenderParams r))).

(** The parameters [render] uploads over a sequence of calls, in order. *)
Fixpoint uploads (ops : list (ReferencePathTracer.Op (F:=F)))
    (r : ReferencePathTracer.Renderer F) : list ReferencePathTracer.FrameUpload :=
  match ops with
  | [] => []
  | ReferencePathTracer.OpSetRenderParameters p :: ops' =>
      uploads ops' (ReferencePathTracer.setRenderParameters p r)
  | ReferencePathTracer.OpRender b :: ops' =>
      match snd (ReferencePathTracer.render b r) with
      | Some u => u :: uploads ops' (fst (ReferencePathTracer.render b r))
      | None => uploads ops' (fst (ReferencePathTracer.render b r))
      end
  end.

End Floats.
End RenderStats.

(** * Properties *)

(** ** The order laws of the two scalar implementations *)

Lemma SFcompare_antisym (a b : spec_float) :
  SFcompare b a = option_map CompOpp (SFcompare a b).
Proof.
  destruct a as [sa|sa| |sa ma ea], b as [sb|sb| |sb mb eb]; simpl; try reflexivity;
    try (destruct sa; reflexivity); try (destruct sb; reflexivity);
    try (destruct sa, sb; reflexivity).
  destruct sa, sb; simpl; try reflexivity;
    rewrite (Z.compare_antisym ea eb); destruct (ea ?= eb); simpl; try reflexivity;
    change (Pos.compare_cont Eq mb ma) with (Pos.compare mb ma);
    change (Pos.compare_cont Eq ma mb) with (Pos.compare ma mb);
    rewrite (Pos.compare_antisym ma mb); try reflexivity.
Qed.

Lemma SFltb_irrefl a : SFltb a a = false.
Proof.
  unfold SFltb. pose proof (SFcompare_antisym a a) as E.
  destruct (SFcompare a a) as [[]|]; simpl in *; congruence.
Qed.

Lemma SFleb_SFltb a b : SFleb a b = true -> SFltb b a = false.
Proof.
  unfold SFleb, SFltb. rewrite (SFcompare_antisym a b).
  destruct (SFcompare a b) as [[]|]; simpl; congruence.
Qed.

(** The comparison of two finite numbers of the same sign is the
    lexicographic one on exponent and mantissa. *)
Ltac sf_order :=
  repeat match goal with
  | |- context [Pos.compare_cont Eq ?a ?b] =>
      change (Pos.compare_cont Eq a b) with (Pos.compare a b)
  end;
  repeat match goal with
  | |- context [Z.compare ?a ?b] => destruct (Z.compare_spec a b)
  end; try congruence; try lia;
  repeat match goal with
  | |- context [Pos.compare ?a ?b] => destruct (Pos.compare_spec a b)
  end; simpl; try congruence; try lia.

Lemma SFltb_trans a b c : SFltb a b = true -> SFltb b c = true -> SFltb a c = true.
Proof.
  unfold SFltb.
  destruct a as [sa|sa| |sa ma ea], b as [sb|sb| |sb mb eb], c as [sc|sc| |sc mc ec];
    simpl; try congruence;
    try (destruct sa; congruence); try (destruct sb; congruence); try (destruct sc; congruence);
    try (destruct sa, sb; congruence); try (destruct sb, sc; congruence);
    try (destruct sa, sc; congruence);
    try (destruct sa, sb, sc; congruence).
  destruct sa, sb, sc; simpl; try congruence; sf_order.
Qed.

Lemma SFleb_SFltb_trans a b c :
  SFleb a b = true -> SFltb b c = true -> SFltb a c = true.
Proof.
  unfold SFleb, SFltb.
  destruct a as [sa|sa| |sa ma ea], b as [sb|sb| |sb mb eb], c as [sc|sc| |sc mc ec];
    simpl; try congruence;
    try (destruct sa; congruence); try (destruct sb; congruence); try (destruct sc; congruence);
    try (destruct sa, sb; congruence); try (destruct sb, sc; congruence);
    try (destruct sa, sc; congruence);
    try (destruct sa, sb, sc; congruence).
  destruct sa, sb, sc; simpl; try congruence; sf_order.
Qed.

#[global] Instance b32_order : ScalarOrder B32.t.
Proof.
  constructor.
  - exact SFltb_irrefl.
  - exact SFltb_trans.
  - exact SFleb_SFltb.
  - exact SFleb_SFltb_trans.
Qed.

Lemma Qltb_lt (a b : Q) : QS.ltb a b = true <-> (a < b)%Q.
Proof.
  unfold QS.ltb. rewrite negb_true_iff.
  destruct (Qle_bool b a) eqn:E.
  - apply Qle_bool_iff in E. split; [discriminate|]. intros L.
    exfalso. apply (Qlt_not_le _ _ L E).
  - split; [intros _|reflexivity]. apply Qnot_le_lt. intros L.
    apply Qle_bool_iff in L. congruence.
Qed.

Lemma Qltb_ge (a b : Q) : QS.ltb a b = false <-> (b <= a)%Q.
Proof.
  unfold QS.ltb. rewrite negb_false_iff. apply Qle_bool_iff.
Qed.

#[global] Instance q_order : ScalarOrder Q.
Proof.
  constructor; simpl.
  - intros a. apply Qltb_ge. apply Qle_refl.
  - intros a b c. rewrite !Qltb_lt. apply Qlt_trans.
  - intros a b L. apply Qltb_ge. now apply Qle_bool_iff.
  - intros a b c L. rewrite !Qltb_lt. apply Qle_bool_iff in L.
    now apply Qle_lt_trans.
Qed.

(** ** Triangle intersection *)

Section TriangleFacts.
Context {F : Type} `{Scalar F} `{MathLib F}.

Ltac mt_expand :=
  unfold mt_p, mt_n, mt_t, mt_v, mt_u, mt_q, mt_s, mt_invDet, mt_det, mt_h, mt_e1, mt_e2.

Ltac split_comparisons :=
  unfold fgtb;
  repeat match goal with
  | |- context [fltb ?a ?b] => destruct (fltb a b); simpl
  end.

(** The comparison with [tmax] is the last test and the only use of
    [tmax]. *)
Lemma rayIntersectTriangle_hitTime `{Bits F} (ray : Ray F) (tri : Positions F) (tmax : F) :
  rayIntersectTriangle ray tri tmax =
  match hitTime ray tri with
  | Some t => if fltb t tmax then Some (triangleHitAt ray tri t) else None
  | None => None
  end.
Proof.
  unfold rayIntersectTriangle, hitTime, triangleHitAt. mt_expand. cbv zeta.
  split_comparisons; reflexivity.
Qed.

Lemma raytracer_rayIntersectTriangle_hitTime (ray : Ray F) (tri : Positions F) (tmax : F) :
  Raytracer.rayIntersectTriangle ray tri tmax =
  match hitTime ray tri with
  | Some t => if fltb t tmax then Some (intersectionAt ray tri t) else None
  | None => None
  end.
Proof.
  unfold Raytracer.rayIntersectTriangle, hitTime, intersectionAt. mt_expand. cbv zeta.
  split_comparisons; reflexivity.
Qed.

Lemma hitTime_Some (ray : Ray F) (tri : Positions F) (t : F) :
  hitTime ray tri = Some t ->
  t = mt_t ray tri /\ fgtb t EPSILON = true
  /\ (fgtb (mt_det ray tri) (fneg EPSILON) && fltb (mt_det ray tri) EPSILON) = false
  /\ fltb (mt_u ray tri) f0 = false /\ fgtb (mt_u ray tri) f1 = false
  /\ fltb (mt_v ray tri) f0 = false
  /\ fgtb (fadd (mt_u ray tri) (mt_v ray tri)) f1 = false.
Proof.
  unfold hitTime. intros E.
  destruct (_ || _) eqn:C in E; [discriminate|].
  inversion E; subst; clear E.
  rewrite !orb_false_iff in C.
  destruct C as [[[C1 [C2 C3]] [C4 C5]] C6].
  apply negb_false_iff in C6. repeat split; assumption.
Qed.

Lemma rayIntersectTriangle_Some `{Bits F} (ray : Ray F) (tri : Positions F) (tmax : F)
    (h : TriangleHit F) :
  rayIntersectTriangle ray tri tmax = Some h <->
  exists t, hitTime ray tri = Some t /\ fltb t tmax = true /\ h = triangleHitAt ray tri t.
Proof.
  rewrite rayIntersectTriangle_hitTime.
  destruct (hitTime ray tri) as [t|].
  - destruct (fltb t tmax) eqn:L.
    + split.
      * intros E. inversion E; subst. eauto.
      * intros (t' & E & _ & ->). inversion E; subst. reflexivity.
    + split; [discriminate|]. intros (t' & E & L' & _). inversion E; subst. congruence.
  - split; [discriminate|]. intros (t' & E & _). discriminate.
Qed.

End TriangleFacts.

(** *** Exact arithmetic: a ray through a known point of the triangle *)

Local Open Scope Q_scope.

Section RoundTrip.
Context {ML : MathLib Q} {BT : Bits Q}.

Ltac mt_unfold :=
  unfold mt_p, mt_t, mt_v, mt_u, mt_q, mt_invDet, mt_det, mt_h, mt_s, rayThrough, pointOn,
    mt_e1, mt_e2;
  unfold dot, cross, vsub, vadd, vscale, f1; simpl.

Lemma mt_u_exact tri a b d t0 :
  ~ mt_det (rayThrough tri a b d t0) tri == 0 ->
  mt_u (rayThrough tri a b d t0) tri == a.
Proof.
  destruct tri as [[ax ay az] [bx by_ bz] [cx cy cz]], d as [dx dy dz].
  mt_unfold. intros D. field. exact D.
Qed.

Lemma mt_v_exact tri a b d t0 :
  ~ mt_det (rayThrough tri a b d t0) tri == 0 ->
  mt_v (rayThrough tri a b d t0) tri == b.
Proof.
  destruct tri as [[ax ay az] [bx by_ bz] [cx cy cz]], d as [dx dy dz].
  mt_unfold. intros D. field. exact D.
Qed.

Lemma mt_t_exact tri a b d t0 :
  ~ mt_det (rayThrough tri a b d t0) tri == 0 ->
  mt_t (rayThrough tri a b d t0) tri == t0.
Proof.
  destruct tri as [[ax ay az] [bx by_ bz] [cx cy cz]], d as [dx dy dz].
  mt_unfold. intros D. field. exact D.
Qed.

Lemma mt_p_exact tri a b d t0 :
  ~ mt_det (rayThrough tri a b d t0) tri == 0 ->
  vec3_Qeq (mt_p (rayThrough tri a b d t0) tri) (pointOn tri a b).
Proof.
  intros D. pose proof (mt_u_exact tri a b d t0 D) as U.
  pose proof (mt_v_exact tri a b d t0 D) as V.
  unfold mt_p, pointOn, vec3_Qeq, vadd, vscale. simpl.
  rewrite U, V. repeat split; reflexivity.
Qed.

Lemma parallel_test_nonzero (det : Q) :
  (fgtb det (fneg EPSILON) && fltb det EPSILON) = false -> ~ det == 0.
Proof.
  intros C E. apply andb_false_iff in C. unfold fgtb in C. simpl in C.
  destruct C as [C|C]; apply Qltb_ge in C; rewrite E in C; unfold EPSILON in C; simpl in C;
    revert C; apply Qlt_not_le; reflexivity.
Qed.

Lemma rayThrough_hit tri a b d t0 tmax :
  0 <= a -> 0 <= b -> a + b <= 1 ->
  (fgtb (mt_det (rayThrough tri a b d t0) tri) (fneg EPSILON)
   && fltb (mt_det (rayThrough tri a b d t0) tri) EPSILON) = false ->
  EPSILON < t0 -> t0 < tmax ->
  exists hit,
    rayIntersectTriangle (rayThrough tri a b d t0) tri tmax = Some hit /\
    th_t hit == t0 /\
    th_p hit = offsetPosition (mt_p (rayThrough tri a b d t0) tri) (mt_n tri) /\
    vec3_Qeq (mt_p (rayThrough tri a b d t0) tri) (pointOn tri a b) /\
    vec3_Qeq (th_b hit) (mkVec3 (1 - a - b) a b) /\
    0 <= vy (th_b hit) /\ 0 <= vz (th_b hit) /\ vy (th_b hit) + vz (th_b hit) <= 1.
Proof.
  intros Ha Hb Hab Hdet Ht0 Htmax.
  pose proof (parallel_test_nonzero _ Hdet) as D.
  pose proof (mt_u_exact tri a b d t0 D) as U.
  pose proof (mt_v_exact tri a b d t0 D) as V.
  pose proof (mt_t_exact tri a b d t0 D) as T.
  set (ray := rayThrough tri a b d t0) in *.
  assert (E : hitTime ray tri = Some (mt_t ray tri)).
  { unfold hitTime. rewrite Hdet.
    assert (C1 : fltb (mt_u ray tri) f0 = false).
    { apply Qltb_ge. rewrite U. exact Ha. }
    assert (C2 : fgtb (mt_u ray tri) f1 = false).
    { apply Qltb_ge. rewrite U. unfold f1; simpl. lra. }
    assert (C3 : fltb (mt_v ray tri) f0 = false).
    { apply Qltb_ge. rewrite V. exact Hb. }
    assert (C4 : fgtb (fadd (mt_u ray tri) (mt_v ray tri)) f1 = false).
    { apply Qltb_ge. rewrite U, V. exact Hab. }
    assert (C5 : fgtb (mt_t ray tri) EPSILON = true).
    { apply Qltb_lt. rewrite T. exact Ht0. }
    rewrite C1, C2, C3, C4, C5. reflexivity. }
  exists (triangleHitAt ray tri (mt_t ray tri)). split.
  - apply rayIntersectTriangle_Some. exists (mt_t ray tri).
    split; [exact E|]. split; [|reflexivity].
    apply Qltb_lt. rewrite T. exact Htmax.
  - unfold triangleHitAt. cbn [th_t th_p th_b vx vy vz]. split; [exact T|]. split; [reflexivity|].
    split; [apply mt_p_exact; exact D|].
    split; [unfold vec3_Qeq; cbn [vx vy vz]; rewrite U, V; unfold f1; repeat split; reflexivity|].
    rewrite U, V. repeat split; assumption.
Qed.
End RoundTrip.

Local Close Scope Q_scope.



(** The unit test ("Ray intersects triangle") on binary32: the raytracer
    variant returns the point (0, 0, 1) itself at [t = 1]. *)
Example raytracer_test_vector :
  @Raytracer.rayIntersectTriangle _ B32.scalar b32_mathlib_sqrt_only
    test_ray test_triangle (b32 1000)
  = Some (Raytracer.mkIntersection
            (mkVec3 (b32 0) (b32 0) (b32 1)) (mkVec3 (b32 0) (b32 0) (b32 1)) (b32 1)).
Proof. vm_compute. reflexivity. Qed.

(** ** Sky model *)

Section SkyValidation.
Context {F : Type} `{ScalarOrder F} `{MathLib F}.
Variables paramsR paramsG paramsB radiancesR radiancesG radiancesB : nat -> F.

Local Abbreviation skyStateNew :=
  (HwSkymodel.skyStateNew paramsR paramsG paramsB radiancesR radiancesG radiancesB).

Lemma insideRange_tests (lo hi x : F) :
  insideRange lo hi x -> (fltb x lo || fgtb x hi) = false.
Proof.
  intros [L U]. apply fleb_fltb in L. apply fleb_fltb in U.
  unfold fgtb. now rewrite L, U.
Qed.

Lemma outsideRange_tests (lo hi x : F) :
  outsideRange lo hi x -> (fltb x lo || fgtb x hi) = true.
Proof. intros [L|U]; [now rewrite L|rewrite U; apply orb_true_r]. Qed.

Lemma skyStateNew_elevation p st :
  outsideRange (fconst 0) HwSkymodel.PI (HwSkymodel.elevation p) ->
  skyStateNew p st = (HwSkymodel.SkyStateResult_ElevationOutOfRange, st).
Proof.
  intros O. unfold HwSkymodel.skyStateNew. cbv zeta.
  now rewrite (outsideRange_tests _ _ _ O).
Qed.

Lemma skyStateNew_turbidity p st :
  insideRange (fconst 0) HwSkymodel.PI (HwSkymodel.elevation p) ->
  outsideRange (fconst 1) (fconst 10) (HwSkymodel.turbidity p) ->
  skyStateNew p st = (HwSkymodel.SkyStateResult_TurbidityOutOfRange, st).
Proof.
  intros I O. unfold HwSkymodel.skyStateNew. cbv zeta.
  now rewrite (insideRange_tests _ _ _ I), (outsideRange_tests _ _ _ O).
Qed.

Lemma skyStateNew_albedo p st :
  insideRange (fconst 0) HwSkymodel.PI (HwSkymodel.elevation p) ->
  insideRange (fconst 1) (fconst 10) (HwSkymodel.turbidity p) ->
  outsideRange (fconst 0) (fconst 1) (vx (HwSkymodel.albedo p))
  \/ outsideRange (fconst 0) (fconst 1) (vy (HwSkymodel.albedo p))
  \/ outsideRange (fconst 0) (fconst 1) (vz (HwSkymodel.albedo p)) ->
  skyStateNew p st = (HwSkymodel.SkyStateResult_AlbedoOutOfRange, st).
Proof.
  intros I1 I2 O. unfold HwSkymodel.skyStateNew. cbv zeta.
  rewrite (insideRange_tests _ _ _ I1), (insideRange_tests _ _ _ I2).
  destruct O as [O|[O|O]]; rewrite (outsideRange_tests _ _ _ O);
    rewrite ?orb_true_r; reflexivity.
Qed.

Lemma skyStateNew_success p st :
  insideRange (fconst 0) HwSkymodel.PI (HwSkymodel.elevation p) ->
  insideRange (fconst 1) (fconst 10) (HwSkymodel.turbidity p) ->
  insideRange (fconst 0) (fconst 1) (vx (HwSkymodel.albedo p)) ->
  insideRange (fconst 0) (fconst 1) (vy (HwSkymodel.albedo p)) ->
  insideRange (fconst 0) (fconst 1) (vz (HwSkymodel.albedo p)) ->
  fst (skyStateNew p st) = HwSkymodel.SkyStateResult_Success.
Proof.
  intros I1 I2 I3 I4 I5. unfold HwSkymodel.skyStateNew. cbv zeta.
  rewrite (insideRange_tests _ _ _ I1), (insideRange_tests _ _ _ I2),
    (insideRange_tests _ _ _ I3), (insideRange_tests _ _ _ I4),
    (insideRange_tests _ _ _ I5).
  reflexivity.
Qed.

End SkyValidation.




(** C10.  An error result leaves the caller's [SkyState] as it was: all
    three validations precede the first write. *)
Theorem skyStateNew_error_atomic :
  forall (F : Type) (S : Scalar F) (ML : MathLib F)
         (paramsR paramsG paramsB radiancesR radiancesG radiancesB : nat -> F)
         (p : HwSkymodel.SkyParams F) (st : HwSkymodel.SkyState F),
    fst (HwSkymodel.skyStateNew paramsR paramsG paramsB
           radiancesR radiancesG radiancesB p st)
      <> HwSkymodel.SkyStateResult_Success ->
    snd (HwSkymodel.skyStateNew paramsR paramsG paramsB
           radiancesR radiancesG radiancesB p st) = st.
Proof.
  intros F S ML pR pG pB rR rG rB p st.
  unfold HwSkymodel.skyStateNew. cbv zeta.
  repeat match goal with
  | |- context [if ?b then _ else _] => destruct b; simpl; try reflexivity
  end.
  intros E. now contradiction E.
Qed.

(** An albedo of 1.5 is rejected and the state keeps its 27 + 3 cells. *)
Lemma skyStateNew_error_atomic_witness :
  fst (b32_skyStateNew (b32_skyParams 0.7853982 3 1.5 0 0) emptySkyState)
    <> HwSkymodel.SkyStateResult_Success
  /\ snd (b32_skyStateNew (b32_skyParams 0.7853982 3 1.5 0 0) emptySkyState)
     = emptySkyState.
Proof.
  assert (E : fst (b32_skyStateNew (b32_skyParams 0.7853982 3 1.5 0 0) emptySkyState)
              <> HwSkymodel.SkyStateResult_Success).
  { vm_compute. discriminate. }
  split; [exact E|].
  exact (skyStateNew_error_atomic B32.t B32.scalar b32_mathlib_sqrt_only
           zeroTable zeroTable zeroTable zeroTable zeroTable zeroTable
           (b32_skyParams 0.7853982 3 1.5 0 0) emptySkyState E).
Defined.

Section SkyRadiance.
Context {F : Type} `{Scalar F} `{MathLib F}.

Lemma skyRadiance_decomposition (g : Deferred.Bindings F) (theta gamma : F) (channel : Z) :
  Deferred.skyRadiance g theta gamma channel =
  fadd (fmul (aget (Deferred.skyRadiances (Deferred.skyState g)) channel)
             (radianceDistribution
                (fun i => aget (Deferred.params (Deferred.skyState g))
                               (u32_add (u32_mul 9 channel) i))
                theta gamma))
       (if withinSolarDisk gamma
        then aget (Deferred.solarRadiances (Deferred.skyState g)) channel
        else f0).
Proof.
  unfold Deferred.skyRadiance, radianceDistribution, withinSolarDisk, select.
  reflexivity.
Qed.

Lemma skyStateRadiance_dome (st : HwSkymodel.SkyState F) (theta gamma : F)
    (channel : HwSkymodel.Channel) :
  HwSkymodel.skyStateRadiance st theta gamma channel =
  fmul (aget (HwSkymodel.radiances st) (Z.of_nat (HwSkymodel.channelIdx channel)))
       (radianceDistribution
          (fun i => aget (HwSkymodel.params st)
                      (Z.of_nat (9 * HwSkymodel.channelIdx channel + Z.to_nat i)))
          theta gamma).
Proof. reflexivity. Qed.
End SkyRadiance.


Lemma withinSolarDisk_Q (gamma : Q) :
  @withinSolarDisk Q QS.scalar gamma = true <-> (gamma <= 0.255 * (3.1415927 / 180))%Q.
Proof.
  unfold withinSolarDisk. simpl.
  rewrite Qle_bool_iff.
  change (@Deferred.TERRESTRIAL_SOLAR_RADIUS Q QS.scalar)
    with (0.255 * (3.1415927 / 180))%Q.
  set (c := (0.255 * (3.1415927 / 180))%Q).
  assert (Hc : (0 < c)%Q) by reflexivity.
  split; intros L.
  - assert (E : (gamma == gamma / c * c)%Q)
      by (field; intros E; rewrite E in Hc; discriminate).
    rewrite E. apply Qle_trans with (1 * c)%Q.
    + apply Qmult_le_compat_r; [exact L|apply Qlt_le_weak; exact Hc].
    + rewrite Qmult_1_l. apply Qle_refl.
  - apply Qle_shift_div_r; [exact Hc|]. now rewrite Qmult_1_l.
Qed.

(** C4.  For every [theta], [gamma] and channel, the shader's [skyRadiance]
    is the radiance distribution of the channel's nine coefficients scaled
    by the channel's sky radiance, plus the channel's solar radiance when
    [gamma / TERRESTRIAL_SOLAR_RADIUS <= 1] and plus zero otherwise.  In
    exact arithmetic that test is [gamma <= 0.255 * (PI / 180)], the solar
    angular radius of 0.255 degrees, so the solar radiance is added up to
    that angle and zero beyond it; on binary32 an angle of 0.004 rad is
    inside the disc and one of 0.005 rad is outside. *)
Theorem skyRadiance_solar_disk :
  (forall (F : Type) (S : Scalar F) (ML : MathLib F)
          (g : Deferred.Bindings F) (theta gamma : F) (channel : Z),
      Deferred.skyRadiance g theta gamma channel =
      fadd (fmul (aget (Deferred.skyRadiances (Deferred.skyState g)) channel)
                 (radianceDistribution
                    (fun i => aget (Deferred.params (Deferred.skyState g))
                                   (u32_add (u32_mul 9 channel) i))
                    theta gamma))
           (if withinSolarDisk gamma
            then aget (Deferred.solarRadiances (Deferred.skyState g)) channel
            else f0))
  /\ (forall gamma : Q,
        @withinSolarDisk Q QS.scalar gamma = true <->
        (gamma <= 0.255 * (3.1415927 / 180))%Q)
  /\ (forall (ML : MathLib Q) (g : Deferred.Bindings Q) (theta gamma : Q) (channel : Z),
        let dome :=
          (aget (Deferred.skyRadiances (Deferred.skyState g)) channel
           * radianceDistribution
               (fun i => aget (Deferred.params (Deferred.skyState g))
                              (u32_add (u32_mul 9 channel) i))
               theta gamma)%Q in
        ((gamma <= 0.255 * (3.1415927 / 180))%Q ->
         Deferred.skyRadiance g theta gamma channel
         = (dome + aget (Deferred.solarRadiances (Deferred.skyState g)) channel)%Q)
        /\ ((0.255 * (3.1415927 / 180) < gamma)%Q ->
            Deferred.skyRadiance g theta gamma channel = (dome + 0)%Q))
  /\ (@withinSolarDisk _ B32.scalar (b32 0.004) = true
      /\ @withinSolarDisk _ B32.scalar (b32 0.005) = false).
Proof.
  split; [|split; [|split]].
  - intros. apply skyRadiance_decomposition.
  - exact withinSolarDisk_Q.
  - intros ML g theta gamma channel dome. rewrite skyRadiance_decomposition. split.
    + intros L. apply withinSolarDisk_Q in L. rewrite L. reflexivity.
    + intros L. destruct (withinSolarDisk gamma) eqn:W; [|reflexivity].
      apply withinSolarDisk_Q in W. exfalso. revert L. now apply Qle_not_lt.
  - split; vm_compute; reflexivity.
Qed.

(** Looking straight at the sun ([gamma = 0]), the solar radiance of the
    channel is added. *)
Lemma skyRadiance_solar_disk_witness :
  (0 <= 0.255 * (3.1415927 / 180))%Q
  /\ @Deferred.skyRadiance Q QS.scalar q_mathlib_none q_sky 0%Q 0%Q 0
     = (aget (Deferred.skyRadiances (Deferred.skyState q_sky)) 0
        * @radianceDistribution Q QS.scalar q_mathlib_none
            (fun i => aget (Deferred.params (Deferred.skyState q_sky))
                           (u32_add (u32_mul 9 0) i))
            0 0
        + aget (Deferred.solarRadiances (Deferred.skyState q_sky)) 0)%Q.
Proof.
  assert (L : (0 <= 0.255 * (3.1415927 / 180))%Q) by discriminate.
  split; [exact L|].
  destruct skyRadiance_solar_disk as (_ & _ & H & _).
  exact (proj1 (H q_mathlib_none q_sky 0%Q 0%Q 0) L).
Defined.

(** ** Sample accumulation *)

Section Accumulation.
Context {F : Type} `{Scalar F}.
Import ReferencePathTracer.

Lemma u32_small (z : Z) : 0 <= z < u32_modulus -> u32 z = z.
Proof. intros B. unfold u32. now apply Z.mod_small. Qed.

Lemma u32_nonneg (z : Z) : 0 <= u32 z.
Proof. unfold u32. apply Z.mod_pos_bound. reflexivity. Qed.

Lemma render_invariant (b : bool) (r : Renderer F) :
  counterInvariant r -> counterInvariant (fst (render b r)).
Proof.
  unfold counterInvariant, target, render. intros I.
  destruct b; simpl; [|exact I].
  pose proof (u32_nonneg (mAccumulatedSampleCount r + 1)) as P.
  unfold u32_add. lia.
Qed.

Lemma setRenderParameters_invariant (p : RenderParameters F) (r : Renderer F) :
  is_u32 (numSamplesPerPixel (samplingParams p)) ->
  counterInvariant r -> counterInvariant (setRenderParameters p r).
Proof.
  unfold counterInvariant, target, setRenderParameters, is_u32. intros T I.
  destruct (renderParameters_neq _ _); simpl; [lia|exact I].
Qed.

Lemma apply_invariant (op : Op) (r : Renderer F) :
  opWellTyped op -> counterInvariant r -> counterInvariant (apply op r).
Proof.
  destruct op; simpl.
  - apply setRenderParameters_invariant.
  - intros _. apply render_invariant.
Qed.

Lemma render_clamped (r : Renderer F) :
  counterInvariant r -> target r < u32_modulus - 1 ->
  mAccumulatedSampleCount (fst (render true r))
  = Z.min (mAccumulatedSampleCount r + 1) (target r).
Proof.
  unfold counterInvariant, target, render. intros I T. simpl.
  unfold u32_add. rewrite u32_small; [reflexivity|lia].
Qed.

Lemma render_frames (k : nat) (r : Renderer F) :
  counterInvariant r -> target r < u32_modulus - 1 ->
  mAccumulatedSampleCount (run (replicate k (OpRender true)) r)
  = Z.min (mAccumulatedSampleCount r + Z.of_nat k) (target r)
  /\ target (run (replicate k (OpRender true)) r) = target r.
Proof.
  revert r. induction k as [|k IH]; intros r I T.
  - simpl. unfold counterInvariant in I. split; [lia|reflexivity].
  - change (run (replicate (S k) (OpRender true)) r)
      with (run (replicate k (OpRender true)) (fst (render true r))).
    assert (T' : target (fst (render true r)) = target r) by reflexivity.
    destruct (IH (fst (render true r))) as [IH1 IH2].
    + now apply render_invariant.
    + now rewrite T'.
    + rewrite IH1, IH2, T', render_clamped by assumption.
      unfold counterInvariant in I. split; [lia|reflexivity].
Qed.

End Accumulation.

(** C6, as stated, fails: a [render] call that gets no texture view from
    the swap chain returns before the counter is touched, so 100 calls with
    a target of 64 can leave the counter at 0. *)
Lemma render_calls_without_texture :
  ReferencePathTracer.mAccumulatedSampleCount
    (ReferencePathTracer.run (replicate 100 (ReferencePathTracer.OpRender false))
       (ReferencePathTracer.new (test_renderParams 64))) <> 64.
Proof. vm_compute. discriminate. Qed.

(** C6, amended.  The counter starts at 0 and [0 <= counter <= target]
    holds after every call, for 32-bit targets.  A [render] call that
    obtains a texture view adds 1 to the counter and clamps it at the
    target (for targets below 2^32 - 1), so from a fresh renderer [k] such
    calls leave it at [min k target]; a [render] call that obtains none
    leaves the renderer as it was.  [setRenderParameters] resets the counter
    to 0 and takes over the parameters whenever they compare unequal to the
    current ones (in particular when the camera, the sampling configuration
    or the sky configuration differs), and changes nothing otherwise. *)
Theorem sample_counter_invariant :
  forall (F : Type) (S : Scalar F) (p : ReferencePathTracer.RenderParameters F),
    is_u32 (ReferencePathTracer.numSamplesPerPixel (ReferencePathTracer.samplingParams p)) ->
    ReferencePathTracer.mAccumulatedSampleCount (ReferencePathTracer.new p) = 0
    /\ ReferencePathTracer.counterInvariant (ReferencePathTracer.new p)
    /\ (forall r : ReferencePathTracer.Renderer F,
          ReferencePathTracer.counterInvariant r ->
          (forall op, opWellTyped op ->
                      ReferencePathTracer.counterInvariant (ReferencePathTracer.apply op r))
          /\ ReferencePathTracer.render false r = (r, None)
          /\ (ReferencePathTracer.target r < u32_modulus - 1 ->
              ReferencePathTracer.mAccumulatedSampleCount
                (fst (ReferencePathTracer.render true r))
              = Z.min (ReferencePathTracer.mAccumulatedSampleCount r + 1)
                      (ReferencePathTracer.target r))
          /\ (forall p',
                ReferencePathTracer.renderParameters_neq
                  (ReferencePathTracer.mCurrentRenderParams r) p' = true ->
                ReferencePathTracer.setRenderParameters p' r
                = ReferencePathTracer.mkRenderer p' (ReferencePathTracer.mFrameCount r) 0)
          /\ (forall p',
                ReferencePathTracer.renderParameters_neq
                  (ReferencePathTracer.mCurrentRenderParams r) p' = false ->
                ReferencePathTracer.setRenderParameters p' r = r)
          /\ (forall p',
                ReferencePathTracer.camera_neq
                  (ReferencePathTracer.camera (ReferencePathTracer.mCurrentRenderParams r))
                  (ReferencePathTracer.camera p') = true
                \/ ReferencePathTracer.sampling_neq
                     (ReferencePathTracer.samplingParams
                        (ReferencePathTracer.mCurrentRenderParams r))
                     (ReferencePathTracer.samplingParams p') = true
                \/ ReferencePathTracer.sky_neq
                     (ReferencePathTracer.sky (ReferencePathTracer.mCurrentRenderParams r))
                     (ReferencePathTracer.sky p') = true ->
                ReferencePathTracer.mAccumulatedSampleCount
                  (ReferencePathTracer.setRenderParameters p' r) = 0))
    /\ (forall k : nat,
          ReferencePathTracer.numSamplesPerPixel (ReferencePathTracer.samplingParams p)
            < u32_modulus - 1 ->
          ReferencePathTracer.mAccumulatedSampleCount
            (ReferencePathTracer.run (replicate k (ReferencePathTracer.OpRender true))
               (ReferencePathTracer.new p))
          = Z.min (Z.of_nat k)
              (ReferencePathTracer.numSamplesPerPixel (ReferencePathTracer.samplingParams p))).
Proof.
  intros F S p T.
  assert (I0 : ReferencePathTracer.counterInvariant (ReferencePathTracer.new p)).
  { unfold ReferencePathTracer.counterInvariant, ReferencePathTracer.target. simpl.
    unfold is_u32 in T. lia. }
  split; [reflexivity|]. split; [exact I0|]. split.
  - intros r I.
    split; [intros op W; now apply apply_invariant|].
    split; [reflexivity|].
    split; [now apply render_clamped|].
    split; [intros p' N; unfold ReferencePathTracer.setRenderParameters; now rewrite N|].
    split; [intros p' N; unfold ReferencePathTracer.setRenderParameters; now rewrite N|].
    intros p' N.
    assert (E : ReferencePathTracer.renderParameters_neq
                  (ReferencePathTracer.mCurrentRenderParams r) p' = true).
    { unfold ReferencePathTracer.renderParameters_neq.
      destruct N as [N|[N|N]]; rewrite N; rewrite ?orb_true_r; reflexivity. }
    unfold ReferencePathTracer.setRenderParameters. now rewrite E.
  - intros k B. destruct (render_frames k (ReferencePathTracer.new p) I0 B) as [E _].
    rewrite E. reflexivity.
Qed.

(** Target 64: after 100 rendered frames the counter reads 64. *)
Lemma sample_counter_invariant_witness :
  is_u32 64
  /\ ReferencePathTracer.mAccumulatedSampleCount
       (ReferencePathTracer.run (replicate 100 (ReferencePathTracer.OpRender true))
          (ReferencePathTracer.new (test_renderParams 64))) = 64.
Proof.
  assert (T : is_u32 64) by (unfold is_u32, u32_modulus; lia).
  split; [exact T|].
  destruct (sample_counter_invariant Q QS.scalar (test_renderParams 64) T)
    as [_ [_ [_ K]]].
  rewrite (K 100%nat); [reflexivity|].
  unfold u32_modulus. simpl. lia.
Defined.

(** ** Texture lookup *)

Local Open Scope Q_scope.

Lemma Qfloor_add_Z (q : Q) (m : Z) : Qfloor (q + inject_Z m) = (Qfloor q + m)%Z.
Proof.
  destruct q as [a b]. unfold Qfloor, Qplus, inject_Z. simpl.
  rewrite Z.mul_1_r, Pos.mul_1_r. apply Z.div_add. discriminate.
Qed.

Lemma fract_Q (q : Q) : @fract Q QS.scalar q = q - inject_Z (Qfloor q).
Proof. reflexivity. Qed.

Lemma fract_add_Z (q : Q) (m : Z) : @fract Q QS.scalar (q + inject_Z m) == @fract Q QS.scalar q.
Proof.
  rewrite !fract_Q, Qfloor_add_Z, inject_Z_plus. ring.
Qed.

Lemma truncZ_floor (q : Q) :
  QS.truncZ q = if (0 <=? Qnum q)%Z then Qfloor q else (- Qfloor (- q))%Z.
Proof.
  destruct q as [a b]. unfold QS.truncZ, Qfloor, Qopp. simpl.
  destruct (0 <=? a)%Z eqn:E.
  - apply Z.leb_le in E. apply Z.quot_div_nonneg; lia.
  - apply Z.leb_gt in E.
    rewrite <- (Z.opp_involutive a) at 1. rewrite Z.quot_opp_l by discriminate.
    f_equal. apply Z.quot_div_nonneg; lia.
Qed.

Lemma Qnum_sign_comp (q q' : Q) : q == q' -> (0 <=? Qnum q)%Z = (0 <=? Qnum q')%Z.
Proof.
  unfold Qeq. intros E.
  destruct (0 <=? Qnum q)%Z eqn:A, (0 <=? Qnum q')%Z eqn:B; try reflexivity.
  - apply Z.leb_le in A. apply Z.leb_gt in B. exfalso. nia.
  - apply Z.leb_gt in A. apply Z.leb_le in B. exfalso. nia.
Qed.

#[global] Instance truncZ_comp : Proper (Qeq ==> eq) QS.truncZ.
Proof.
  intros q q' E. rewrite !truncZ_floor, (Qnum_sign_comp _ _ E).
  destruct (0 <=? Qnum q')%Z; [now rewrite E|]. now rewrite E.
Qed.

Section TextureQ.
Context {ML : MathLib Q} {BT : Bits Q}.
Variable g : Deferred.Bindings Q.

Lemma texelIndex_wrap desc (u v : Q) (m n : Z) :
  Deferred.texelIndex desc (mkVec2 (u + inject_Z m) (v + inject_Z n))
  = Deferred.texelIndex desc (mkVec2 u v).
Proof.
  unfold Deferred.texelIndex. cbn [v2x v2y].
  change (@u32_of_f32 Q QS.scalar) with (fun q => B32.clampZ 0 (2 ^ 32 - 1) (QS.truncZ q)).
  change (@fmul Q QS.scalar) with Qmult. cbv beta.
  rewrite !fract_add_Z. reflexivity.
Qed.

Lemma textureLookup_texel desc (uv : vec2 Q) :
  Deferred.textureLookup g desc uv =
  let* bgra := lookupZ (Deferred.textures g) (Deferred.texelIndex desc uv) in
  Done (Deferred.decodeTexel bgra).
Proof. reflexivity. Qed.
End TextureQ.

Local Close Scope Q_scope.

Lemma channel8_range (bgra s : Z) : 0 <= channel8 bgra s <= 255.
Proof.
  unfold channel8, u32_and, u32_shr.
  assert (E : Z.land (Z.shiftr bgra s) 255 = Z.shiftr bgra s mod 256).
  { change 255 with (Z.ones 8). rewrite Z.land_ones by lia. reflexivity. }
  rewrite E.
  pose proof (Z.mod_pos_bound (Z.shiftr bgra s) 256 eq_refl). lia.
Qed.

Lemma channel8_normalized (bgra s : Z) :
  (0 <= inject_Z (channel8 bgra s) / 255 <= 1)%Q.
Proof.
  pose proof (channel8_range bgra s) as [L U].
  split.
  - apply Qle_shift_div_l; [reflexivity|]. rewrite Qmult_0_l.
    change 0%Q with (inject_Z 0). now rewrite <- Zle_Qle.
  - apply Qle_shift_div_r; [reflexivity|]. rewrite Qmult_1_l.
    change 255%Q with (inject_Z 255). now rewrite <- Zle_Qle.
Qed.

(** ** Rounding to binary32 depends on the value only *)

Section Binary32Rounding.

Local Abbreviation prec := B32.prec.
Local Abbreviation emax := B32.emax.

Lemma iter_pos_nat {A} (f : A -> A) (p : positive) (x : A) :
  SpecFloat.iter_pos f p x = Nat.iter (Pos.to_nat p) f x.
Proof.
  revert x. induction p as [p IH|p IH|]; intros x; cbn [SpecFloat.iter_pos].
  - rewrite !IH, Pos2Nat.inj_xI, <- Nat.iter_add, <- Nat.iter_succ_r.
    f_equal. lia.
  - rewrite !IH, Pos2Nat.inj_xO, <- Nat.iter_add. f_equal. lia.
  - reflexivity.
Qed.

Lemma iter_pos_succ {A} (f : A -> A) (p : positive) (x : A) :
  SpecFloat.iter_pos f (Pos.succ p) x = SpecFloat.iter_pos f p (f x).
Proof. now rewrite !iter_pos_nat, Pos2Nat.inj_succ, Nat.iter_succ_r. Qed.

Lemma pos_iter_xO (m d : positive) : Zpos (Pos.iter xO m d) = Zpos m * 2 ^ Zpos d.
Proof.
  induction d as [|d IH] using Pos.peano_ind.
  - cbn [Pos.iter]. lia.
  - rewrite Pos.iter_succ, Pos2Z.inj_xO, IH, Pos2Z.inj_succ, Z.pow_succ_r by lia. ring.
Qed.

(** Doubling the mantissa and decrementing the exponent does not change
    the result of rounding. *)
Lemma binary_round_double (s : bool) (m : positive) (e : Z) :
  binary_round prec emax s (xO m) (e - 1) = binary_round prec emax s m e.
Proof.
  unfold binary_round. cbn [digits2_pos].
  replace (Zpos (Pos.succ (digits2_pos m)) + (e - 1)) with (Zpos (digits2_pos m) + e) by lia.
  set (E := SpecFloat.fexp prec emax (Zpos (digits2_pos m) + e)).
  unfold shl_align.
  destruct (E - e) as [|p|d] eqn:D.
  - (* already aligned: one shift to the right undoes the doubling *)
    replace (E - (e - 1)) with 1 by lia.
    unfold binary_round_aux, shr_fexp. cbn [Zdigits2 digits2_pos].
    replace (Zpos (Pos.succ (digits2_pos m)) + (e - 1)) with (Zpos (digits2_pos m) + e)
      by lia.
    fold E. rewrite D. replace (E - (e - 1)) with 1 by lia.
    cbn [shr shr_record_of_loc SpecFloat.iter_pos shr_1 orb].
    replace (e - 1 + 1) with e by lia. reflexivity.
  - replace (E - (e - 1)) with (Zpos (Pos.succ p)) by lia.
    unfold binary_round_aux, shr_fexp. cbn [Zdigits2 digits2_pos].
    replace (Zpos (Pos.succ (digits2_pos m)) + (e - 1)) with (Zpos (digits2_pos m) + e)
      by lia.
    fold E. rewrite D. replace (E - (e - 1)) with (Zpos (Pos.succ p)) by lia.
    cbn [shr shr_record_of_loc]. rewrite iter_pos_succ. cbn [shr_1 orb].
    replace (e - 1 + Zpos (Pos.succ p)) with (e + Zpos p) by lia. reflexivity.
  - destruct (Pos.eq_dec d 1%positive) as [->|Hd].
    + replace (E - (e - 1)) with 0 by lia. cbn [Pos.iter].
      replace (e - 1) with E by lia. reflexivity.
    + replace (E - (e - 1)) with (Zneg (Pos.pred d)) by lia.
      f_equal. f_equal.
      apply Pos2Z.inj. rewrite !pos_iter_xO, Pos2Z.inj_xO.
      replace (Zpos d) with (Z.succ (Zpos (Pos.pred d))) by lia.
      rewrite Z.pow_succ_r by lia. ring.
Qed.

Lemma binary_normalize_double (n e : Z) (sz : bool) :
  binary_normalize prec emax (2 * n) (e - 1) sz = binary_normalize prec emax n e sz.
Proof.
  destruct n as [|m|m]; cbn [Z.mul binary_normalize Pos.mul];
    [reflexivity|apply binary_round_double|apply binary_round_double].
Qed.

(** The mantissa may be given at any smaller exponent. *)
Lemma binary_normalize_shift (n e k : Z) (sz : bool) :
  0 <= k ->
  binary_normalize prec emax (n * 2 ^ k) (e - k) sz = binary_normalize prec emax n e sz.
Proof.
  intros Hk. revert k Hk e. apply (natlike_ind (fun k => forall e, _ = _)).
  - intros e. now rewrite Z.mul_1_r, Z.sub_0_r.
  - intros k Hk IH e. rewrite Z.pow_succ_r by exact Hk.
    replace (n * (2 * 2 ^ k)) with (2 * (n * 2 ^ k)) by ring.
    replace (e - Z.succ k) with (e - k - 1) by lia.
    rewrite binary_normalize_double. apply IH.
Qed.

(** A valid finite number rounds to itself. *)
Lemma binary_round_valid (s : bool) (m : positive) (e : Z) :
  bounded prec emax m e = true ->
  binary_round prec emax s m e = S754_finite s m e.
Proof.
  unfold bounded, canonical_mantissa. intros B.
  apply andb_true_iff in B as [C L]. apply Z.eqb_eq in C.
  unfold binary_round. rewrite C. unfold shl_align. rewrite Z.sub_diag.
  unfold binary_round_aux, shr_fexp. cbn [Zdigits2]. rewrite C, Z.sub_diag.
  cbn [shr shr_record_of_loc shr_m loc_of_shr_record round_nearest_even Zdigits2].
  rewrite C, Z.sub_diag. cbn [shr shr_m]. now rewrite L.
Qed.

Lemma digits2_pos_bounds (p : positive) :
  2 ^ (Zpos (digits2_pos p) - 1) <= Zpos p < 2 ^ Zpos (digits2_pos p).
Proof.
  induction p as [p IH|p IH|]; cbn [digits2_pos].
  - rewrite Pos2Z.inj_succ, Z.pow_succ_r by lia.
    replace (Z.succ (Zpos (digits2_pos p)) - 1) with (Z.succ (Zpos (digits2_pos p) - 1)) by lia.
    rewrite Z.pow_succ_r by lia. lia.
  - rewrite Pos2Z.inj_succ, Z.pow_succ_r by lia.
    replace (Z.succ (Zpos (digits2_pos p)) - 1) with (Z.succ (Zpos (digits2_pos p) - 1)) by lia.
    rewrite Z.pow_succ_r by lia. lia.
  - cbn. lia.
Qed.

Lemma digits2_pos_unique (p : positive) (d : Z) :
  2 ^ (d - 1) <= Zpos p < 2 ^ d -> Zpos (digits2_pos p) = d.
Proof.
  intros [L U]. pose proof (digits2_pos_bounds p) as [L' U'].
  destruct (Z.lt_trichotomy (Zpos (digits2_pos p)) d) as [H|[H|H]]; [|exact H|].
  - assert (2 ^ Zpos (digits2_pos p) <= 2 ^ (d - 1)) by (apply Z.pow_le_mono_r; lia). lia.
  - assert (0 <= d \/ d < 0) as [Hd|Hd] by lia.
    + assert (2 ^ d <= 2 ^ (Zpos (digits2_pos p) - 1)) by (apply Z.pow_le_mono_r; lia). lia.
    + rewrite (Z.pow_neg_r 2 d) in U by lia. lia.
Qed.

(** A nonzero integer below [2^24] is a binary32 number. *)
Lemma binary_normalize_int (z : Z) (sz : bool) :
  z <> 0 -> Z.abs z < 2 ^ 24 ->
  exists (mw : positive) (ew : Z),
    binary_normalize prec emax z 0 sz = S754_finite (z <? 0) mw ew
    /\ -23 <= ew <= 0 /\ Zpos mw = Z.abs z * 2 ^ (- ew).
Proof.
  intros Hz Hlt.
  assert (Hp : exists p, Z.abs z = Zpos p) by (destruct z; [lia|eauto|eauto]).
  destruct Hp as [p Hp]. rewrite Hp in Hlt.
  pose proof (digits2_pos_bounds p) as [DL DU].
  set (d := Zpos (digits2_pos p)) in *.
  assert (Hd : 1 <= d <= 24).
  { split; [unfold d; lia|].
    destruct (Z.le_gt_cases d 24) as [H|H]; [exact H|].
    assert (2 ^ 24 <= 2 ^ (d - 1)) by (apply Z.pow_le_mono_r; lia). lia. }
  set (k := 24 - d).
  assert (Hq : exists q, Zpos q = Zpos p * 2 ^ k).
  { assert (0 < Zpos p * 2 ^ k) by (apply Z.mul_pos_pos; [lia|apply Z.pow_pos_nonneg; lia]).
    destruct (Zpos p * 2 ^ k) as [|q|q] eqn:E; [lia|eauto|lia]. }
  destruct Hq as [q Hq].
  assert (Hdq : Zpos (digits2_pos q) = 24).
  { apply digits2_pos_unique. rewrite Hq. split.
    - replace (24 - 1) with (d - 1 + k) by (unfold k; lia).
      rewrite Z.pow_add_r by (unfold k; lia). apply Z.mul_le_mono_nonneg_r; [|exact DL].
      apply Z.pow_nonneg. lia.
    - replace (2 ^ 24) with (2 ^ (d + k)) by (f_equal; unfold k; lia).
      rewrite Z.pow_add_r by (unfold k; lia). apply Z.mul_lt_mono_pos_r; [|exact DU].
      apply Z.pow_pos_nonneg; lia. }
  assert (Hb : bounded prec emax q (- k) = true).
  { unfold bounded, canonical_mantissa. rewrite Hdq.
    apply andb_true_iff. split.
    - apply Z.eqb_eq. unfold SpecFloat.fexp, emin, B32.prec, B32.emax. unfold k. lia.
    - apply Z.leb_le. unfold B32.prec, B32.emax, k. lia. }
  exists q, (- k). split; [|split; [unfold k; lia|]].
  - rewrite <- (binary_normalize_shift z 0 k sz) by (unfold k; lia).
    replace (0 - k) with (- k) by lia.
    destruct z as [|z|z]; [lia| |].
    + injection Hp as ->. rewrite <- Hq. cbn [binary_normalize Z.ltb Z.compare].
      now apply binary_round_valid.
    + injection Hp as ->.
      replace (Zneg p * 2 ^ k) with (Zneg q) by (rewrite <- Pos2Z.opp_pos, Hq; lia).
      cbn [binary_normalize Z.ltb Z.compare]. now apply binary_round_valid.
  - rewrite Z.opp_involutive, Hp. exact Hq.
Qed.

Lemma shl_align_value (m : positive) (e e0 : Z) :
  e0 <= e -> Zpos (fst (shl_align m e e0)) = Zpos m * 2 ^ (e - e0).
Proof.
  intros L. unfold shl_align. destruct (e0 - e) as [|p|d] eqn:D; cbn [fst].
  - replace (e - e0) with 0 by lia. lia.
  - lia.
  - rewrite pos_iter_xO. f_equal. f_equal. lia.
Qed.

Lemma valid_finite_bounds (s : bool) (m : positive) (e : Z) :
  bounded prec emax m e = true -> -149 <= e /\ Zpos m < 2 ^ 24.
Proof.
  unfold bounded, canonical_mantissa. intros B.
  apply andb_true_iff in B as [C _]. apply Z.eqb_eq in C.
  unfold SpecFloat.fexp, emin, B32.prec, B32.emax in C.
  split; [lia|].
  pose proof (digits2_pos_bounds m) as [_ U].
  assert (2 ^ Zpos (digits2_pos m) <= 2 ^ 24) by (apply Z.pow_le_mono_r; lia). lia.
Qed.

(** [fract] rounds the fractional part of the value, which is the value in
    units of [2^-149] modulo [2^149]. *)
Lemma fract_value (x : B32.t) :
  valid_binary prec emax x = true -> B32.finite x = true ->
  @fract B32.t B32.scalar x
  = binary_normalize prec emax (B32.scaled x mod 2 ^ 149) (-149) false.
Proof.
  intros V Fin. unfold fract. cbn [fsub ffloor B32.scalar].
  destruct x as [s| | |s m e]; try discriminate.
  - (* zero *)
    cbn [B32.floor B32.scaled]. rewrite Z.mod_0_l by lia. now destruct s.
  - cbn [valid_binary] in V. destruct (valid_finite_bounds s m e V) as [He Hm].
    set (n := if s then Zneg m else Zpos m).
    assert (Hn : Z.abs n = Zpos m) by (unfold n; now destruct s).
    cbn [B32.scaled]. fold n. unfold B32.floor.
    destruct (0 <=? e) eqn:Epos.
    + (* an integer *)
      apply Z.leb_le in Epos.
      replace (n * 2 ^ (e + 149)) with (n * 2 ^ e * 2 ^ 149)
        by (rewrite Z.pow_add_r by lia; ring).
      rewrite Z.mod_mul by lia. cbn [binary_normalize].
      unfold SFsub. cbv zeta. rewrite Z.min_id.
      unfold shl_align. rewrite Z.sub_diag. cbn [fst]. reflexivity.
    + apply Z.leb_gt in Epos.
      set (fz := B32.floorZ s m e).
      assert (Hfz : fz = n / 2 ^ (- e)).
      { unfold fz, B32.floorZ. fold n.
        destruct (0 <=? e) eqn:E'; [apply Z.leb_le in E'; lia|reflexivity]. }
      assert (Hpow : 2 ^ 149 = 2 ^ (e + 149) * 2 ^ (- e)).
      { rewrite <- Z.pow_add_r by lia. f_equal. lia. }
      assert (Hp1 : 0 < 2 ^ (e + 149)) by (apply Z.pow_pos_nonneg; lia).
      assert (Hp2 : 2 <= 2 ^ (- e)).
      { change 2 with (2 ^ 1) at 1. apply Z.pow_le_mono_r; lia. }
      assert (Hdiv : n * 2 ^ (e + 149) / 2 ^ 149 = fz).
      { rewrite Hfz, Hpow, Z.mul_comm, Z.div_mul_cancel_l by lia. reflexivity. }
      assert (Hmod : (n * 2 ^ (e + 149)) mod 2 ^ 149 = n * 2 ^ (e + 149) - fz * 2 ^ 149).
      { rewrite Z.mod_eq by lia. rewrite Hdiv. ring. }
      rewrite Hmod.
      destruct (Z.eq_dec fz 0) as [Hz|Hnz].
      * (* below one in absolute value, and not negative *)
        rewrite Hz. cbn [binary_normalize]. rewrite Z.mul_0_l, Z.sub_0_r.
        assert (Hs : s = false).
        { destruct s; [|reflexivity]. exfalso. unfold n in Hfz.
          assert (Zneg m / 2 ^ (- e) < 0) by (apply Z.div_lt_upper_bound; lia). lia. }
        subst s. cbn [SFsub].
        replace (-149) with (e - (e + 149)) by lia.
        rewrite binary_normalize_shift by lia.
        unfold n. cbn [binary_normalize]. symmetry. now apply binary_round_valid.
      * assert (Habs : Z.abs fz < 2 ^ 24).
        { assert (Z.abs fz <= Z.abs n); [|lia].
          rewrite Hfz. destruct (Z.le_gt_cases 0 n) as [Hn0|Hn0].
          - rewrite !Z.abs_eq; [|lia|apply Z.div_pos; lia].
            apply Z.div_le_upper_bound; [lia|]. nia.
          - assert (n <= n / 2 ^ (- e)) by (apply Z.div_le_lower_bound; [lia|nia]).
            assert (n / 2 ^ (- e) < 0) by (apply Z.div_lt_upper_bound; lia). lia. }
        destruct (binary_normalize_int fz s Hnz Habs) as (mw & ew & Ew & Hew & Hmw).
        rewrite Ew. cbn [SFsub]. cbv zeta.
        set (e0 := Z.min e ew).
        rewrite !shl_align_value by (unfold e0; lia).
        assert (Hsign : (fz <? 0) = s).
        { rewrite Hfz. unfold n. destruct s.
          - apply Z.ltb_lt. apply Z.div_lt_upper_bound; lia.
          - apply Z.ltb_ge. apply Z.div_pos; lia. }
        rewrite Hsign.
        assert (Hx : cond_Zopp s (Zpos m * 2 ^ (e - e0)) = n * 2 ^ (e - e0)).
        { unfold n. destruct s; cbn [cond_Zopp]; lia. }
        assert (Hw : cond_Zopp s (Zpos mw * 2 ^ (ew - e0)) = fz * 2 ^ (- e0)).
        { rewrite Hmw. replace (- e0) with (- ew + (ew - e0)) by lia.
          rewrite Z.pow_add_r by (unfold e0; lia).
          rewrite <- Hsign. destruct (fz <? 0) eqn:Sg; cbn [cond_Zopp].
          - apply Z.ltb_lt in Sg. rewrite Z.abs_neq by lia. ring.
          - apply Z.ltb_ge in Sg. rewrite Z.abs_eq by lia. ring. }
        rewrite Hx, Hw.
        replace (-149) with (e0 - (e0 + 149)) by lia.
        replace (n * 2 ^ (e + 149) - fz * 2 ^ 149)
          with ((n * 2 ^ (e - e0) - fz * 2 ^ (- e0)) * 2 ^ (e0 + 149)).
        -- now rewrite binary_normalize_shift by (unfold e0; lia).
        -- rewrite Z.mul_sub_distr_r, <- !Z.mul_assoc, <- !Z.pow_add_r by (unfold e0; lia).
           f_equal; f_equal; f_equal; lia.
Qed.

(** Two numbers whose values differ by an integer have the same
    fractional part. *)
Lemma fract_shift (x y : B32.t) (k : Z) :
  valid_binary prec emax x = true -> B32.finite x = true ->
  valid_binary prec emax y = true -> B32.finite y = true ->
  B32.scaled y = B32.scaled x + k * 2 ^ 149 ->
  @fract B32.t B32.scalar y = @fract B32.t B32.scalar x.
Proof.
  intros Vx Fx Vy Fy E.
  rewrite (fract_value x Vx Fx), (fract_value y Vy Fy), E, Z.mod_add by lia.
  reflexivity.
Qed.

End Binary32Rounding.

Lemma scaled_to_Q (x : B32.t) :
  valid_binary B32.prec B32.emax x = true ->
  (inject_Z (B32.scaled x) == B32.to_Q x * inject_Z (2 ^ 149))%Q.
Proof.
  destruct x as [s| | |s m e]; intros V; cbn [B32.scaled B32.to_Q];
    try (rewrite Qmult_0_l; reflexivity).
  cbn [valid_binary] in V. destruct (valid_finite_bounds s m e V) as [He _].
  set (n := if s then Zneg m else Zpos m).
  destruct (0 <=? e) eqn:E.
  - apply Z.leb_le in E. rewrite Z.pow_add_r by lia.
    rewrite Z.mul_assoc, inject_Z_mult. reflexivity.
  - apply Z.leb_gt in E. unfold Qeq, Qmult, inject_Z. cbn [Qnum Qden].
    rewrite Pos.mul_1_r, Z.mul_1_r, Z2Pos.id by (apply Z.pow_pos_nonneg; lia).
    rewrite <- !Z.mul_assoc, <- Z.pow_add_r by lia. f_equal. f_equal. lia.
Qed.

Lemma is_number_split (x : B32.t) :
  B32.is_number x = true ->
  valid_binary B32.prec B32.emax x = true /\ B32.finite x = true.
Proof. unfold B32.is_number. intros N. now apply andb_true_iff in N. Qed.

(** On binary32, two numbers whose values differ by an integer have the
    same [fract]. *)
Lemma fract_shift_Q (x y : B32.t) (k : Z) :
  B32.is_number x = true -> B32.is_number y = true ->
  (B32.to_Q y == B32.to_Q x + inject_Z k)%Q ->
  @fract B32.t B32.scalar y = @fract B32.t B32.scalar x.
Proof.
  intros Nx Ny E.
  destruct (is_number_split x Nx) as [Vx Fx]. destruct (is_number_split y Ny) as [Vy Fy].
  apply (fract_shift x y k Vx Fx Vy Fy).
  apply inject_Z_injective.
  rewrite inject_Z_plus, inject_Z_mult, !scaled_to_Q, E by assumption. ring.
Qed.

(** C9.  Adding integers to the two UV coordinates changes neither the
    texel [textureLookup] reads nor its result: in exact arithmetic for all
    UV pairs, and on binary32 for all pairs of numbers whose values differ
    by integers.  On binary32, UV (1.25, -0.25) and UV (0.25, 0.75) address
    the same texel of a 4x4 texture, the one at row 3 and column 1.  The
    texel's three 8-bit components [(bgra >> 16) & 0xff],
    [(bgra >> 8) & 0xff] and [bgra & 0xff] lie in [0, 255], are divided by
    255 (which puts them in [0, 1]) and decoded with [pow(c, 2.2)]. *)
Theorem textureLookup_wrap :
  (forall (ML : MathLib Q) (g : Deferred.Bindings Q)
          (desc : Deferred.TextureDescriptor) (u v : Q) (m n : Z),
      Deferred.textureLookup g desc (mkVec2 (u + inject_Z m) (v + inject_Z n))%Q
      = Deferred.textureLookup g desc (mkVec2 u v))
  /\ (forall (ML : MathLib B32.t) (g : Deferred.Bindings B32.t)
             (desc : Deferred.TextureDescriptor) (u v u' v' : B32.t) (m n : Z),
        B32.is_number u = true -> B32.is_number v = true ->
        B32.is_number u' = true -> B32.is_number v' = true ->
        (B32.to_Q u' == B32.to_Q u + inject_Z m)%Q ->
        (B32.to_Q v' == B32.to_Q v + inject_Z n)%Q ->
        Deferred.textureLookup g desc (mkVec2 u' v')
        = Deferred.textureLookup g desc (mkVec2 u v))
  /\ (forall off : Z,
        Deferred.texelIndex (Deferred.mkTextureDescriptor 4 4 off) (b32_uv 1.25 (-0.25))
        = u32_add off 13
        /\ Deferred.texelIndex (Deferred.mkTextureDescriptor 4 4 off) (b32_uv 0.25 0.75)
          = u32_add off 13)
  /\ (forall (F : Type) (S : Scalar F) (ML : MathLib F)
             (g : Deferred.Bindings F) (desc : Deferred.TextureDescriptor) (uv : vec2 F),
        Deferred.textureLookup g desc uv =
        let* bgra := lookupZ (Deferred.textures g) (Deferred.texelIndex desc uv) in
        Done (mkVec3
                (fpow (fdiv (f32_of_u32 (channel8 bgra 16)) (fconst 255)) (fconst 2.2))
                (fpow (fdiv (f32_of_u32 (channel8 bgra 8)) (fconst 255)) (fconst 2.2))
                (fpow (fdiv (f32_of_u32 (u32_and bgra 255)) (fconst 255)) (fconst 2.2))))
  /\ (forall bgra s : Z,
        0 <= channel8 bgra s <= 255
        /\ (0 <= inject_Z (channel8 bgra s) / 255 <= 1)%Q).
Proof.
  split; [|split; [|split; [|split]]].
  - intros ML g desc u v m n.
    rewrite !textureLookup_texel, texelIndex_wrap. reflexivity.
  - intros ML g desc u v u' v' m n Nu Nv Nu' Nv' Eu Ev.
    unfold Deferred.textureLookup. cbn [v2x v2y].
    rewrite (fract_shift_Q u u' m Nu Nu' Eu), (fract_shift_Q v v' n Nv Nv' Ev).
    reflexivity.
  - intros off. split; unfold Deferred.texelIndex; f_equal.
  - intros. reflexivity.
  - intros bgra s. split; [apply channel8_range|apply channel8_normalized].
Qed.

(** On the scene's 1x1 texture, UV (1.25, -0.25) gives what UV (0.25, 0.75)
    gives. *)
Lemma textureLookup_wrap_witness :
  @Deferred.textureLookup _ B32.scalar b32_mathlib_sqrt_only scene
    (Deferred.mkTextureDescriptor 1 1 0) (b32_uv 1.25 (-0.25))
  = @Deferred.textureLookup _ B32.scalar b32_mathlib_sqrt_only scene
      (Deferred.mkTextureDescriptor 1 1 0) (b32_uv 0.25 0.75).
Proof.
  destruct textureLookup_wrap as (_ & H & _).
  apply (H b32_mathlib_sqrt_only scene (Deferred.mkTextureDescriptor 1 1 0)
           (b32 0.25) (b32 0.75) (b32 1.25) (b32 (-0.25)) 1 (-1)); reflexivity.
Defined.

(** ** The explicit-stack traversal follows the tree *)

Lemma stackAgree_refl off s : stackAgree off s s.
Proof. split; auto. Qed.

Lemma stackAgree_trans off s1 s2 s3 :
  stackAgree off s1 s2 -> stackAgree off s2 s3 -> stackAgree off s1 s3.
Proof.
  intros [L1 A1] [L2 A2]. split; [congruence|].
  intros j Hj. rewrite A1 by lia. now apply A2.
Qed.

Lemma stackAgree_weaken off off' s1 s2 :
  off <= off' -> stackAgree off' s1 s2 -> stackAgree off s1 s2.
Proof.
  intros L [L1 A1]. split; [exact L1|]. intros j Hj. apply A1. lia.
Qed.

Lemma stackAgree_insert off (s : list Z) v :
  0 <= off -> stackAgree off s (<[Z.to_nat off := v]> s).
Proof.
  intros L. split; [now rewrite length_insert|].
  intros j Hj. rewrite list_lookup_insert_ne by lia. reflexivity.
Qed.

Lemma lookupZ_Some {A} (l : list A) (i : Z) (x : A) :
  l !! Z.to_nat i = Some x -> lookupZ l i = Done x.
Proof. unfold lookupZ. now intros ->. Qed.

Section StackLength.
Context {F : Type} `{Scalar F} `{MathLib F}.
Context {A R : Type}.
Variable nodes : list (BvhNode F).
Variable intersector : RayAabbIntersector F.
Variable limit : A -> F.
Variable leaf : BvhNode F -> A -> Outcome (Flow A R).
Variable result : A -> R.

Local Abbreviation step := (traverseStep nodes intersector limit leaf result).
Local Abbreviation steps := (traverseSteps nodes intersector limit leaf result).

Lemma popNode_length (s s' : Traversal A) (a : A) :
  popNode result s a = Done (Continue s') ->
  length (nodesToVisit s') = length (nodesToVisit s).
Proof.
  unfold popNode. destruct (toVisitOffset s =? 0); [discriminate|].
  destruct (lookupZ _ _) as [idx| |]; cbn [obind]; try discriminate.
  intros E. inversion E; subst. reflexivity.
Qed.

Lemma pushNode_length (s s' : Traversal A) (node : BvhNode F) :
  pushNode (R:=R) intersector s node = Done (Continue s') ->
  length (nodesToVisit s') = length (nodesToVisit s).
Proof.
  unfold pushNode, storeZ.
  destruct (vidx _ _ =? 1); destruct (_ <? _)%nat; cbn [obind]; try discriminate;
    intros E; inversion E; subst; cbn [nodesToVisit]; apply length_insert.
Qed.

(** The array keeps its 32 entries: the loop only overwrites them. *)
Lemma traverseStep_length (s s' : Traversal A) :
  step s = Done (Continue s') -> length (nodesToVisit s') = length (nodesToVisit s).
Proof.
  unfold traverseStep.
  destruct (lookupZ nodes _) as [node| |]; cbn [obind]; try discriminate.
  destruct (rayIntersectAabb _ _ _); [|apply popNode_length].
  destruct (triangleCount node >? 0); [|apply pushNode_length].
  destruct (leaf node _) as [[a|r]| |]; cbn [obind]; try discriminate.
  apply popNode_length.
Qed.

Lemma traverseSteps_length (n : nat) :
  forall s s' : Traversal A,
    steps n s = Done (Continue s') -> length (nodesToVisit s') = length (nodesToVisit s).
Proof.
  induction n as [|n IH]; intros s s' E.
  - inversion E; subst. reflexivity.
  - cbn [traverseSteps] in E.
    destruct (step s) as [[s1|r]| |] eqn:E1; cbn [obind] in E; try discriminate.
    rewrite (IH _ _ E). exact (traverseStep_length _ _ E1).
Qed.

End StackLength.

Section TraverseFacts.
Context {F : Type} `{Scalar F} `{MathLib F}.
Context {A R : Type}.
Variable nodes : list (BvhNode F).
Variable intersector : RayAabbIntersector F.
Variable limit : A -> F.
Variable leaf : BvhNode F -> A -> Outcome (Flow A R).
Variable result : A -> R.
Variable numTriangles : Z.

Local Abbreviation step := (traverseStep nodes intersector limit leaf result).
Local Abbreviation steps := (traverseSteps nodes intersector limit leaf result).
Local Abbreviation loop := (traverseLoop nodes intersector limit leaf result).
Local Abbreviation pop := (popNode (A:=A) result).
Local Abbreviation visitT := (visit intersector limit leaf).

Lemma traverseSteps_add (n m : nat) (s : Traversal A) :
  steps (n + m) s =
  let* fl := steps n s in
  match fl with
  | Break r => Done (Break r)
  | Continue s' => steps m s'
  end.
Proof.
  revert s. induction n as [|n IH]; intros s; simpl; [reflexivity|].
  destruct (step s) as [[s'|r]| |]; simpl; auto.
Qed.

Lemma traverseSteps_one (s : Traversal A) :
  steps 1 s = step s.
Proof.
  simpl. destruct (step s) as [[s'|r]| |]; reflexivity.
Qed.

Lemma traverseLoop_steps (fuel : nat) (s : Traversal A) :
  loop fuel s =
  match steps fuel s with
  | Done (Break r) => Done r
  | Done (Continue _) => OutOfFuel
  | Fault => Fault
  | OutOfFuel => OutOfFuel
  end.
Proof.
  revert s. induction fuel as [|fuel IH]; intros s; simpl; [reflexivity|].
  destruct (step s) as [[s'|r]| |]; simpl; auto.
Qed.

Lemma traverseSteps_break_mono (n m : nat) (s : Traversal A) (r : R) :
  steps n s = Done (Break r) -> (n <= m)%nat -> steps m s = Done (Break r).
Proof.
  intros E L. replace m with (n + (m - n))%nat by lia.
  rewrite traverseSteps_add, E. reflexivity.
Qed.

Lemma traverseSteps_fault_mono (n m : nat) (s : Traversal A) :
  steps n s = Fault -> (n <= m)%nat -> steps m s = Fault.
Proof.
  intros E L. replace m with (n + (m - n))%nat by lia.
  rewrite traverseSteps_add, E. reflexivity.
Qed.

Lemma popNode_positive (off cur : Z) (stack : list Z) (a0 a : A) :
  0 < off <= Z.of_nat (length stack) -> off < u32_modulus ->
  exists idx, stack !! Z.to_nat (off - 1) = Some idx /\
    pop (mkTraversal off cur stack a0) a
    = Done (Continue (mkTraversal (off - 1) idx stack a)).
Proof.
  intros B U. unfold popNode. cbn [toVisitOffset nodesToVisit].
  destruct (off =? 0) eqn:E; [lia|].
  unfold u32_sub. rewrite u32_small by lia.
  destruct (stack !! Z.to_nat (off - 1)) as [idx|] eqn:L.
  - exists idx. split; [reflexivity|]. now rewrite (lookupZ_Some _ _ _ L).
  - apply lookup_ge_None in L. lia.
Qed.

Lemma traverse_subtree (t : BvhTree F) :
  Z.of_nat (length nodes) <= u32_modulus ->
  treeIn nodes numTriangles t ->
  forall (off : Z) (stack : list Z) (a : A),
    length stack = STACK_SIZE -> 0 <= off ->
    off + Z.of_nat (interiorDepth t) <= Z.of_nat STACK_SIZE ->
    exists n stack', subtreeRun nodes intersector limit leaf result t off stack a n stack'.
Proof.
  intros HU. induction t as [i nd|i nd l IHl r IHr]; intros WF off stack a Hlen Hoff Hdepth.
  - (* leaf *)
    destruct WF as (Hi & Hnd & Hcount & _).
    exists 1%nat, stack. split; [simpl; lia|]. split; [apply stackAgree_refl|]. split.
    + rewrite traverseSteps_one. unfold traverseStep. cbn [currentNodeIdx locals root].
      rewrite (lookupZ_Some _ _ _ Hnd). cbn [obind visit].
      destruct (rayIntersectAabb intersector (aabb nd) (limit a)); [|reflexivity].
      assert (E : (triangleCount nd >? 0) = true) by (apply Z.gtb_lt; lia).
      rewrite E. destruct (leaf nd a) as [[a'|r']| |]; reflexivity.
    + intros j Hj. assert (j = 0%nat) by lia. subst j.
      eexists. split; [reflexivity|]. cbn [toVisitOffset]. lia.
  - (* interior *)
    destruct WF as (Hi & Hnd & Hcount & Haxis & Hl & Hr & WFl & WFr).
    specialize (IHl WFl). specialize (IHr WFr).
    cbn [interiorDepth] in Hdepth.
    assert (Hstep0 : forall s', steps 0 (mkTraversal off (root (Interior i nd l r)) stack a)
                                = Done (Continue s') -> off <= toVisitOffset s' <= off).
    { intros s' E. inversion E; subst. cbn. lia. }
    destruct (rayIntersectAabb intersector (aabb nd) (limit a)) eqn:Htest.
    2:{ exists 1%nat, stack. split; [simpl; lia|]. split; [apply stackAgree_refl|]. split.
        - rewrite traverseSteps_one. unfold traverseStep. cbn [currentNodeIdx locals root].
          rewrite (lookupZ_Some _ _ _ Hnd). cbn [obind visit]. rewrite Htest. reflexivity.
        - intros j Hj. assert (j = 0%nat) by lia. subst j.
          eexists. split; [reflexivity|]. cbn [toVisitOffset]. lia. }
    (* the first iteration pushes the far child *)
    assert (Hroot_l : u32_add i 1 = root l).
    { unfold u32_add. rewrite Hl. apply u32_small.
      destruct l as [il ndl|il ndl ? ?]; cbn in WFl, Hl;
        destruct WFl as (_ & Hlk & _); apply lookup_lt_Some in Hlk; subst il; lia. }
    assert (Hoff32 : (Z.to_nat off < length stack)%nat).
    { rewrite Hlen. unfold STACK_SIZE in *. lia. }
    assert (Hoff1 : u32_add off 1 = off + 1).
    { unfold u32_add. apply u32_small. unfold STACK_SIZE, u32_modulus in *. lia. }
    set (nearSecond := vidx (dirNeg intersector) (splitAxis nd) =? 1).
    set (near := if nearSecond then r else l).
    set (far := if nearSecond then l else r).
    set (stack1 := <[Z.to_nat off := root far]> stack).
    assert (Hfirst : step (mkTraversal off i stack a)
                     = Done (Continue (mkTraversal (off + 1) (root near) stack1 a))).
    { unfold traverseStep. cbn [currentNodeIdx locals].
      rewrite (lookupZ_Some _ _ _ Hnd). cbn [obind]. rewrite Htest.
      assert (E : (triangleCount nd >? 0) = false) by (rewrite Hcount; reflexivity).
      rewrite E. unfold pushNode. cbn [currentNodeIdx toVisitOffset nodesToVisit locals].
      fold nearSecond. unfold storeZ.
      assert (E2 : (Z.to_nat off <? length stack)%nat = true) by (apply Nat.ltb_lt; exact Hoff32).
      rewrite E2. cbn [obind]. rewrite Hoff1, Hroot_l.
      unfold stack1, near, far. destruct nearSecond; rewrite ?Hr; reflexivity. }
    assert (Hvisit : visitT (Interior i nd l r) a = andThen (visitT near a) (visitT far)).
    { cbn [visit]. rewrite Htest. fold nearSecond. unfold near, far.
      destruct nearSecond; reflexivity. }
    assert (Hdn : (interiorDepth near <= Nat.max (interiorDepth l) (interiorDepth r))%nat
                  /\ (interiorDepth far <= Nat.max (interiorDepth l) (interiorDepth r))%nat).
    { unfold near, far. destruct nearSecond; lia. }
    assert (Hsz : (treeSize near + treeSize far = treeSize l + treeSize r)%nat).
    { unfold near, far. destruct nearSecond; lia. }
    assert (IHnear : forall off stack a, length stack = STACK_SIZE -> 0 <= off ->
               off + Z.of_nat (interiorDepth near) <= Z.of_nat STACK_SIZE ->
               exists n stack', subtreeRun nodes intersector limit leaf result near off stack a n stack').
    { unfold near. destruct nearSecond; assumption. }
    assert (IHfar : forall off stack a, length stack = STACK_SIZE -> 0 <= off ->
               off + Z.of_nat (interiorDepth far) <= Z.of_nat STACK_SIZE ->
               exists n stack', subtreeRun nodes intersector limit leaf result far off stack a n stack').
    { unfold far. destruct nearSecond; assumption. }
    clearbody near far. clear IHl IHr.
    assert (Hlen1 : length stack1 = STACK_SIZE).
    { unfold stack1. now rewrite length_insert. }
    destruct Hdn as [Hdn Hdf].
    assert (Hd1 : off + 1 + Z.of_nat (interiorDepth near) <= Z.of_nat STACK_SIZE) by lia.
    assert (Hd2 : off + Z.of_nat (interiorDepth far) <= Z.of_nat STACK_SIZE) by lia.
    assert (Hoff' : 0 <= off + 1) by lia.
    destruct (IHnear (off + 1) stack1 a Hlen1 Hoff' Hd1)
      as (n1 & stack1' & Hn1 & Hag1 & Hrun1 & Hint1).
    (* states up to the end of the near subtree *)
    assert (Hint_near : forall j, (j < 1 + n1)%nat ->
              exists s', steps j (mkTraversal off i stack a) = Done (Continue s')
                /\ off <= toVisitOffset s'
                       <= off + Z.of_nat (S (Nat.max (interiorDepth l) (interiorDepth r)))).
    { intros j Hj. destruct j as [|j].
      - eexists. split; [reflexivity|]. cbn [toVisitOffset]. lia.
      - change (S j) with (1 + j)%nat. rewrite traverseSteps_add, traverseSteps_one, Hfirst.
        cbn [obind]. destruct (Hint1 j ltac:(lia)) as (s' & Es & Bs).
        exists s'. split; [exact Es|]. lia. }
    assert (Hrun_near : steps (1 + n1) (mkTraversal off i stack a)
                        = steps n1 (mkTraversal (off + 1) (root near) stack1 a)).
    { rewrite traverseSteps_add, traverseSteps_one, Hfirst. reflexivity. }
    assert (Hag01 : stackAgree off stack stack1').
    { apply (stackAgree_trans off _ stack1).
      - apply stackAgree_insert. exact Hoff.
      - apply (stackAgree_weaken off (off + 1)); [lia|exact Hag1]. }
    destruct (visitT near a) as [[a1|r1]| |] eqn:Hvn.
    + (* the near subtree is left normally: the far child is popped *)
      destruct Hag1 as [Hl1 Hag1].
      destruct (popNode_positive (off + 1) (root near) stack1' a a1) as (idx & Hidx & Hpop).
      { rewrite <- Hl1, Hlen1. unfold STACK_SIZE in *. lia. }
      { unfold STACK_SIZE, u32_modulus in *. lia. }
      assert (idx = root far).
      { replace (off + 1 - 1) with off in Hidx by lia.
        rewrite <- (Hag1 (Z.to_nat off)) in Hidx by lia.
        unfold stack1 in Hidx. rewrite list_lookup_insert_eq in Hidx by exact Hoff32.
        congruence. }
      subst idx. replace (off + 1 - 1) with off in Hpop by lia.
      rewrite Hpop in Hrun1.
      assert (Hlen1' : length stack1' = STACK_SIZE) by congruence.
      destruct (IHfar off stack1' a1 Hlen1' Hoff Hd2)
        as (n2 & stack2 & Hn2 & Hag2 & Hrun2 & Hint2).
      exists (1 + n1 + n2)%nat, stack2.
      split; [cbn [treeSize]; lia|].
      split; [apply (stackAgree_trans off _ stack1'); [exact Hag01|exact Hag2]|].
      split.
      * cbn [root]. rewrite traverseSteps_add, Hrun_near, Hrun1. cbn [obind].
        rewrite Hrun2, Hvisit. unfold andThen. cbn [obind].
        destruct (visitT far a1) as [[a2|r2]| |]; reflexivity.
      * intros j Hj. cbn [root interiorDepth].
        destruct (Nat.lt_ge_cases j (1 + n1)) as [Hlt|Hge]; [now apply Hint_near|].
        replace j with ((1 + n1) + (j - (1 + n1)))%nat by lia.
        rewrite traverseSteps_add, Hrun_near, Hrun1. cbn [obind].
        destruct (Hint2 (j - (1 + n1))%nat ltac:(lia)) as (s' & Es & Bs).
        exists s'. split; [exact Es|]. lia.
    + exists (1 + n1)%nat, stack1'.
      split; [cbn [treeSize]; lia|]. split; [exact Hag01|]. split.
      * cbn [root]. rewrite Hrun_near, Hrun1, Hvisit. reflexivity.
      * intros j Hj. cbn [root interiorDepth]. now apply Hint_near.
    + exists (1 + n1)%nat, stack1'.
      split; [cbn [treeSize]; lia|]. split; [exact Hag01|]. split.
      * cbn [root]. rewrite Hrun_near, Hrun1, Hvisit. reflexivity.
      * intros j Hj. cbn [root interiorDepth]. now apply Hint_near.
    + exists (1 + n1)%nat, stack1'.
      split; [cbn [treeSize]; lia|]. split; [exact Hag01|]. split.
      * cbn [root]. rewrite Hrun_near, Hrun1, Hvisit. reflexivity.
      * intros j Hj. cbn [root interiorDepth]. now apply Hint_near.
Qed.

End TraverseFacts.

Section TraverseRoot.
Context {F : Type} `{Scalar F} `{MathLib F}.
Context {A R : Type}.
Variable nodes : list (BvhNode F).
Variable intersector : RayAabbIntersector F.
Variable limit : A -> F.
Variable leaf : BvhNode F -> A -> Outcome (Flow A R).
Variable result : A -> R.
Variable numTriangles : Z.

(** From the root with an empty stack: the loop ends within [treeSize t]
    iterations with what [visit] computes, and until then the stack offset
    stays within the 32 entries. *)
Lemma traverse_root (t : BvhTree F) (a : A) :
  BvhLayout nodes numTriangles t ->
  exists n : nat,
    (n <= treeSize t)%nat
    /\ traverseSteps nodes intersector limit leaf result n (traverseInit a) =
       match visit intersector limit leaf t a with
       | Done (Continue a') => Done (Break (result a'))
       | Done (Break r) => Done (Break r)
       | Fault => Fault
       | OutOfFuel => OutOfFuel
       end
    /\ forall j : nat, (j < n)%nat ->
         exists s', traverseSteps nodes intersector limit leaf result j (traverseInit a)
                    = Done (Continue s')
                    /\ 0 <= toVisitOffset s' <= Z.of_nat STACK_SIZE.
Proof.
  intros [HU _ Hroot WF Hdepth].
  destruct (traverse_subtree nodes intersector limit leaf result numTriangles t HU WF
              0 (replicate STACK_SIZE 0) a) as (n & stack' & Hn & _ & Hrun & Hint).
  - apply length_replicate.
  - lia.
  - lia.
  - exists n. rewrite Hroot in Hrun, Hint. split; [lia|]. split.
    + unfold traverseInit. rewrite Hrun.
      destruct (visit intersector limit leaf t a) as [[a'|r]| |]; reflexivity.
    + intros j Hj. destruct (Hint j Hj) as (s' & Es & Bs).
      exists s'. split; [exact Es|]. lia.
Qed.

Lemma traverseLoop_visit (t : BvhTree F) (a : A) (fuel : nat) :
  BvhLayout nodes numTriangles t -> (treeSize t <= fuel)%nat ->
  traverseLoop nodes intersector limit leaf result fuel (traverseInit a) =
  match visit intersector limit leaf t a with
  | Done (Continue a') => Done (result a')
  | Done (Break r) => Done r
  | Fault => Fault
  | OutOfFuel => OutOfFuel
  end.
Proof.
  intros WF Hfuel. destruct (traverse_root t a WF) as (n & Hn & Hrun & _).
  rewrite traverseLoop_steps.
  replace fuel with (n + (fuel - n))%nat by lia.
  rewrite traverseSteps_add, Hrun.
  destruct (visit intersector limit leaf t a) as [[a'|r]| |]; reflexivity.
Qed.

(** Every state the loop passes through has its stack offset within the
    stack, provided [visit] does not fault. *)
Lemma traverse_offsets (t : BvhTree F) (a : A) (j : nat) (s' : Traversal A) :
  BvhLayout nodes numTriangles t ->
  traverseSteps nodes intersector limit leaf result j (traverseInit a) = Done (Continue s') ->
  0 <= toVisitOffset s' <= Z.of_nat STACK_SIZE.
Proof.
  intros WF Es. destruct (traverse_root t a WF) as (n & Hn & Hrun & Hint).
  destruct (Nat.lt_ge_cases j n) as [Hlt|Hge].
  - destruct (Hint j Hlt) as (s'' & Es' & Bs). congruence.
  - exfalso. replace j with (n + (j - n))%nat in Es by lia.
    rewrite traverseSteps_add, Hrun in Es.
    destruct (visit intersector limit leaf t a) as [[a'|r]| |]; discriminate.
Qed.

End TraverseRoot.

(** ** Closest hit: the invariant of the traversal *)

Section ClosestFacts.
Context {F : Type} `{ScalarOrder F} `{MathLib F}.
Context {A R : Type}.
Variable nodes : list (BvhNode F).
Variable positions : list (Positions F).
Variable ray : Ray F.
Variable rayTMax : F.
Variable did : A -> bool.
Variable tm : A -> F.
Variable writtenFor : A -> Z -> Prop.
Variable a0 : A.
Variable leaf : BvhNode F -> A -> Outcome (Flow A R).

Local Abbreviation Inv := (closestInv positions ray rayTMax did tm writtenFor a0).
Local Abbreviation hits := (hitAt positions ray rayTMax).

Hypothesis a0_did : did a0 = false.
Hypothesis a0_tm : tm a0 = rayTMax.

Lemma closestInv_ext (P Q : Z -> Prop) (a : A) :
  (forall k, P k <-> Q k) -> Inv P a -> Inv Q a.
Proof.
  intros E [I1 I2]. split.
  - intros D. destruct (I1 D) as [Ea N]. split; [exact Ea|].
    intros k t Qk. apply N. now apply E.
  - intros D. destruct (I2 D) as (k & t & Pk & Hk & Et & W & M).
    exists k, t. split; [now apply E|].
    split; [exact Hk|]. split; [exact Et|]. split; [exact W|].
    intros k' t' Qk'. apply M. now apply E.
Qed.

Lemma closestInv_init : Inv (fun _ => False) a0.
Proof.
  split.
  - intros _. split; [reflexivity|]. intros k t [].
  - rewrite a0_did. discriminate.
Qed.

(** The triangles [Q] cannot be hit before the current bound: they are
    dealt with. *)
Lemma closestInv_skip (P Q : Z -> Prop) (a : A) :
  Inv P a ->
  (forall k tri d, Q k -> positions !! Z.to_nat k = Some tri ->
                   hitTime ray tri = Some d -> fltb d (tm a) = false) ->
  Inv (fun k => P k \/ Q k) a.
Proof.
  intros [I1 I2] S. split.
  - intros D. destruct (I1 D) as [Ea N]. split; [exact Ea|].
    intros k t [Pk|Qk] Hk; [exact (N k t Pk Hk)|].
    destruct Hk as (_ & tri & Lk & Ht & _ & Hlt).
    pose proof (S k tri t Qk Lk Ht) as C. rewrite Ea, a0_tm in C. congruence.
  - intros D. destruct (I2 D) as (k & t & Pk & Hk & Et & W & M).
    exists k, t. split; [now left|].
    split; [exact Hk|]. split; [exact Et|]. split; [exact W|].
    intros k' t' [Pk'|Qk'] Hk'; [exact (M k' t' Pk' Hk')|].
    destruct Hk' as (_ & tri & Lk & Ht & _ & Hlt).
    pose proof (S k' tri t' Qk' Lk Ht) as C. now rewrite Et in C.
Qed.

(** What the loop over a leaf's triangles has to establish. *)
Hypothesis leaf_closest :
  forall (numTriangles : Z) (nd : BvhNode F) (a : A) (P : Z -> Prop),
    numTriangles = Z.of_nat (length positions) -> numTriangles <= u32_modulus ->
    0 < triangleCount nd < u32_modulus -> 0 <= trianglesOffset nd ->
    trianglesOffset nd + triangleCount nd <= numTriangles ->
    Inv P a ->
    exists a', leaf nd a = Done (Continue a')
               /\ Inv (fun k => P k \/ k ∈ seqZ (trianglesOffset nd) (triangleCount nd)) a'.

Lemma visit_closest (t : BvhTree F) :
  Z.of_nat (length positions) <= u32_modulus ->
  treeIn nodes (Z.of_nat (length positions)) t ->
  boxesBound positions ray t ->
  forall (a : A) (P : Z -> Prop),
    Inv P a ->
    exists a', visit (rayAabbIntersector ray) tm leaf t a = Done (Continue a')
               /\ Inv (fun k => P k \/ k ∈ leafTriangles t) a'.
Proof.
  intros HU. induction t as [i nd|i nd l IHl r IHr]; intros WF BB a P I.
  - destruct WF as (Hi & Hnd & Hcount & Hoff & Hrange).
    destruct BB as [BB _]. cbn [visit treeNode leafTriangles] in *.
    destruct (rayIntersectAabb _ _ _) eqn:T.
    + eapply leaf_closest; eauto.
    + exists a. split; [reflexivity|]. apply closestInv_skip; [exact I|].
      intros k tri d Qk Lk Ht. destruct (fltb d (tm a)) eqn:L; [|reflexivity].
      rewrite (BB k tri (tm a) d Qk Lk Ht L) in T. discriminate.
  - destruct WF as (Hi & Hnd & Hcount & Haxis & Hl & Hr & WFl & WFr).
    destruct BB as [BB [BBl BBr]]. cbn [visit treeNode leafTriangles] in *.
    destruct (rayIntersectAabb _ _ _) eqn:T.
    + destruct (vidx _ _ =? 1).
      * destruct (IHr WFr BBr a P I) as (a1 & E1 & I1).
        destruct (IHl WFl BBl a1 _ I1) as (a2 & E2 & I2).
        exists a2. split.
        -- unfold andThen. rewrite E1. cbn [obind]. exact E2.
        -- revert I2. apply closestInv_ext. intros k. rewrite elem_of_app. tauto.
      * destruct (IHl WFl BBl a P I) as (a1 & E1 & I1).
        destruct (IHr WFr BBr a1 _ I1) as (a2 & E2 & I2).
        exists a2. split.
        -- unfold andThen. rewrite E1. cbn [obind]. exact E2.
        -- revert I2. apply closestInv_ext. intros k. rewrite elem_of_app. tauto.
    + exists a. split; [reflexivity|]. apply closestInv_skip; [exact I|].
      intros k tri d Qk Lk Ht. destruct (fltb d (tm a)) eqn:L; [|reflexivity].
      rewrite (BB k tri (tm a) d Qk Lk Ht L) in T. discriminate.
Qed.

(** One triangle is tested against the current bound. *)
Lemma closestInv_accept (P : Z -> Prop) (a a' : A) (k : Z) (tri : Positions F) (d : F) :
  Inv P a -> 0 <= k -> positions !! Z.to_nat k = Some tri ->
  hitTime ray tri = Some d -> fltb d (tm a) = true ->
  did a' = true -> tm a' = d -> writtenFor a' k ->
  Inv (fun j => P j \/ j = k) a'.
Proof.
  intros [I1 I2] Hk0 Lk Ht Lt D' T' W'.
  assert (Hgt : fgtb d EPSILON = true) by (apply (hitTime_Some _ _ _ Ht)).
  assert (Hlt : fltb d rayTMax = true).
  { destruct (did a) eqn:D.
    - destruct (I2 eq_refl) as (k0 & t0 & _ & (_ & tri0 & _ & _ & _ & L0) & Et & _).
      rewrite Et in Lt. exact (fltb_trans _ _ _ Lt L0).
    - destruct (I1 eq_refl) as [Ea _]. now rewrite Ea, a0_tm in Lt. }
  split; [congruence|]. intros _.
  exists k, d. split; [now right|].
  split; [split; [exact Hk0|exists tri; auto]|]. split; [exact T'|]. split; [exact W'|].
  intros k' t' [Pk'| ->] Hk'.
  - destruct (did a) eqn:D.
    + destruct (I2 eq_refl) as (k0 & t0 & _ & _ & Et & _ & M).
      pose proof (M k' t' Pk' Hk') as N. rewrite Et in Lt.
      destruct (fltb t' d) eqn:C; [|reflexivity].
      rewrite (fltb_trans _ _ _ C Lt) in N. discriminate.
    + destruct (I1 eq_refl) as [_ N]. destruct (N k' t' Pk' Hk').
  - destruct Hk' as (_ & tri' & Lk' & Ht' & _). rewrite Lk in Lk'. inversion Lk'; subst tri'.
    rewrite Ht in Ht'. inversion Ht'; subst t'. apply fltb_irrefl.
Qed.

Lemma closestInv_reject (P : Z -> Prop) (a : A) (k : Z) (tri : Positions F) :
  Inv P a -> positions !! Z.to_nat k = Some tri ->
  (forall d, hitTime ray tri = Some d -> fltb d (tm a) = false) ->
  Inv (fun j => P j \/ j = k) a.
Proof.
  intros I Lk N. apply closestInv_skip; [exact I|].
  intros j tri' d -> Lj Ht. rewrite Lk in Lj. inversion Lj; subst tri'. now apply N.
Qed.

End ClosestFacts.


Lemma seqZ_cons_iff (P : Z -> Prop) (m : Z) (n : nat) (k : Z) :
  ((P k \/ k = m) \/ k ∈ seqZ (m + 1) (Z.of_nat n)) <->
  (P k \/ k ∈ seqZ m (Z.of_nat (S n))).
Proof. rewrite !elem_of_seqZ. intuition lia. Qed.

Lemma seqZ_nil_iff (P : Z -> Prop) (m : Z) (k : Z) :
  P k <-> (P k \/ k ∈ seqZ m (Z.of_nat 0)).
Proof. rewrite elem_of_seqZ. intuition lia. Qed.

Lemma lookup_in_range {A} (l : list A) (k : Z) :
  0 <= k < Z.of_nat (length l) -> exists x, l !! Z.to_nat k = Some x.
Proof.
  intros B. destruct (l !! Z.to_nat k) as [x|] eqn:E; [eauto|].
  apply lookup_ge_None in E. lia.
Qed.

Section DeferredClosest.
Context {F : Type} `{ScalarOrder F} `{MathLib F} `{Bits F}.
Variable g : Deferred.Bindings F.
Variable ray : Ray F.
Variable rayTMax : F.
Variable hit0 : Deferred.Intersection F.

Local Abbreviation positions := (Deferred.positionAttributes g).
Local Abbreviation a0 := (Deferred.mkBvhLocals false rayTMax hit0).
Local Abbreviation Inv :=
  (closestInv positions ray rayTMax Deferred.didIntersect Deferred.tmax
     (deferredWrittenFor g ray) a0).

Hypothesis parallel_arrays :
  length (Deferred.vertexAttributes g) = length (Deferred.positionAttributes g).
Hypothesis triangles_u32 : Z.of_nat (length positions) <= u32_modulus.

Lemma deferred_leafLoop (nd : BvhNode F) (n : nat) :
  forall (idx : Z) (a : Deferred.BvhLocals F) (P : Z -> Prop),
    0 <= trianglesOffset nd -> 0 <= idx ->
    idx + Z.of_nat n < u32_modulus ->
    trianglesOffset nd + idx + Z.of_nat n <= Z.of_nat (length positions) ->
    Inv P a ->
    exists a', Deferred.closestLeafLoop g ray nd n idx a = Done a'
               /\ Inv (fun k => P k \/ k ∈ seqZ (trianglesOffset nd + idx) (Z.of_nat n)) a'.
Proof.
  induction n as [|n IH]; intros idx a P Hoff Hidx Hcnt Hrange I.
  - exists a. split; [reflexivity|].
    revert I. apply closestInv_ext. intros k. apply seqZ_nil_iff.
  - cbn [Deferred.closestLeafLoop].
    set (k := trianglesOffset nd + idx).
    assert (Hk : u32_add (trianglesOffset nd) idx = k).
    { unfold u32_add. apply u32_small. unfold k. lia. }
    assert (Hidx1 : u32_add idx 1 = idx + 1).
    { unfold u32_add. apply u32_small. lia. }
    rewrite Hk, Hidx1.
    destruct (lookup_in_range positions k ltac:(unfold k; lia)) as [tri Ltri].
    destruct (lookup_in_range (Deferred.vertexAttributes g) k
                ltac:(rewrite parallel_arrays; unfold k; lia)) as [vert Lvert].
    rewrite (lookupZ_Some _ _ _ Ltri). cbn [obind].
    rewrite rayIntersectTriangle_hitTime.
    assert (Hnext : forall a1,
               Inv (fun j => P j \/ j = k) a1 ->
               exists a', Deferred.closestLeafLoop g ray nd n (idx + 1) a1 = Done a'
                          /\ Inv (fun j => P j \/ j ∈ seqZ k (Z.of_nat (S n))) a').
    { intros a1 I1.
      destruct (IH (idx + 1) a1 _ Hoff ltac:(lia) ltac:(lia) ltac:(lia) I1) as (a' & E & I').
      exists a'. split; [exact E|]. revert I'. apply closestInv_ext. intros j.
      replace (trianglesOffset nd + (idx + 1)) with (k + 1) by (unfold k; lia).
      apply seqZ_cons_iff. }
    destruct (hitTime ray tri) as [d|] eqn:Ht.
    + destruct (fltb d (Deferred.tmax a)) eqn:Lt.
      * rewrite (lookupZ_Some _ _ _ Lvert). cbn [obind]. apply Hnext.
        eapply closestInv_accept with (tri := tri) (d := d) (a := a);
          try eassumption; try reflexivity.
        -- unfold k. lia.
        -- exists tri, vert. auto.
      * apply Hnext.
        eapply closestInv_reject with (tri := tri); try eassumption; try reflexivity.
        intros d' E. congruence.
    + apply Hnext.
      eapply closestInv_reject with (tri := tri); try eassumption; try reflexivity.
      intros d' E. congruence.
Qed.

Lemma deferred_leaf_closest (numTriangles : Z) (nd : BvhNode F)
    (a : Deferred.BvhLocals F) (P : Z -> Prop) :
  numTriangles = Z.of_nat (length positions) -> numTriangles <= u32_modulus ->
  0 < triangleCount nd < u32_modulus -> 0 <= trianglesOffset nd ->
  trianglesOffset nd + triangleCount nd <= numTriangles ->
  Inv P a ->
  exists a', Deferred.closestLeaf g ray nd a = Done (Continue a')
             /\ Inv (fun k => P k \/ k ∈ seqZ (trianglesOffset nd) (triangleCount nd)) a'.
Proof.
  intros -> _ Hcount Hoff Hrange I. unfold Deferred.closestLeaf.
  destruct (deferred_leafLoop nd (Z.to_nat (triangleCount nd)) 0 a P Hoff ltac:(lia)
              ltac:(lia) ltac:(lia) I) as (a' & E & I').
  exists a'. rewrite E. split; [reflexivity|].
  revert I'. apply closestInv_ext. intros k.
  rewrite Z.add_0_r, Z2Nat.id by lia. reflexivity.
Qed.

Lemma deferred_closest (t : BvhTree F) (fuel : nat) :
  WellFormedBvh (Deferred.bvhNodes g) (Z.of_nat (length positions)) t ->
  boxesBound positions ray t ->
  (treeSize t <= fuel)%nat ->
  exists a',
    Deferred.rayIntersectBvh g fuel ray rayTMax hit0
    = Done (Deferred.didIntersect a', Deferred.hit a')
    /\ Inv (fun k => 0 <= k < Z.of_nat (length positions)) a'.
Proof.
  intros WF BB Hfuel. unfold Deferred.rayIntersectBvh.
  rewrite (traverseLoop_visit _ _ _ _ _ _ t _ fuel (wf_layout _ _ _ WF) Hfuel).
  destruct (visit_closest (Deferred.bvhNodes g) positions ray rayTMax
              Deferred.didIntersect Deferred.tmax (deferredWrittenFor g ray) a0
              (Deferred.closestLeaf g ray) eq_refl deferred_leaf_closest t
              triangles_u32 (layout_tree _ _ _ (wf_layout _ _ _ WF)) BB a0 (fun _ => False))
    as (a' & E & I).
  { apply closestInv_init; reflexivity. }
  exists a'. rewrite E. split; [reflexivity|].
  revert I. apply closestInv_ext. intros k. split.
  - intros [[]|Hk]. destruct WF as [[_ _ _ WFt _] _].
    clear -Hk WFt. induction t as [i nd|i nd l IHl r IHr].
    + destruct WFt as (_ & _ & Hc & Ho & Hr). cbn in Hk. apply elem_of_seqZ in Hk. lia.
    + destruct WFt as (_ & _ & _ & _ & _ & _ & WFl & WFr). cbn in Hk.
      apply elem_of_app in Hk as [Hk|Hk]; auto.
  - intros Hk. right. now apply (wf_cover _ _ _ WF).
Qed.

Lemma deferred_closest_hit (t : BvhTree F) (fuel : nat) :
  WellFormedBvh (Deferred.bvhNodes g) (Z.of_nat (length positions)) t ->
  boxesBound positions ray t ->
  (treeSize t <= fuel)%nat ->
  exists (did : bool) (hit : Deferred.Intersection F),
    Deferred.rayIntersectBvh g fuel ray rayTMax hit0 = Done (did, hit)
    /\ closestHitOf g ray rayTMax hit0 did hit.
Proof.
  intros WF BB Hfuel.
  destruct (deferred_closest t fuel WF BB Hfuel) as (a' & E & [I1 I2]).
  assert (Hin : forall k d, hitAt positions ray rayTMax k d ->
                            0 <= k < Z.of_nat (length positions)).
  { intros k d (Hk & tri & Lk & _). apply lookup_lt_Some in Lk. lia. }
  exists (Deferred.didIntersect a'), (Deferred.hit a'). split; [exact E|].
  split; [|split].
  - split.
    + intros D. destruct (I2 D) as (k & d & _ & Hk & _). eauto.
    + intros (k & d & Hk). destruct (Deferred.didIntersect a') eqn:D; [reflexivity|].
      destruct (I1 eq_refl) as [_ N]. destruct (N k d (Hin k d Hk) Hk).
  - intros D. destruct (I2 D) as (k & d & _ & Hk & Et & (tri & vert & Lt & Lv & Eh) & M).
    exists k, d, tri, vert. rewrite Et in Eh.
    repeat (split; [assumption|]). intros k' d' Hk'. exact (M k' d' (Hin k' d' Hk') Hk').
  - intros D. destruct (I1 D) as [-> _]. reflexivity.
Qed.

End DeferredClosest.


(** ** Both traversals run to completion within the stack *)

Section VisitTotal.
Context {F : Type} `{Scalar F} `{MathLib F}.
Context {A R : Type}.
Variable nodes : list (BvhNode F).
Variable numTriangles : Z.
Variable intersector : RayAabbIntersector F.
Variable limit : A -> F.
Variable leaf : BvhNode F -> A -> Outcome (Flow A R).

Hypothesis leaf_total :
  forall (nd : BvhNode F) (a : A),
    0 < triangleCount nd < u32_modulus -> 0 <= trianglesOffset nd ->
    trianglesOffset nd + triangleCount nd <= numTriangles ->
    exists fl, leaf nd a = Done fl.

Lemma visit_total (t : BvhTree F) :
  treeIn nodes numTriangles t ->
  forall a, exists fl, visit intersector limit leaf t a = Done fl.
Proof.
  induction t as [i nd|i nd l IHl r IHr]; intros WF a; cbn [visit].
  - destruct WF as (_ & _ & Hc & Ho & Hr).
    destruct (rayIntersectAabb _ _ _); [now apply leaf_total|eauto].
  - destruct WF as (_ & _ & _ & _ & _ & _ & WFl & WFr).
    destruct (rayIntersectAabb _ _ _); [|eauto].
    unfold andThen. destruct (vidx _ _ =? 1).
    + destruct (IHr WFr a) as [[a1|r1] E]; rewrite E; cbn [obind]; eauto.
    + destruct (IHl WFl a) as [[a1|r1] E]; rewrite E; cbn [obind]; eauto.
Qed.

Variable result : A -> R.

(** No iteration faults, the stack offset never leaves the stack and the
    stack keeps its size. *)
Lemma traverse_in_bounds (t : BvhTree F) (a : A) (j : nat) :
  BvhLayout nodes numTriangles t ->
  exists fl,
    traverseSteps nodes intersector limit leaf result j (traverseInit a) = Done fl
    /\ forall s', fl = Continue s' ->
         0 <= toVisitOffset s' <= Z.of_nat STACK_SIZE
         /\ length (nodesToVisit s') = STACK_SIZE.
Proof.
  intros WF. destruct (traverse_root nodes intersector limit leaf result numTriangles t a WF)
    as (n & Hn & Hrun & Hint).
  destruct (Nat.lt_ge_cases j n) as [Hlt|Hge].
  - destruct (Hint j Hlt) as (s' & Es & Bs). exists (Continue s'). split; [exact Es|].
    intros s'' E. inversion E; subst. split; [exact Bs|].
    rewrite (traverseSteps_length _ _ _ _ _ _ _ _ Es). apply length_replicate.
  - destruct (visit_total t (layout_tree _ _ _ WF) a) as [fl E]. rewrite E in Hrun.
    replace j with (n + (j - n))%nat by lia. rewrite traverseSteps_add, Hrun.
    destruct fl as [a'|r]; cbn [obind]; eexists; (split; [reflexivity|discriminate]).
Qed.

End VisitTotal.

Section DeferredTotal.
Context {F : Type} `{Scalar F} `{MathLib F} `{Bits F}.
Variable g : Deferred.Bindings F.
Variable ray : Ray F.

Hypothesis parallel_arrays :
  length (Deferred.vertexAttributes g) = length (Deferred.positionAttributes g).
Hypothesis triangles_u32 :
  Z.of_nat (length (Deferred.positionAttributes g)) <= u32_modulus.

Lemma closestLeafLoop_total (nd : BvhNode F) (n : nat) :
  forall (idx : Z) (a : Deferred.BvhLocals F),
    0 <= trianglesOffset nd -> 0 <= idx ->
    idx + Z.of_nat n < u32_modulus ->
    trianglesOffset nd + idx + Z.of_nat n
      <= Z.of_nat (length (Deferred.positionAttributes g)) ->
    exists a', Deferred.closestLeafLoop g ray nd n idx a = Done a'.
Proof.
  induction n as [|n IH]; intros idx a Hoff Hidx Hcnt Hrange; [eexists; reflexivity|].
  cbn [Deferred.closestLeafLoop].
  assert (Hk : u32_add (trianglesOffset nd) idx = trianglesOffset nd + idx).
  { unfold u32_add. apply u32_small. lia. }
  assert (Hidx1 : u32_add idx 1 = idx + 1).
  { unfold u32_add. apply u32_small. lia. }
  rewrite Hk, Hidx1.
  destruct (lookup_in_range (Deferred.positionAttributes g) (trianglesOffset nd + idx)
              ltac:(lia)) as [tri Ltri].
  destruct (lookup_in_range (Deferred.vertexAttributes g) (trianglesOffset nd + idx)
              ltac:(rewrite parallel_arrays; lia)) as [vert Lvert].
  rewrite (lookupZ_Some _ _ _ Ltri). cbn [obind].
  destruct (rayIntersectTriangle _ _ _).
  - rewrite (lookupZ_Some _ _ _ Lvert). cbn [obind]. apply IH; lia.
  - apply IH; lia.
Qed.

Lemma closestLeaf_total (nd : BvhNode F) (a : Deferred.BvhLocals F) :
  0 < triangleCount nd < u32_modulus -> 0 <= trianglesOffset nd ->
  trianglesOffset nd + triangleCount nd
    <= Z.of_nat (length (Deferred.positionAttributes g)) ->
  exists fl, Deferred.closestLeaf g ray nd a = Done fl.
Proof.
  intros Hc Ho Hr. unfold Deferred.closestLeaf.
  destruct (closestLeafLoop_total nd (Z.to_nat (triangleCount nd)) 0 a Ho ltac:(lia)
              ltac:(lia) ltac:(lia)) as [a' E].
  rewrite E. eexists. reflexivity.
Qed.

End DeferredTotal.

Section ShadowTotal.
Context {F : Type} `{Scalar F} `{MathLib F} `{Bits F}.
Variable g : Deferred.Bindings F.
Variable ray : Ray F.
Variable rayTMax : F.

Hypothesis triangles_u32 :
  Z.of_nat (length (Deferred.positionAttributes g)) <= u32_modulus.

Lemma shadowLeafLoop_total (nd : BvhNode F) (n : nat) :
  forall (idx : Z),
    0 <= trianglesOffset nd -> 0 <= idx ->
    idx + Z.of_nat n < u32_modulus ->
    trianglesOffset nd + idx + Z.of_nat n
      <= Z.of_nat (length (Deferred.positionAttributes g)) ->
    Deferred.shadowLeafLoop g ray rayTMax nd n idx = Done (Continue tt)
    \/ Deferred.shadowLeafLoop g ray rayTMax nd n idx = Done (Break f0).
Proof.
  induction n as [|n IH]; intros idx Hoff Hidx Hcnt Hrange; [now left|].
  cbn [Deferred.shadowLeafLoop].
  assert (Hk : u32_add (trianglesOffset nd) idx = trianglesOffset nd + idx).
  { unfold u32_add. apply u32_small. lia. }
  assert (Hidx1 : u32_add idx 1 = idx + 1).
  { unfold u32_add. apply u32_small. lia. }
  rewrite Hk, Hidx1.
  destruct (lookup_in_range (Deferred.positionAttributes g) (trianglesOffset nd + idx)
              ltac:(lia)) as [tri Ltri].
  rewrite (lookupZ_Some _ _ _ Ltri). cbn [obind].
  destruct (rayIntersectTriangle _ _ _); [now right|]. apply IH; lia.
Qed.

Lemma shadowLeaf_total (nd : BvhNode F) (u : unit) :
  0 < triangleCount nd < u32_modulus -> 0 <= trianglesOffset nd ->
  trianglesOffset nd + triangleCount nd
    <= Z.of_nat (length (Deferred.positionAttributes g)) ->
  exists fl, Deferred.shadowLeaf g ray rayTMax nd u = Done fl.
Proof.
  intros Hc Ho Hr. unfold Deferred.shadowLeaf.
  destruct (shadowLeafLoop_total nd (Z.to_nat (triangleCount nd)) 0 Ho ltac:(lia)
              ltac:(lia) ltac:(lia)) as [E|E]; rewrite E; eauto.
Qed.

End ShadowTotal.


(** ** Closest hit implies any hit *)

Section AnyHit.
Context {F : Type} `{ScalarOrder F} `{MathLib F} `{Bits F}.
Variable g : Deferred.Bindings F.
Variable ray : Ray F.
Variable rayTMax : F.

Hypothesis triangles_u32 :
  Z.of_nat (length (Deferred.positionAttributes g)) <= u32_modulus.

Local Abbreviation visitC :=
  (visit (R := bool * Deferred.Intersection F)
         (rayAabbIntersector ray) Deferred.tmax (Deferred.closestLeaf g ray)).
Local Abbreviation visitS :=
  (visit (rayAabbIntersector ray) (fun _ : unit => rayTMax)
         (Deferred.shadowLeaf g ray rayTMax)).

(** The bound of the closest-hit query never exceeds [rayTMax]. *)
Local Abbreviation bounded a :=
  (Deferred.tmax a = rayTMax \/ fltb (Deferred.tmax a) rayTMax = true).

Lemma rayIntersectAabb_mono (box : Aabb F) (tm : F) :
  rayIntersectAabb (rayAabbIntersector ray) box tm = true ->
  tm = rayTMax \/ fltb tm rayTMax = true ->
  rayIntersectAabb (rayAabbIntersector ray) box rayTMax = true.
Proof.
  unfold rayIntersectAabb. destruct (slabInterval _ _) as [[tmin tmax]|]; [|discriminate].
  intros T [->|L]; [exact T|].
  apply andb_true_iff in T as [T1 T2]. rewrite T2, andb_true_r.
  exact (fltb_trans _ _ _ T1 L).
Qed.

Lemma leaf_any_hit (nd : BvhNode F) (n : nat) :
  forall (idx : Z) (a a' : Deferred.BvhLocals F),
    bounded a ->
    Deferred.closestLeafLoop g ray nd n idx a = Done a' ->
    bounded a'
    /\ (Deferred.didIntersect a = true -> Deferred.didIntersect a' = true)
    /\ (Deferred.shadowLeafLoop g ray rayTMax nd n idx = Done (Break f0)
        \/ (Deferred.shadowLeafLoop g ray rayTMax nd n idx = Done (Continue tt)
            /\ Deferred.didIntersect a' = Deferred.didIntersect a)).
Proof.
  induction n as [|n IH]; intros idx a a' B E.
  - inversion E; subst. split; [exact B|]. split; [auto|]. right. split; reflexivity.
  - cbn [Deferred.closestLeafLoop Deferred.shadowLeafLoop] in *.
    destruct (lookupZ (Deferred.positionAttributes g) _) as [tri| |]; try discriminate.
    cbn [obind] in *.
    rewrite rayIntersectTriangle_hitTime in E. rewrite rayIntersectTriangle_hitTime.
    destruct (hitTime ray tri) as [d|] eqn:Ht.
    + destruct (fltb d (Deferred.tmax a)) eqn:Lt.
      * destruct (lookupZ (Deferred.vertexAttributes g) _) as [vert| |]; try discriminate.
        cbn [obind] in E.
        assert (Ld : fltb d rayTMax = true).
        { destruct B as [Eb|Lb]; [now rewrite <- Eb|exact (fltb_trans _ _ _ Lt Lb)]. }
        rewrite Ld.
        apply IH in E; [|right; exact Ld]. destruct E as (B' & D' & _).
        split; [exact B'|]. split; [intros _; now apply D'|]. now left.
      * destruct (IH _ _ _ B E) as (B' & D' & S'). split; [exact B'|]. split; [exact D'|].
        destruct (fltb d rayTMax); [now left|exact S'].
    + destruct (IH _ _ _ B E) as (B' & D' & S'). auto.
Qed.

Lemma shadow_visit_cases (t : BvhTree F) :
  treeIn (Deferred.bvhNodes g) (Z.of_nat (length (Deferred.positionAttributes g))) t ->
  visitS t tt = Done (Continue tt) \/ visitS t tt = Done (Break f0).
Proof.
  induction t as [i nd|i nd l IHl r IHr]; intros WF; cbn [visit].
  - destruct WF as (_ & _ & Hc & Ho & Hr).
    destruct (rayIntersectAabb _ _ _); [|now left].
    unfold Deferred.shadowLeaf.
    apply (shadowLeafLoop_total g ray rayTMax triangles_u32); lia.
  - destruct WF as (_ & _ & _ & _ & _ & _ & WFl & WFr).
    destruct (rayIntersectAabb _ _ _); [|now left].
    unfold andThen.
    destruct (vidx _ _ =? 1).
    + destruct (IHr WFr) as [E|E]; rewrite E; cbn [obind]; auto.
    + destruct (IHl WFl) as [E|E]; rewrite E; cbn [obind]; auto.
Qed.

Lemma visit_any_hit (t : BvhTree F) :
  treeIn (Deferred.bvhNodes g) (Z.of_nat (length (Deferred.positionAttributes g))) t ->
  forall (a a' : Deferred.BvhLocals F),
    bounded a ->
    visitC t a = Done (Continue a') ->
    bounded a'
    /\ (Deferred.didIntersect a = true -> Deferred.didIntersect a' = true)
    /\ (visitS t tt = Done (Break f0)
        \/ (visitS t tt = Done (Continue tt)
            /\ Deferred.didIntersect a' = Deferred.didIntersect a)).
Proof.
  induction t as [i nd|i nd l IHl r IHr]; intros WF a a' B E.
  - pose proof (shadow_visit_cases _ WF) as SC.
    cbn [visit] in *.
    destruct (rayIntersectAabb _ (aabb nd) (Deferred.tmax a)) eqn:T.
    + rewrite (rayIntersectAabb_mono _ _ T B).
      unfold Deferred.closestLeaf in E. unfold Deferred.shadowLeaf.
      destruct (Deferred.closestLeafLoop g ray nd _ 0 a) as [a1| |] eqn:EL; try discriminate.
      cbn [obind] in E. inversion E; subst a1.
      exact (leaf_any_hit nd _ 0 a a' B EL).
    + inversion E; subst a'. split; [exact B|]. split; [auto|].
      destruct SC as [S|S]; auto.
  - pose proof (shadow_visit_cases _ WF) as SC.
    destruct WF as (_ & _ & _ & _ & _ & _ & WFl & WFr).
    cbn [visit] in *.
    destruct (rayIntersectAabb _ (aabb nd) (Deferred.tmax a)) eqn:T.
    + rewrite (rayIntersectAabb_mono _ _ T B). unfold andThen in *.
      destruct (vidx _ _ =? 1).
      * destruct (visitC r a) as [[a1|r1]| |] eqn:E1; try discriminate.
        cbn [obind] in E.
        destruct (IHr WFr a a1 B E1) as (B1 & D1 & S1).
        destruct (IHl WFl a1 a' B1 E) as (B2 & D2 & S2).
        split; [exact B2|]. split; [auto|].
        destruct S1 as [S1|[S1 Ed1]]; rewrite S1; cbn [obind]; [now left|].
        destruct S2 as [S2|[S2 Ed2]]; [now left|]. right. split; [exact S2|congruence].
      * destruct (visitC l a) as [[a1|r1]| |] eqn:E1; try discriminate.
        cbn [obind] in E.
        destruct (IHl WFl a a1 B E1) as (B1 & D1 & S1).
        destruct (IHr WFr a1 a' B1 E) as (B2 & D2 & S2).
        split; [exact B2|]. split; [auto|].
        destruct S1 as [S1|[S1 Ed1]]; rewrite S1; cbn [obind]; [now left|].
        destruct S2 as [S2|[S2 Ed2]]; [now left|]. right. split; [exact S2|congruence].
    + inversion E; subst a'. split; [exact B|]. split; [auto|].
      destruct SC as [S|S]; auto.
Qed.

Lemma closest_visit_no_break (t : BvhTree F) (a : Deferred.BvhLocals F)
    (r : bool * Deferred.Intersection F) :
  visitC t a <> Done (Break r).
Proof.
  revert a r. induction t as [i nd|i nd l IHl rt IHr]; intros a r; cbn [visit].
  - destruct (rayIntersectAabb _ _ _); [|discriminate].
    unfold Deferred.closestLeaf.
    destruct (Deferred.closestLeafLoop _ _ _ _ _ _); discriminate.
  - destruct (rayIntersectAabb _ _ _); [|discriminate].
    unfold andThen. destruct (vidx _ _ =? 1).
    + destruct (visitC rt a) as [[a1|r1]| |] eqn:E1; cbn [obind]; try discriminate.
      * apply IHl.
      * intros _. exact (IHr a r1 E1).
    + destruct (visitC l a) as [[a1|r1]| |] eqn:E1; cbn [obind]; try discriminate.
      * apply IHr.
      * intros _. exact (IHl a r1 E1).
Qed.

End AnyHit.


(** ** Boxes that bound their triangles, checked on the slab intervals *)

Section BoundCheck.
Context {F : Type} `{ScalarOrder F} `{MathLib F}.

Lemma boxBoundsHit_sound (ray : Ray F) (box : Aabb F) (tri : Positions F) (tm d : F) :
  boxBoundsHit ray box tri = true ->
  hitTime ray tri = Some d -> fltb d tm = true ->
  rayIntersectAabb (rayAabbIntersector ray) box tm = true.
Proof.
  unfold boxBoundsHit, rayIntersectAabb. intros C Ht Lt. rewrite Ht in C.
  destruct (slabInterval _ _) as [[tmin tmax]|]; [|discriminate].
  apply andb_true_iff in C as [C1 C2]. rewrite C2, andb_true_r.
  exact (fleb_fltb_trans _ _ _ C1 Lt).
Qed.

Lemma boxesBoundCheck_sound (positions : list (Positions F)) (ray : Ray F) (t : BvhTree F) :
  boxesBoundCheck positions ray t = true -> boxesBound positions ray t.
Proof.
  assert (Hall : forall box ks, boxBoundsAll positions ray box ks = true ->
            forall k tri tm d, k ∈ ks -> positions !! Z.to_nat k = Some tri ->
              hitTime ray tri = Some d -> fltb d tm = true ->
              rayIntersectAabb (rayAabbIntersector ray) box tm = true).
  { intros box ks C k tri tm d Hk Lk Ht Lt. unfold boxBoundsAll in C.
    rewrite forallb_forall in C. apply list_elem_of_In in Hk.
    specialize (C k Hk). rewrite Lk in C. exact (boxBoundsHit_sound _ _ _ _ _ C Ht Lt). }
  induction t as [i nd|i nd l IHl r IHr]; cbn [boxesBoundCheck boxesBound]; intros C.
  - apply andb_true_iff in C as [C _]. split; [exact (Hall _ _ C)|exact I].
  - apply andb_true_iff in C as [C C']. apply andb_true_iff in C' as [Cl Cr].
    split; [exact (Hall _ _ C)|]. split; auto.
Qed.

End BoundCheck.

(** ** Boxes that contain their triangles, in exact arithmetic *)

Local Open Scope Q_scope.

Section ExactBounds.
Context {ML : MathLib Q}.

(** A point with weights [(1 - u - v, u, v)] lies between the smallest and
    the largest of the three coordinates. *)
Lemma convex_lower (lo x0 x1 x2 u v : Q) :
  lo <= x0 -> lo <= x1 -> lo <= x2 -> 0 <= u -> 0 <= v -> u + v <= 1 ->
  lo <= x0 + u * (x1 - x0) + v * (x2 - x0).
Proof.
  intros H0 H1 H2 Hu Hv Huv.
  assert (E : x0 + u * (x1 - x0) + v * (x2 - x0) - lo
              == (1 - (u + v)) * (x0 - lo) + u * (x1 - lo) + v * (x2 - lo)) by ring.
  assert (A : 0 <= (1 - (u + v)) * (x0 - lo)) by (apply Qmult_le_0_compat; lra).
  assert (B : 0 <= u * (x1 - lo)) by (apply Qmult_le_0_compat; lra).
  assert (C : 0 <= v * (x2 - lo)) by (apply Qmult_le_0_compat; lra).
  lra.
Qed.

Lemma convex_upper (hi x0 x1 x2 u v : Q) :
  x0 <= hi -> x1 <= hi -> x2 <= hi -> 0 <= u -> 0 <= v -> u + v <= 1 ->
  x0 + u * (x1 - x0) + v * (x2 - x0) <= hi.
Proof.
  intros H0 H1 H2 Hu Hv Huv.
  assert (E : hi - (x0 + u * (x1 - x0) + v * (x2 - x0))
              == (1 - (u + v)) * (hi - x0) + u * (hi - x1) + v * (hi - x2)) by ring.
  assert (A : 0 <= (1 - (u + v)) * (hi - x0)) by (apply Qmult_le_0_compat; lra).
  assert (B : 0 <= u * (hi - x1)) by (apply Qmult_le_0_compat; lra).
  assert (C : 0 <= v * (hi - x2)) by (apply Qmult_le_0_compat; lra).
  lra.
Qed.

(** Where the ray is at the parameter the triangle test computes. *)
Lemma hit_point (ray : Ray Q) (tri : Positions Q) :
  ~ mt_det ray tri == 0 ->
  vec3_Qeq (Raytracer.rayPointAtParameter ray (mt_t ray tri)) (mt_p ray tri).
Proof.
  destruct tri as [[ax ay az] [bx by_ bz] [cx cy cz]], ray as [[ox oy oz] [dx dy dz]].
  unfold vec3_Qeq, Raytracer.rayPointAtParameter, mt_p, mt_t, mt_v, mt_u, mt_q, mt_invDet,
    mt_det, mt_h, mt_s, mt_e1, mt_e2.
  unfold dot, cross, vsub, vadd, vscale, f1. simpl.
  intros D. repeat split; field; exact D.
Qed.

(** One slab: the ray is inside at parameter [d], so [d] lies between the
    parameters at which it enters and leaves the slab. *)
Lemma axis_slab (lo hi o dx d : Q) :
  ~ dx == 0 -> lo <= o + d * dx -> o + d * dx <= hi ->
  let inv := fdiv f1 dx in
  let dn := select 0%Z 1%Z (fltb inv f0) in
  (fmul (fsub (if (dn =? 0)%Z then lo else hi) o) inv <= d
   /\ d <= fmul (fsub (if (1 - dn =? 0)%Z then lo else hi) o) inv).
Proof.
  intros Hdx Hlo Hhi inv dn.
  assert (Hinv : inv * dx == 1) by (unfold inv, f1; simpl; field; exact Hdx).
  assert (El : forall b, (b - o) * inv - d == (b - (o + d * dx)) * inv).
  { intros b. rewrite <- (Qmult_1_r d) at 1. rewrite <- Hinv. ring. }
  subst dn. unfold select, f0. simpl fmul. simpl fsub. simpl fltb. simpl fconst.
  destruct (QS.ltb inv 0) eqn:Hs.
  - apply Qltb_lt in Hs. simpl.
    split.
    + assert (A : 0 <= (hi - (o + d * dx)) * (- inv)) by (apply Qmult_le_0_compat; lra).
      specialize (El hi). lra.
    + assert (A : 0 <= ((o + d * dx) - lo) * (- inv)) by (apply Qmult_le_0_compat; lra).
      specialize (El lo). lra.
  - apply Qltb_ge in Hs. simpl.
    split.
    + assert (A : 0 <= ((o + d * dx) - lo) * inv) by (apply Qmult_le_0_compat; lra).
      specialize (El lo). lra.
    + assert (A : 0 <= (hi - (o + d * dx)) * inv) by (apply Qmult_le_0_compat; lra).
      specialize (El hi). lra.
Qed.

Lemma QS_max_le (a b d : Q) : a <= d -> b <= d -> QS.max a b <= d.
Proof. intros A B. unfold QS.max. destruct (QS.ltb a b); assumption. Qed.

Lemma QS_min_ge (a b d : Q) : d <= a -> d <= b -> d <= QS.min a b.
Proof. intros A B. unfold QS.min. destruct (QS.ltb b a); assumption. Qed.

(** If [d] lies in all three slab intervals, no early exit is taken and
    [d] lies in the interval computed. *)
Lemma slabInterval_contains (it : RayAabbIntersector Q) (box : Aabb Q) (d : Q) :
  (vx (bounds box (vx (dirNeg it))) - vx (ri_origin it)) * vx (invDir it) <= d ->
  d <= (vx (bounds box (1 - vx (dirNeg it))) - vx (ri_origin it)) * vx (invDir it) ->
  (vy (bounds box (vy (dirNeg it))) - vy (ri_origin it)) * vy (invDir it) <= d ->
  d <= (vy (bounds box (1 - vy (dirNeg it))) - vy (ri_origin it)) * vy (invDir it) ->
  (vz (bounds box (vz (dirNeg it))) - vz (ri_origin it)) * vz (invDir it) <= d ->
  d <= (vz (bounds box (1 - vz (dirNeg it))) - vz (ri_origin it)) * vz (invDir it) ->
  exists tmin tmax,
    slabInterval it box = Some (tmin, tmax) /\ tmin <= d /\ d <= tmax.
Proof.
  intros X0 X1 Y0 Y1 Z0 Z1. unfold slabInterval, fgtb. simpl fmul. simpl fsub.
  simpl fltb. simpl fmax. simpl fmin.
  set (tx0 := (vx (bounds box (vx (dirNeg it))) - vx (ri_origin it)) * vx (invDir it)) in *.
  set (tx1 := (vx (bounds box (1 - vx (dirNeg it))) - vx (ri_origin it)) * vx (invDir it)) in *.
  set (ty0 := (vy (bounds box (vy (dirNeg it))) - vy (ri_origin it)) * vy (invDir it)) in *.
  set (ty1 := (vy (bounds box (1 - vy (dirNeg it))) - vy (ri_origin it)) * vy (invDir it)) in *.
  set (tz0 := (vz (bounds box (vz (dirNeg it))) - vz (ri_origin it)) * vz (invDir it)) in *.
  set (tz1 := (vz (bounds box (1 - vz (dirNeg it))) - vz (ri_origin it)) * vz (invDir it)) in *.
  assert (M0 : QS.max ty0 tx0 <= d) by now apply QS_max_le.
  assert (M1 : d <= QS.min ty1 tx1) by now apply QS_min_ge.
  assert (E1 : QS.ltb ty1 tx0 = false) by (apply Qltb_ge; lra).
  assert (E2 : QS.ltb tx1 ty0 = false) by (apply Qltb_ge; lra).
  assert (E3 : QS.ltb tz1 (QS.max ty0 tx0) = false) by (apply Qltb_ge; lra).
  assert (E4 : QS.ltb (QS.min ty1 tx1) tz0 = false) by (apply Qltb_ge; lra).
  rewrite E1, E2. cbn [orb]. rewrite E3, E4. cbn [orb].
  eexists. eexists. split; [reflexivity|]. split.
  - now apply QS_max_le.
  - now apply QS_min_ge.
Qed.

Lemma bounds_coord (proj : vec3 Q -> Q) (box : Aabb Q) (i : Z) :
  proj (bounds box i) = if (i =? 0)%Z then proj (aabb_min box) else proj (aabb_max box).
Proof. unfold bounds. now destruct (i =? 0)%Z. Qed.

Lemma Qneb_neq (a b : Q) : QS.neb a b = true -> ~ a == b.
Proof.
  unfold QS.neb. intros N E. apply Qeq_bool_iff in E. rewrite E in N. discriminate.
Qed.

(** A box that contains the triangle passes the test of every oblique ray
    that meets the triangle before the bound. *)
Lemma triangleInBox_bound (ray : Ray Q) (box : Aabb Q) (tri : Positions Q) (d tm : Q) :
  obliqueRay ray -> triangleInBox box tri ->
  hitTime ray tri = Some d -> fltb d tm = true ->
  rayIntersectAabb (rayAabbIntersector ray) box tm = true.
Proof.
  intros (Nx & Ny & Nz) (B0 & B1 & B2) Hd Htm.
  destruct (hitTime_Some _ _ _ Hd) as (Et & Hgt & Cdet & Cu0 & Cu1 & Cv0 & Cuv).
  pose proof (parallel_test_nonzero _ Cdet) as D.
  destruct (hit_point ray tri D) as (Px & Py & Pz).
  rewrite <- Et in Px, Py, Pz.
  apply Qltb_ge in Cu0, Cv0, Cuv. unfold f0 in Cu0, Cv0. simpl in Cu0, Cv0, Cuv.
  unfold f1 in Cuv. simpl in Cuv.
  apply Qneb_neq in Nx, Ny, Nz. unfold f0 in Nx, Ny, Nz. simpl in Nx, Ny, Nz.
  destruct B0 as ((B0x & B0x') & (B0y & B0y') & (B0z & B0z')).
  destruct B1 as ((B1x & B1x') & (B1y & B1y') & (B1z & B1z')).
  destruct B2 as ((B2x & B2x') & (B2y & B2y') & (B2z & B2z')).
  simpl in B0x, B0x', B0y, B0y', B0z, B0z', B1x, B1x', B1y, B1y', B1z, B1z',
    B2x, B2x', B2y, B2y', B2z, B2z'.
  apply Qle_bool_iff in B0x, B0x', B0y, B0y', B0z, B0z', B1x, B1x', B1y, B1y', B1z, B1z',
    B2x, B2x', B2y, B2y', B2z, B2z'.
  unfold Raytracer.rayPointAtParameter, mt_p, vadd, vscale, mt_e1, mt_e2, vsub in Px, Py, Pz.
  cbn [vx vy vz] in Px, Py, Pz. simpl fadd in Px, Py, Pz. simpl fmul in Px, Py, Pz.
  simpl fsub in Px, Py, Pz.
  pose proof (convex_lower _ _ _ _ _ _ B0x B1x B2x Cu0 Cv0 Cuv) as Lx.
  pose proof (convex_upper _ _ _ _ _ _ B0x' B1x' B2x' Cu0 Cv0 Cuv) as Ux.
  pose proof (convex_lower _ _ _ _ _ _ B0y B1y B2y Cu0 Cv0 Cuv) as Ly.
  pose proof (convex_upper _ _ _ _ _ _ B0y' B1y' B2y' Cu0 Cv0 Cuv) as Uy.
  pose proof (convex_lower _ _ _ _ _ _ B0z B1z B2z Cu0 Cv0 Cuv) as Lz.
  pose proof (convex_upper _ _ _ _ _ _ B0z' B1z' B2z' Cu0 Cv0 Cuv) as Uz.
  rewrite <- Px in Lx, Ux. rewrite <- Py in Ly, Uy. rewrite <- Pz in Lz, Uz.
  destruct (axis_slab _ _ _ _ _ Nx Lx Ux) as (X0 & X1).
  destruct (axis_slab _ _ _ _ _ Ny Ly Uy) as (Y0 & Y1).
  destruct (axis_slab _ _ _ _ _ Nz Lz Uz) as (Z0 & Z1).
  destruct (slabInterval_contains (rayAabbIntersector ray) box d) as (tmin & tmax & E & L & U).
  - rewrite (bounds_coord vx). exact X0.
  - rewrite (bounds_coord vx). exact X1.
  - rewrite (bounds_coord vy). exact Y0.
  - rewrite (bounds_coord vy). exact Y1.
  - rewrite (bounds_coord vz). exact Z0.
  - rewrite (bounds_coord vz). exact Z1.
  - unfold rayIntersectAabb. rewrite E.
    apply Qltb_lt in Htm. unfold fgtb in Hgt. apply Qltb_lt in Hgt.
    unfold EPSILON in Hgt. simpl in Hgt.
    apply andb_true_iff. split; [|unfold fgtb]; apply Qltb_lt.
    + lra.
    + unfold f0. simpl. lra.
Qed.

End ExactBounds.

Lemma boxesContain_boxesBound {ML : MathLib Q} (positions : list (Positions Q)) (ray : Ray Q)
    (t : BvhTree Q) :
  obliqueRay ray -> boxesContain positions t -> boxesBound positions ray t.
Proof.
  intros Hray. induction t as [i nd|i nd l IHl r IHr]; intros [Hbox Hsub]; split.
  - intros k tri tm d Hk Lk Hd Htm.
    exact (triangleInBox_bound ray _ tri d tm Hray (Hbox k tri Hk Lk) Hd Htm).
  - exact I.
  - intros k tri tm d Hk Lk Hd Htm.
    exact (triangleInBox_bound ray _ tri d tm Hray (Hbox k tri Hk Lk) Hd Htm).
  - destruct Hsub as [Hl Hr]. split; [exact (IHl Hl)|exact (IHr Hr)].
Qed.

(** In exact arithmetic, for a ray none of whose direction components is
    zero, boxes that contain the triangles below them are all the
    closest-hit query needs. *)
Corollary exact_closest_hit
    {ML : MathLib Q} {BT : Bits Q} (g : Deferred.Bindings Q) (ray : Ray Q) (rayTMax : Q)
    (hit0 : Deferred.Intersection Q) (t : BvhTree Q) (fuel : nat) :
  WellFormedBvh (Deferred.bvhNodes g)
    (Z.of_nat (length (Deferred.positionAttributes g))) t ->
  length (Deferred.vertexAttributes g) = length (Deferred.positionAttributes g) ->
  boxesContain (Deferred.positionAttributes g) t ->
  obliqueRay ray ->
  (treeSize t <= fuel)%nat ->
  exists (did : bool) (hit : Deferred.Intersection Q),
    Deferred.rayIntersectBvh g fuel ray rayTMax hit0 = Done (did, hit)
    /\ closestHitOf g ray rayTMax hit0 did hit.
Proof.
  intros WF PA BC Hray Hfuel.
  apply (deferred_closest_hit g ray rayTMax hit0 PA
           (layout_triangles_u32 _ _ _ (wf_layout _ _ _ WF)) t fuel WF); [|exact Hfuel].
  now apply boxesContain_boxesBound.
Qed.

Local Close Scope Q_scope.

Lemma scene_layout :
  BvhLayout (Deferred.bvhNodes scene)
    (Z.of_nat (length (Deferred.positionAttributes scene))) scene_tree.
Proof.
  constructor.
  - vm_compute. discriminate.
  - vm_compute. discriminate.
  - reflexivity.
  - cbn. unfold u32_modulus. repeat split; try reflexivity; try lia.
  - cbn. unfold STACK_SIZE. lia.
Qed.

Lemma scene_well_formed :
  WellFormedBvh (Deferred.bvhNodes scene)
    (Z.of_nat (length (Deferred.positionAttributes scene))) scene_tree.
Proof.
  constructor; [exact scene_layout|].
  intros k Hk. cbn in Hk.
  change (leafTriangles scene_tree) with (seqZ 0 1 ++ seqZ 1 1).
  rewrite elem_of_app, !elem_of_seqZ. lia.
Qed.

(** ** The raytracer shader's closest hit *)

Section RaytracerClosest.
Context {F : Type} `{ScalarOrder F} `{MathLib F}.
Variable nodes : list (BvhNode F).
Variable triangles : list (Positions F).
Variable ray : Ray F.
Variable rayTMax : F.
Variable hit0 : Raytracer.Intersection F.

Local Abbreviation a0 := (RaytracerBvh.mkBvhLocals false rayTMax hit0).
Local Abbreviation Inv :=
  (closestInv triangles ray rayTMax RaytracerBvh.didIntersect RaytracerBvh.tmax
     (raytracerWrittenFor triangles ray) a0).

Hypothesis triangles_u32 : Z.of_nat (length triangles) <= u32_modulus.

Lemma raytracer_leafLoop (nd : BvhNode F) (n : nat) :
  forall (idx : Z) (a : RaytracerBvh.BvhLocals F) (P : Z -> Prop),
    0 <= trianglesOffset nd -> 0 <= idx ->
    idx + Z.of_nat n < u32_modulus ->
    trianglesOffset nd + idx + Z.of_nat n <= Z.of_nat (length triangles) ->
    Inv P a ->
    exists a', RaytracerBvh.leafLoop triangles ray nd n idx a = Done a'
               /\ Inv (fun k => P k \/ k ∈ seqZ (trianglesOffset nd + idx) (Z.of_nat n)) a'.
Proof.
  induction n as [|n IH]; intros idx a P Hoff Hidx Hcnt Hrange I.
  - exists a. split; [reflexivity|].
    revert I. apply closestInv_ext. intros k. apply seqZ_nil_iff.
  - cbn [RaytracerBvh.leafLoop].
    set (k := trianglesOffset nd + idx).
    assert (Hk : u32_add (trianglesOffset nd) idx = k).
    { unfold u32_add. apply u32_small. unfold k. lia. }
    assert (Hidx1 : u32_add idx 1 = idx + 1).
    { unfold u32_add. apply u32_small. lia. }
    rewrite Hk, Hidx1.
    destruct (lookup_in_range triangles k ltac:(unfold k; lia)) as [tri Ltri].
    rewrite (lookupZ_Some _ _ _ Ltri). cbn [obind].
    rewrite raytracer_rayIntersectTriangle_hitTime.
    assert (Hnext : forall a1,
               Inv (fun j => P j \/ j = k) a1 ->
               exists a', RaytracerBvh.leafLoop triangles ray nd n (idx + 1) a1 = Done a'
                          /\ Inv (fun j => P j \/ j ∈ seqZ k (Z.of_nat (S n))) a').
    { intros a1 I1.
      destruct (IH (idx + 1) a1 _ Hoff ltac:(lia) ltac:(lia) ltac:(lia) I1) as (a' & E & I').
      exists a'. split; [exact E|]. revert I'. apply closestInv_ext. intros j.
      replace (trianglesOffset nd + (idx + 1)) with (k + 1) by (unfold k; lia).
      apply seqZ_cons_iff. }
    destruct (hitTime ray tri) as [d|] eqn:Ht.
    + destruct (fltb d (RaytracerBvh.tmax a)) eqn:Lt.
      * apply Hnext.
        eapply closestInv_accept with (tri := tri) (d := d) (a := a);
          try eassumption; try reflexivity.
        -- unfold k. lia.
        -- exists tri. auto.
      * apply Hnext.
        eapply closestInv_reject with (tri := tri); try eassumption; try reflexivity.
        intros d' E. congruence.
    + apply Hnext.
      eapply closestInv_reject with (tri := tri); try eassumption; try reflexivity.
      intros d' E. congruence.
Qed.

Lemma raytracer_leaf_closest (numTriangles : Z) (nd : BvhNode F)
    (a : RaytracerBvh.BvhLocals F) (P : Z -> Prop) :
  numTriangles = Z.of_nat (length triangles) -> numTriangles <= u32_modulus ->
  0 < triangleCount nd < u32_modulus -> 0 <= trianglesOffset nd ->
  trianglesOffset nd + triangleCount nd <= numTriangles ->
  Inv P a ->
  exists a', RaytracerBvh.leaf triangles ray nd a = Done (Continue a')
             /\ Inv (fun k => P k \/ k ∈ seqZ (trianglesOffset nd) (triangleCount nd)) a'.
Proof.
  intros -> _ Hcount Hoff Hrange I. unfold RaytracerBvh.leaf.
  destruct (raytracer_leafLoop nd (Z.to_nat (triangleCount nd)) 0 a P Hoff ltac:(lia)
              ltac:(lia) ltac:(lia) I) as (a' & E & I').
  exists a'. rewrite E. split; [reflexivity|].
  revert I'. apply closestInv_ext. intros k.
  rewrite Z.add_0_r, Z2Nat.id by lia. reflexivity.
Qed.

(** The raytracer shader's [rayIntersectBvh] finds the closest hit as
    well. *)
Lemma raytracer_closest_hit (t : BvhTree F) (fuel : nat) :
  WellFormedBvh nodes (Z.of_nat (length triangles)) t ->
  boxesBound triangles ray t ->
  (treeSize t <= fuel)%nat ->
  exists (did : bool) (hit : Raytracer.Intersection F),
    RaytracerBvh.rayIntersectBvh nodes triangles fuel ray rayTMax hit0 = Done (did, hit)
    /\ (did = true <-> exists k d, hitAt triangles ray rayTMax k d)
    /\ (did = true ->
        exists k d tri,
          hitAt triangles ray rayTMax k d
          /\ triangles !! Z.to_nat k = Some tri
          /\ hit = intersectionAt ray tri d
          /\ forall k' d', hitAt triangles ray rayTMax k' d' -> fltb d' d = false)
    /\ (did = false -> hit = hit0).
Proof.
  intros WF BB Hfuel. unfold RaytracerBvh.rayIntersectBvh.
  rewrite (traverseLoop_visit _ _ _ _ _ _ t _ fuel (wf_layout _ _ _ WF) Hfuel).
  destruct (visit_closest nodes triangles ray rayTMax
              RaytracerBvh.didIntersect RaytracerBvh.tmax (raytracerWrittenFor triangles ray)
              a0 (RaytracerBvh.leaf triangles ray) eq_refl raytracer_leaf_closest t
              triangles_u32 (layout_tree _ _ _ (wf_layout _ _ _ WF)) BB a0 (fun _ => False))
    as (a' & E & [I1 I2]).
  { apply closestInv_init; reflexivity. }
  rewrite E.
  assert (Hin : forall k d, hitAt triangles ray rayTMax k d ->
                            False \/ k ∈ leafTriangles t).
  { intros k d (Hk & tri & Lk & _). right. apply lookup_lt_Some in Lk.
    apply (wf_cover _ _ _ WF). lia. }
  exists (RaytracerBvh.didIntersect a'), (RaytracerBvh.hit a'). split; [reflexivity|].
  split; [|split].
  - split.
    + intros D. destruct (I2 D) as (k & d & _ & Hk & _). eauto.
    + intros (k & d & Hk). destruct (RaytracerBvh.didIntersect a') eqn:D; [reflexivity|].
      destruct (I1 eq_refl) as [_ N]. destruct (N k d (Hin k d Hk) Hk).
  - intros D. destruct (I2 D) as (k & d & _ & Hk & Et & (tri & Lt & Eh) & M).
    exists k, d, tri. rewrite Et in Eh.
    repeat (split; [assumption|]). intros k' d' Hk'. exact (M k' d' (Hin k' d' Hk') Hk').
  - intros D. destruct (I1 D) as [-> _]. reflexivity.
Qed.

End RaytracerClosest.

(** ** The claims about the traversals *)




(** C7.  For a BVH none of whose leaves lies below more than 32 interior
    nodes (part of [BvhLayout]), both the closest-hit and the any-hit
    traversal keep [toVisitOffset] between 0 and 32 and the stack at its 32
    entries in every state the loop passes through, and no iteration
    faults: every write [nodesToVisit[toVisitOffset]] and every read of it
    is inside the 32-element array. *)
Theorem traversal_stack_in_bounds :
  forall (F : Type) (S : Scalar F) (ML : MathLib F) (BT : Bits F)
         (g : Deferred.Bindings F) (ray : Ray F) (rayTMax : F)
         (hit0 : Deferred.Intersection F) (t : BvhTree F),
    BvhLayout (Deferred.bvhNodes g)
      (Z.of_nat (length (Deferred.positionAttributes g))) t ->
    length (Deferred.vertexAttributes g) = length (Deferred.positionAttributes g) ->
    forall j : nat,
      (exists fl,
          traverseSteps (Deferred.bvhNodes g) (rayAabbIntersector ray) Deferred.tmax
            (Deferred.closestLeaf g ray)
            (fun a => (Deferred.didIntersect a, Deferred.hit a))
            j (traverseInit (Deferred.mkBvhLocals false rayTMax hit0)) = Done fl
          /\ forall s', fl = Continue s' ->
               0 <= toVisitOffset s' <= 32 /\ length (nodesToVisit s') = 32%nat)
      /\ (exists fl,
            traverseSteps (Deferred.bvhNodes g) (rayAabbIntersector ray) (fun _ => rayTMax)
              (Deferred.shadowLeaf g ray rayTMax) (fun _ => f1)
              j (traverseInit tt) = Done fl
            /\ forall s', fl = Continue s' ->
                 0 <= toVisitOffset s' <= 32 /\ length (nodesToVisit s') = 32%nat).
Proof.
  intros F S ML BT g ray rayTMax hit0 t WF PA j. split.
  - apply (traverse_in_bounds _ _ _ _ _
             (closestLeaf_total g ray PA (layout_triangles_u32 _ _ _ WF)) _ t _ j WF).
  - apply (traverse_in_bounds _ _ _ _ _
             (shadowLeaf_total g ray rayTMax (layout_triangles_u32 _ _ _ WF)) _ t _ j WF).
Qed.

(** The first iteration on the scene. *)
Lemma traversal_stack_in_bounds_witness :
  exists fl,
    traverseSteps (Deferred.bvhNodes scene) (rayAabbIntersector scene_ray) Deferred.tmax
      (@Deferred.closestLeaf _ B32.scalar b32_mathlib_sqrt_only B32.bits_ops scene scene_ray)
      (fun a => (Deferred.didIntersect a, Deferred.hit a))
      1 (traverseInit (Deferred.mkBvhLocals false (b32 10000) scene_hit0)) = Done fl
    /\ forall s', fl = Continue s' ->
         0 <= toVisitOffset s' <= 32 /\ length (nodesToVisit s') = 32%nat.
Proof.
  exact (proj1 (traversal_stack_in_bounds B32.t B32.scalar b32_mathlib_sqrt_only
                  B32.bits_ops scene scene_ray (b32 10000) scene_hit0 scene_tree
                  scene_layout eq_refl 1%nat)).
Defined.

(** C5.  For every ray and every [rayTMax], on a well-formed BVH: if the
    closest-hit query [rayIntersectBvh] reports a hit, the any-hit query
    [shadowRay] with the same ray and the same [rayTMax] returns 0
    (occluded).  Nothing is assumed about the boxes. *)
Theorem closest_hit_implies_any_hit :
  forall (F : Type) (S : Scalar F) (O : ScalarOrder F) (ML : MathLib F) (BT : Bits F)
         (g : Deferred.Bindings F) (ray : Ray F) (rayTMax : F)
         (hit0 hit : Deferred.Intersection F) (t : BvhTree F) (fuel fuel' : nat),
    BvhLayout (Deferred.bvhNodes g)
      (Z.of_nat (length (Deferred.positionAttributes g))) t ->
    (treeSize t <= fuel)%nat -> (treeSize t <= fuel')%nat ->
    Deferred.rayIntersectBvh g fuel ray rayTMax hit0 = Done (true, hit) ->
    Deferred.shadowRay g fuel' ray rayTMax = Done f0.
Proof.
  intros F S O ML BT g ray rayTMax hit0 hit t fuel fuel' WF Hf Hf' E.
  unfold Deferred.rayIntersectBvh in E. unfold Deferred.shadowRay.
  rewrite (traverseLoop_visit _ _ _ _ _ _ t _ fuel WF Hf) in E.
  rewrite (traverseLoop_visit _ _ _ _ _ _ t _ fuel' WF Hf').
  destruct (visit _ Deferred.tmax _ t _) as [[a'|r]| |] eqn:EC; try discriminate.
  - inversion E as [[D Eh]].
    apply (visit_any_hit g ray rayTMax (layout_triangles_u32 _ _ _ WF) t (layout_tree _ _ _ WF))
      in EC; [|now left].
    destruct EC as (_ & _ & [S1|[_ Ed]]).
    + rewrite S1. reflexivity.
    + cbn in Ed. congruence.
  - destruct (closest_visit_no_break g ray t _ r EC).
Qed.

Lemma closest_hit_implies_any_hit_witness :
  @Deferred.shadowRay _ B32.scalar b32_mathlib_sqrt_only B32.bits_ops
    scene 3 scene_ray (b32 10000) = Done (b32 0).
Proof.
  apply (closest_hit_implies_any_hit B32.t B32.scalar b32_order b32_mathlib_sqrt_only
           B32.bits_ops scene scene_ray (b32 10000) scene_hit0
           (Deferred.shadeHit
              (@triangleHitAt _ B32.scalar b32_mathlib_sqrt_only B32.bits_ops
                 scene_ray (scene_triangle 1) (b32 1))
              (scene_vertex 0))
           scene_tree 3%nat 3%nat).
  - exact scene_layout.
  - cbn. lia.
  - cbn. lia.
  - vm_compute. reflexivity.
Defined.

(** ** The integrator *)

Section Integrator.
Context {F : Type} `{Scalar F} `{MathLib F} `{Bits F}.
Variable g : Deferred.Bindings F.

(** A direct-light sample is one shadow-ray query. *)
Lemma lightSample_events (fuel : nat) (u : vec2 F) (position normal albedo : vec3 F)
    (c : vec3 F) (evs : list (Deferred.Event (F:=F))) :
  Deferred.lightSample g fuel u position normal albedo = Done (c, evs) ->
  exists ray, evs = [Deferred.EvShadowRay ray].
Proof.
  unfold Deferred.lightSample.
  destruct (Deferred.shadowRay _ _ _ _) as [vis| |]; cbn [obind]; try discriminate.
  intros E. inversion E. eauto.
Qed.

(** What one iteration does with the continuation ray. *)
Lemma bounce_cases (fuel : nat) (ray : Ray F) (throughput : vec3 F) (st : Deferred.Path)
    (fl : Flow Deferred.Path (vec3 F)) (evs : list (Deferred.Event (F:=F))) :
  Deferred.bounce g fuel ray throughput st = Done (fl, evs) ->
  (exists st', fl = Continue st' /\ evs = [Deferred.EvClosestHit ray])
  \/ (exists c, fl = Break c
                /\ evs = [Deferred.EvClosestHit ray; Deferred.EvSky (direction ray)]).
Proof.
  unfold Deferred.bounce.
  destruct (Deferred.rayIntersectBvh _ _ _ _ _) as [[did hit]| |]; cbn [obind fst snd];
    try discriminate.
  destruct did.
  - destruct (Deferred.evalTexture _ _ _) as [albedo| |]; cbn [obind]; try discriminate.
    intros E. inversion E. left. eauto.
  - intros E. inversion E. right. eauto.
Qed.

(** In the queries of a run of the loop, nothing follows a sky evaluation. *)
Lemma bounceLoop_sky_last (fuel : nat) (u : vec2 F) (k : nat) :
  forall (st : Deferred.Path) (c : vec3 F) (evs : list (Deferred.Event (F:=F))),
    Deferred.bounceLoop g fuel u k st = Done (c, evs) ->
    forall pre v post, evs = pre ++ Deferred.EvSky v :: post -> post = [].
Proof.
  induction k as [|k IH]; intros st c evs E pre v post Hev.
  - inversion E; subst. destruct pre; discriminate.
  - cbn [Deferred.bounceLoop] in E.
    destruct (Deferred.bounce _ _ _ _ _) as [[fl bev]| |] eqn:Eb; cbn [obind fst snd] in E;
      try discriminate.
    destruct (bounce_cases _ _ _ _ _ _ Eb) as [(st' & -> & ->)|(c' & -> & ->)].
    + destruct (Deferred.lightSample _ _ _ _ _ _) as [[lc lev]| |] eqn:El;
        cbn [obind fst snd] in E; try discriminate.
      destruct (lightSample_events _ _ _ _ _ _ _ El) as (sray & ->).
      destruct (Deferred.bounceLoop _ _ _ _ _) as [[rc rev]| |] eqn:Er;
        cbn [obind fst snd] in E; try discriminate.
      injection E as _ Ee. rewrite <- Ee in Hev. cbn [app] in Hev.
      destruct pre as [|e1 [|e2 pre]]; try discriminate.
      injection Hev as _ _ Hev. exact (IH _ _ _ Er _ _ _ Hev).
    + injection E as _ Ee. rewrite <- Ee in Hev.
      destruct pre as [|e1 [|e2 pre]];
        [discriminate|now injection Hev|].
      injection Hev as _ _ Hev. destruct pre; discriminate.
Qed.

(** The same for [surfaceColor], whose first query is the direct-light
    sample of the primary hit. *)
Lemma surfaceColor_sky_last (fuel : nat) (coord : Z * Z)
    (primaryPos primaryNormal primaryAlbedo : vec3 F)
    (c : vec3 F) (evs : list (Deferred.Event (F:=F))) :
  Deferred.surfaceColor g fuel coord primaryPos primaryNormal primaryAlbedo = Done (c, evs) ->
  forall pre v post, evs = pre ++ Deferred.EvSky v :: post -> post = [].
Proof.
  unfold Deferred.surfaceColor. intros E pre v post Hev.
  destruct (Deferred.animatedBlueNoise _ _ _ _) as [u| |]; cbn [obind] in E; try discriminate.
  destruct (Deferred.lightSample _ _ _ _ _ _) as [[lc lev]| |] eqn:El;
    cbn [obind fst snd] in E; try discriminate.
  destruct (lightSample_events _ _ _ _ _ _ _ El) as (sray & ->).
  destruct (Deferred.bounceLoop _ _ _ _ _) as [[rc rev]| |] eqn:Er;
    cbn [obind fst snd] in E; try discriminate.
  injection E as _ Ee. rewrite <- Ee in Hev. cbn [app] in Hev.
  destruct pre as [|e1 pre]; [discriminate|].
  injection Hev as _ Hev. exact (bounceLoop_sky_last _ _ _ _ _ _ Er _ _ _ Hev).
Qed.

End Integrator.



(** * Further properties of the code *)

(** ** The slab test is exact *)

Local Open Scope Q_scope.

Section SlabExact.

(** The converse of [axis_slab]: a parameter between the entry and the exit
    of a slab is a parameter at which the ray is inside it. *)
Lemma axis_slab_inside (lo hi o dx t : Q) :
  ~ dx == 0 ->
  let inv := fdiv f1 dx in
  let dn := select 0%Z 1%Z (fltb inv f0) in
  fmul (fsub (if (dn =? 0)%Z then lo else hi) o) inv <= t ->
  t <= fmul (fsub (if (1 - dn =? 0)%Z then lo else hi) o) inv ->
  lo <= o + t * dx /\ o + t * dx <= hi.
Proof.
  intros Hdx inv dn.
  assert (Hinv : inv * dx == 1) by (unfold inv, f1; simpl; field; exact Hdx).
  assert (El : forall b, (b - o) * inv * dx == b - o).
  { intros b. rewrite <- Qmult_assoc, Hinv. ring. }
  subst dn. unfold select, f0. simpl fmul. simpl fsub. simpl fltb. simpl fconst.
  destruct (QS.ltb inv 0) eqn:Hs; simpl; intros L U.
  - apply Qltb_lt in Hs.
    assert (Hd : dx < 0).
    { apply Qnot_le_lt. intros Hd.
      assert (A : 0 <= (- inv) * dx) by (apply Qmult_le_0_compat; lra). lra. }
    pose proof (El lo) as E1. pose proof (El hi) as E2.
    assert (A1 : 0 <= (t - (hi - o) * inv) * (- dx)) by (apply Qmult_le_0_compat; lra).
    assert (A2 : 0 <= ((lo - o) * inv - t) * (- dx)) by (apply Qmult_le_0_compat; lra).
    split; lra.
  - apply Qltb_ge in Hs.
    assert (Hd : 0 < dx).
    { apply Qnot_le_lt. intros Hd.
      assert (A : 0 <= inv * (- dx)) by (apply Qmult_le_0_compat; lra). lra. }
    pose proof (El lo) as E1. pose proof (El hi) as E2.
    assert (A1 : 0 <= (t - (lo - o) * inv) * dx) by (apply Qmult_le_0_compat; lra).
    assert (A2 : 0 <= ((hi - o) * inv - t) * dx) by (apply Qmult_le_0_compat; lra).
    split; lra.
Qed.

Lemma QS_max_ge (a b : Q) : a <= QS.max a b /\ b <= QS.max a b.
Proof.
  unfold QS.max. destruct (QS.ltb a b) eqn:E.
  - apply Qltb_lt in E. split; lra.
  - apply Qltb_ge in E. split; lra.
Qed.

Lemma QS_min_le (a b : Q) : QS.min a b <= a /\ QS.min a b <= b.
Proof.
  unfold QS.min. destruct (QS.ltb b a) eqn:E.
  - apply Qltb_lt in E. split; lra.
  - apply Qltb_ge in E. split; lra.
Qed.

(** What the interval computed by the slab test is made of. *)
Lemma slabInterval_bounds (it : RayAabbIntersector Q) (box : Aabb Q) (tmin tmax : Q) :
  slabInterval it box = Some (tmin, tmax) ->
  let tx0 := (vx (bounds box (vx (dirNeg it))) - vx (ri_origin it)) * vx (invDir it) in
  let tx1 := (vx (bounds box (1 - vx (dirNeg it))) - vx (ri_origin it)) * vx (invDir it) in
  let ty0 := (vy (bounds box (vy (dirNeg it))) - vy (ri_origin it)) * vy (invDir it) in
  let ty1 := (vy (bounds box (1 - vy (dirNeg it))) - vy (ri_origin it)) * vy (invDir it) in
  let tz0 := (vz (bounds box (vz (dirNeg it))) - vz (ri_origin it)) * vz (invDir it) in
  let tz1 := (vz (bounds box (1 - vz (dirNeg it))) - vz (ri_origin it)) * vz (invDir it) in
  (tx0 <= tmin /\ ty0 <= tmin /\ tz0 <= tmin)
  /\ (tmax <= tx1 /\ tmax <= ty1 /\ tmax <= tz1)
  /\ (tx0 <= tx1 -> ty0 <= ty1 -> tz0 <= tz1 -> tmin <= tmax).
Proof.
  intros E tx0 tx1 ty0 ty1 tz0 tz1. revert E.
  unfold slabInterval, fgtb. simpl fmul. simpl fsub. simpl fltb. simpl fmax. simpl fmin.
  fold tx0 tx1 ty0 ty1 tz0 tz1.
  destruct (QS.ltb ty1 tx0) eqn:E1; [discriminate|].
  destruct (QS.ltb tx1 ty0) eqn:E2; [discriminate|]. cbn [orb].
  destruct (QS.ltb tz1 (QS.max ty0 tx0)) eqn:E3; [discriminate|].
  destruct (QS.ltb (QS.min ty1 tx1) tz0) eqn:E4; [discriminate|]. cbn [orb].
  intros E. injection E as <- <-.
  apply Qltb_ge in E1, E2, E3, E4.
  pose proof (QS_max_ge ty0 tx0) as [M1 M2].
  pose proof (QS_min_le ty1 tx1) as [N1 N2].
  pose proof (QS_max_ge tz0 (QS.max ty0 tx0)) as [M3 M4].
  pose proof (QS_min_le tz1 (QS.min ty1 tx1)) as [N3 N4].
  split; [repeat split; lra|]. split; [repeat split; lra|].
  intros Hx Hy Hz.
  assert (A : QS.max ty0 tx0 <= QS.min ty1 tx1).
  { apply QS_max_le; apply QS_min_ge; lra. }
  apply QS_max_le; apply QS_min_ge; lra.
Qed.

Lemma pointInBox_Q (box : Aabb Q) (p : vec3 Q) :
  pointInBox box p <->
  (vx (aabb_min box) <= vx p /\ vx p <= vx (aabb_max box))
  /\ (vy (aabb_min box) <= vy p /\ vy p <= vy (aabb_max box))
  /\ (vz (aabb_min box) <= vz p /\ vz p <= vz (aabb_max box)).
Proof. unfold pointInBox. simpl. rewrite !Qle_bool_iff. reflexivity. Qed.

End SlabExact.

(** X1.  In exact arithmetic, for a ray none of whose direction components
    is zero, a box whose minimum corner is not beyond its maximum corner
    and a positive bound, [rayIntersectAabb] answers [true] exactly when
    the ray is inside the box at some parameter [t] with [0 < t < rayTMax]:
    the slab test neither misses a box the ray segment enters nor accepts
    one it does not. *)
Theorem rayIntersectAabb_exact (ray : Ray Q) (box : Aabb Q) (tm : Q) :
  obliqueRay ray -> properBox box -> 0 < tm ->
  (rayIntersectAabb (rayAabbIntersector ray) box tm = true <->
   exists t, 0 < t /\ t < tm /\ pointInBox box (Raytracer.rayPointAtParameter ray t)).
Proof.
  intros (Nx & Ny & Nz) (Bx & By & Bz) Htm.
  apply Qneb_neq in Nx, Ny, Nz. unfold f0 in Nx, Ny, Nz. simpl in Nx, Ny, Nz.
  simpl in Bx, By, Bz. apply Qle_bool_iff in Bx, By, Bz.
  split.
  - unfold rayIntersectAabb.
    destruct (slabInterval (rayAabbIntersector ray) box) as [[tmin tmax]|] eqn:E;
      [|discriminate].
    intros T. apply andb_true_iff in T as [T1 T2]. unfold fgtb in T2.
    apply Qltb_lt in T1, T2. unfold f0 in T2. simpl in T2.
    destruct (slabInterval_bounds _ _ _ _ E) as ((X0 & Y0 & Z0) & (X1 & Y1 & Z1) & Hord).
    rewrite (bounds_coord vx) in X0, X1.
    rewrite (bounds_coord vy) in Y0, Y1.
    rewrite (bounds_coord vz) in Z0, Z1.
    assert (Hmm : tmin <= tmax).
    { apply Hord.
      - destruct (axis_slab (vx (aabb_min box)) (vx (aabb_max box)) (vx (origin ray))
                    (vx (direction ray))
                    ((vx (aabb_min box) - vx (origin ray)) / vx (direction ray)) Nx) as [A B].
        + apply Qle_lteq. right. field. exact Nx.
        + apply Qle_trans with (vx (aabb_min box)); [|exact Bx].
          apply Qle_lteq. right. field. exact Nx.
        + rewrite !(bounds_coord vx). exact (Qle_trans _ _ _ A B).
      - destruct (axis_slab (vy (aabb_min box)) (vy (aabb_max box)) (vy (origin ray))
                    (vy (direction ray))
                    ((vy (aabb_min box) - vy (origin ray)) / vy (direction ray)) Ny) as [A B].
        + apply Qle_lteq. right. field. exact Ny.
        + apply Qle_trans with (vy (aabb_min box)); [|exact By].
          apply Qle_lteq. right. field. exact Ny.
        + rewrite !(bounds_coord vy). exact (Qle_trans _ _ _ A B).
      - destruct (axis_slab (vz (aabb_min box)) (vz (aabb_max box)) (vz (origin ray))
                    (vz (direction ray))
                    ((vz (aabb_min box) - vz (origin ray)) / vz (direction ray)) Nz) as [A B].
        + apply Qle_lteq. right. field. exact Nz.
        + apply Qle_trans with (vz (aabb_min box)); [|exact Bz].
          apply Qle_lteq. right. field. exact Nz.
        + rewrite !(bounds_coord vz). exact (Qle_trans _ _ _ A B). }
    assert (Ht : exists t, 0 < t /\ t < tm /\ tmin <= t /\ t <= tmax).
    { destruct (Qlt_le_dec 0 tmin) as [P|P].
      - exists tmin. repeat split; lra.
      - destruct (Qlt_le_dec tmax (tm * (1 # 2))) as [P'|P'].
        + exists tmax. repeat split; lra.
        + exists (tm * (1 # 2)). repeat split; lra. }
    destruct Ht as (t & Ht0 & Httm & Hlo & Hhi).
    exists t. split; [exact Ht0|]. split; [exact Httm|].
    apply pointInBox_Q. unfold Raytracer.rayPointAtParameter, vadd, vscale. cbn [vx vy vz].
    split; [|split].
    + apply (axis_slab_inside _ _ _ _ t Nx); [exact (Qle_trans _ _ _ X0 Hlo)|
                                               exact (Qle_trans _ _ _ Hhi X1)].
    + apply (axis_slab_inside _ _ _ _ t Ny); [exact (Qle_trans _ _ _ Y0 Hlo)|
                                               exact (Qle_trans _ _ _ Hhi Y1)].
    + apply (axis_slab_inside _ _ _ _ t Nz); [exact (Qle_trans _ _ _ Z0 Hlo)|
                                               exact (Qle_trans _ _ _ Hhi Z1)].
  - intros (t & Ht0 & Httm & Hin). apply pointInBox_Q in Hin.
    unfold Raytracer.rayPointAtParameter, vadd, vscale in Hin. cbn [vx vy vz] in Hin.
    simpl fadd in Hin. simpl fmul in Hin.
    destruct Hin as ((Lx & Ux) & (Ly & Uy) & (Lz & Uz)).
    destruct (axis_slab _ _ _ _ _ Nx Lx Ux) as (X0 & X1).
    destruct (axis_slab _ _ _ _ _ Ny Ly Uy) as (Y0 & Y1).
    destruct (axis_slab _ _ _ _ _ Nz Lz Uz) as (Z0 & Z1).
    destruct (slabInterval_contains (rayAabbIntersector ray) box t) as (tmin & tmax & E & L & U).
    + rewrite (bounds_coord vx). exact X0.
    + rewrite (bounds_coord vx). exact X1.
    + rewrite (bounds_coord vy). exact Y0.
    + rewrite (bounds_coord vy). exact Y1.
    + rewrite (bounds_coord vz). exact Z0.
    + rewrite (bounds_coord vz). exact Z1.
    + unfold rayIntersectAabb. rewrite E.
      apply andb_true_iff. split; [|unfold fgtb]; apply Qltb_lt.
      * lra.
      * unfold f0. simpl. lra.
Qed.


(** The diagonal ray from the origin is inside the box [1, 2]^3 at [t = 1]. *)
Lemma rayIntersectAabb_exact_witness :
  rayIntersectAabb
    (rayAabbIntersector (mkRay (mkVec3 0 0 0) (mkVec3 1 1 1)))
    (mkAabb (mkVec3 1 1 1) (mkVec3 2 2 2)) 10 = true.
Proof.
  apply (proj2 (rayIntersectAabb_exact (mkRay (mkVec3 0 0 0) (mkVec3 1 1 1))
                  (mkAabb (mkVec3 1 1 1) (mkVec3 2 2 2)) 10
                  ltac:(repeat split) ltac:(repeat split) ltac:(reflexivity))).
  exists 1. split; [reflexivity|]. split; [reflexivity|]. repeat split.
Defined.

Local Close Scope Q_scope.

(** ** Sampling directions *)

Local Open Scope Q_scope.

Section Onb.

Lemma Qeq_from_multiple (l r c e : Q) :
  e == 0 -> l - r == c * e -> l == r.
Proof. intros He E. rewrite He, Qmult_0_r in E. lra. Qed.

(** The columns of [pixarOnb(n)] for a unit vector [n]. *)
Lemma pixarOnb_basis (n : vec3 Q) :
  dot n n == 1 ->
  let m := Deferred.pixarOnb n in
  Deferred.col2 m = n
  /\ dot (Deferred.col0 m) (Deferred.col0 m) == 1
  /\ dot (Deferred.col1 m) (Deferred.col1 m) == 1
  /\ dot (Deferred.col0 m) (Deferred.col1 m) == 0
  /\ dot (Deferred.col0 m) n == 0
  /\ dot (Deferred.col1 m) n == 0.
Proof.
  destruct n as [x y z]. unfold dot. cbn [vx vy vz]. simpl fadd. simpl fmul. intros H.
  assert (He : x * x + y * y + z * z - 1 == 0) by lra.
  unfold Deferred.pixarOnb, fgeb, select, f0, f1. cbn [vx vy vz].
  simpl fleb. simpl fconst.
  destruct (Qle_bool 0 z) eqn:Hz; cbv zeta;
    cbn [Deferred.col0 Deferred.col1 Deferred.col2 vx vy vz];
    simpl fadd; simpl fmul; simpl fsub; simpl fdiv; simpl fneg.
  - apply Qle_bool_iff in Hz.
    assert (D : ~ 1 + z == 0) by lra.
    split; [reflexivity|].
    split; [apply (Qeq_from_multiple _ _ (x * x / ((1 + z) * (1 + z))) _ He); field; exact D|].
    split; [apply (Qeq_from_multiple _ _ (y * y / ((1 + z) * (1 + z))) _ He); field; exact D|].
    split; [apply (Qeq_from_multiple _ _ (x * y / ((1 + z) * (1 + z))) _ He); field; exact D|].
    split; [apply (Qeq_from_multiple _ _ (- x / (1 + z)) _ He); field; exact D|].
    apply (Qeq_from_multiple _ _ (- y / (1 + z)) _ He); field; exact D.
  - assert (Hz' : z < 0).
    { apply Qnot_le_lt. intros L. apply Qle_bool_iff in L. congruence. }
    assert (D : ~ - (1) + z == 0) by lra.
    split; [reflexivity|].
    split; [apply (Qeq_from_multiple _ _ (x * x / ((-(1) + z) * (-(1) + z))) _ He); field; exact D|].
    split; [apply (Qeq_from_multiple _ _ (y * y / ((-(1) + z) * (-(1) + z))) _ He); field; exact D|].
    split; [apply (Qeq_from_multiple _ _ (- (x * y) / ((-(1) + z) * (-(1) + z))) _ He); field; exact D|].
    split; [apply (Qeq_from_multiple _ _ (x / (-(1) + z)) _ He); field; exact D|].
    apply (Qeq_from_multiple _ _ (- y / (-(1) + z)) _ He); field; exact D.
Qed.

(** X2.  In exact arithmetic, for every unit vector [n], with no exception
    at [n = (0, 0, -1)], the columns of [pixarOnb(n)] are an orthonormal
    basis whose third vector is [n]: the denominator [s + n.z] is never
    zero. *)
Theorem pixarOnb_orthonormal (n : vec3 Q) :
  dot n n == 1 ->
  let m := Deferred.pixarOnb n in
  Deferred.col2 m = n
  /\ dot (Deferred.col0 m) (Deferred.col0 m) == 1
  /\ dot (Deferred.col1 m) (Deferred.col1 m) == 1
  /\ dot (Deferred.col0 m) (Deferred.col1 m) == 0
  /\ dot (Deferred.col0 m) n == 0
  /\ dot (Deferred.col1 m) n == 0.
Proof. exact (pixarOnb_basis n). Qed.

Context {ML : MathLib Q}.

(** A matrix with orthonormal columns keeps scalar products. *)
Lemma mat3_mul_dot (m : Deferred.mat3 (F:=Q)) (v w : vec3 Q) :
  dot (Deferred.col0 m) (Deferred.col0 m) == 1 ->
  dot (Deferred.col1 m) (Deferred.col1 m) == 1 ->
  dot (Deferred.col2 m) (Deferred.col2 m) == 1 ->
  dot (Deferred.col0 m) (Deferred.col1 m) == 0 ->
  dot (Deferred.col0 m) (Deferred.col2 m) == 0 ->
  dot (Deferred.col1 m) (Deferred.col2 m) == 0 ->
  dot (Deferred.mat3_mul m v) (Deferred.mat3_mul m w) == dot v w.
Proof.
  destruct m as [[a1 a2 a3] [b1 b2 b3] [c1 c2 c3]], v as [x y z], w as [x' y' z'].
  unfold Deferred.mat3_mul, dot, vadd, vscale.
  cbn [Deferred.col0 Deferred.col1 Deferred.col2 vx vy vz]. simpl fadd. simpl fmul.
  intros Haa Hbb Hcc Hab Hac Hbc.
  assert (E : (x * a1 + y * b1 + z * c1) * (x' * a1 + y' * b1 + z' * c1)
              + (x * a2 + y * b2 + z * c2) * (x' * a2 + y' * b2 + z' * c2)
              + (x * a3 + y * b3 + z * c3) * (x' * a3 + y' * b3 + z' * c3)
              == x * x' * (a1 * a1 + a2 * a2 + a3 * a3)
                 + y * y' * (b1 * b1 + b2 * b2 + b3 * b3)
                 + z * z' * (c1 * c1 + c2 * c2 + c3 * c3)
                 + (x * y' + y * x') * (a1 * b1 + a2 * b2 + a3 * b3)
                 + (x * z' + z * x') * (a1 * c1 + a2 * c2 + a3 * c3)
                 + (y * z' + z * y') * (b1 * c1 + b2 * c2 + b3 * c3)) by ring.
  rewrite E, Haa, Hbb, Hcc, Hab, Hac, Hbc. ring.
Qed.

Lemma mat3_mul_dot_col2 (m : Deferred.mat3 (F:=Q)) (v : vec3 Q) :
  dot (Deferred.col2 m) (Deferred.col2 m) == 1 ->
  dot (Deferred.col0 m) (Deferred.col2 m) == 0 ->
  dot (Deferred.col1 m) (Deferred.col2 m) == 0 ->
  dot (Deferred.mat3_mul m v) (Deferred.col2 m) == vz v.
Proof.
  destruct m as [[a1 a2 a3] [b1 b2 b3] [c1 c2 c3]], v as [x y z].
  unfold Deferred.mat3_mul, dot, vadd, vscale.
  cbn [Deferred.col0 Deferred.col1 Deferred.col2 vx vy vz]. simpl fadd. simpl fmul.
  intros Hcc Hac Hbc.
  assert (E : (x * a1 + y * b1 + z * c1) * c1 + (x * a2 + y * b2 + z * c2) * c2
              + (x * a3 + y * b3 + z * c3) * c3
              == x * (a1 * c1 + a2 * c2 + a3 * c3) + y * (b1 * c1 + b2 * c2 + b3 * c3)
                 + z * (c1 * c1 + c2 * c2 + c3 * c3)) by ring.
  rewrite E, Hcc, Hac, Hbc. ring.
Qed.

Lemma hemisphere_norm (c s r1 r2 x : Q) :
  c * c + s * s == 1 -> r1 * r1 == 1 - x -> r2 * r2 == x ->
  c * r1 * (c * r1) + s * r1 * (s * r1) + r2 * r2 == 1.
Proof.
  intros Ht H1 H2.
  assert (E : c * r1 * (c * r1) + s * r1 * (s * r1) + r2 * r2
              == (c * c + s * s) * (r1 * r1) + r2 * r2) by ring.
  rewrite E, Ht, H1, H2. ring.
Qed.

(** The downward normal, where the sign selection matters. *)
Lemma pixarOnb_orthonormal_witness :
  dot (Deferred.col0 (Deferred.pixarOnb (mkVec3 0 0 (-1))))
      (Deferred.col1 (Deferred.pixarOnb (mkVec3 0 0 (-1)))) == 0.
Proof.
  exact (proj1 (proj2 (proj2 (proj2
           (pixarOnb_orthonormal (mkVec3 0 0 (-1)) ltac:(reflexivity)))))).
Defined.

(** X3.  In exact arithmetic, the direction [evalImplicitLambertian(u, n)]
    makes with the unit normal [n] an angle of cosine [sqrt(u.x)], whatever
    the library functions return; when they satisfy
    [cos^2 + sin^2 = 1] at [2 * PI * u.y] and the two roots are exact, the
    direction is a unit vector. *)
Theorem evalImplicitLambertian_hemisphere (u : vec2 Q) (n : vec3 Q) :
  dot n n == 1 ->
  let wi := Deferred.evalImplicitLambertian u n in
  let phi := 2 * PI * v2y u in
  dot wi n == fsqrt (v2x u)
  /\ (fcos phi * fcos phi + fsin phi * fsin phi == 1 ->
      fsqrt (1 - v2x u) * fsqrt (1 - v2x u) == 1 - v2x u ->
      fsqrt (v2x u) * fsqrt (v2x u) == v2x u ->
      dot wi wi == 1).
Proof.
  intros Hn wi phi.
  destruct (pixarOnb_basis n Hn) as (E2 & H00 & H11 & H01 & H0n & H1n).
  cbv zeta in E2, H00, H11, H01, H0n, H1n.
  subst wi. unfold Deferred.evalImplicitLambertian.
  set (m := Deferred.pixarOnb n) in *.
  set (v := Deferred.directionInCosineWeightedHemisphere u).
  assert (Hcc : dot (Deferred.col2 m) (Deferred.col2 m) == 1) by (rewrite E2; exact Hn).
  assert (Hac : dot (Deferred.col0 m) (Deferred.col2 m) == 0) by (rewrite E2; exact H0n).
  assert (Hbc : dot (Deferred.col1 m) (Deferred.col2 m) == 0) by (rewrite E2; exact H1n).
  split.
  - pose proof (mat3_mul_dot_col2 m v Hcc Hac Hbc) as K. rewrite E2 in K. exact K.
  - intros Ht Hs1 Hs2.
    rewrite (mat3_mul_dot m v v H00 H11 Hcc H01 Hac Hbc).
    exact (hemisphere_norm _ _ _ _ (v2x u) Ht Hs1 Hs2).
Qed.

(** X4.  In exact arithmetic, the light direction
    [sampleSolarDiskDirection(u, cosThetaMax, direction)] makes with the
    unit vector [direction] an angle of cosine
    [1 - u.x * (1 - cosThetaMax)]; for [0 <= u.x <= 1] that cosine lies
    between [cosThetaMax] and 1, so the sample is inside the cone. *)
Theorem sampleSolarDiskDirection_in_cone (u : vec2 Q) (cosThetaMax : Q) (direction : vec3 Q) :
  dot direction direction == 1 ->
  let l := Deferred.sampleSolarDiskDirection u cosThetaMax direction in
  dot l direction == 1 - v2x u * (1 - cosThetaMax)
  /\ (0 <= v2x u -> v2x u <= 1 -> cosThetaMax <= 1 ->
      cosThetaMax <= dot l direction /\ dot l direction <= 1).
Proof.
  intros Hn l.
  destruct (pixarOnb_basis direction Hn) as (E2 & H00 & H11 & H01 & H0n & H1n).
  cbv zeta in E2, H00, H11, H01, H0n, H1n.
  subst l. unfold Deferred.sampleSolarDiskDirection.
  set (m := Deferred.pixarOnb direction) in *.
  set (v := Deferred.directionInCone u cosThetaMax).
  assert (Hcc : dot (Deferred.col2 m) (Deferred.col2 m) == 1) by (rewrite E2; exact Hn).
  assert (Hac : dot (Deferred.col0 m) (Deferred.col2 m) == 0) by (rewrite E2; exact H0n).
  assert (Hbc : dot (Deferred.col1 m) (Deferred.col2 m) == 0) by (rewrite E2; exact H1n).
  assert (E : dot (Deferred.mat3_mul m v) direction == 1 - v2x u * (1 - cosThetaMax)).
  { pose proof (mat3_mul_dot_col2 m v Hcc Hac Hbc) as K. rewrite E2 in K. exact K. }
  split; [exact E|].
  intros U0 U1 C. rewrite E.
  assert (A : 0 <= v2x u * (1 - cosThetaMax)) by (apply Qmult_le_0_compat; lra).
  assert (B : 0 <= (1 - v2x u) * (1 - cosThetaMax)) by (apply Qmult_le_0_compat; lra).
  split; lra.
Qed.

End Onb.

Lemma evalImplicitLambertian_hemisphere_witness :
  dot (@Deferred.evalImplicitLambertian Q QS.scalar q_mathlib_axis (mkVec2 1 0) (mkVec3 0 0 1))
      (@Deferred.evalImplicitLambertian Q QS.scalar q_mathlib_axis (mkVec2 1 0) (mkVec3 0 0 1))
  == 1.
Proof.
  apply (proj2 (@evalImplicitLambertian_hemisphere q_mathlib_axis (mkVec2 1 0) (mkVec3 0 0 1)
                  ltac:(reflexivity))); reflexivity.
Defined.

Lemma sampleSolarDiskDirection_in_cone_witness :
  (1 # 2) <= dot (@Deferred.sampleSolarDiskDirection Q QS.scalar q_mathlib_axis
                    (mkVec2 (1 # 2) 0) (1 # 2) (mkVec3 0 1 0))
                 (mkVec3 0 1 0).
Proof.
  apply (proj2 (@sampleSolarDiskDirection_in_cone q_mathlib_axis (mkVec2 (1 # 2) 0) (1 # 2)
                  (mkVec3 0 1 0) ltac:(reflexivity))); discriminate.
Defined.


Local Close Scope Q_scope.

(** ** The any-hit query is exact *)

Section ShadowExact.
Context {F : Type} `{ScalarOrder F} `{MathLib F} `{Bits F}.
Variable g : Deferred.Bindings F.
Variable ray : Ray F.
Variable rayTMax : F.

Hypothesis triangles_u32 :
  Z.of_nat (length (Deferred.positionAttributes g)) <= u32_modulus.

Local Abbreviation positions := (Deferred.positionAttributes g).
Local Abbreviation visitS :=
  (visit (rayAabbIntersector ray) (fun _ : unit => rayTMax)
         (Deferred.shadowLeaf g ray rayTMax)).

(** The loop over the triangles of a leaf stops at the first triangle met
    before [rayTMax], and runs to its end when there is none. *)
Lemma shadowLeafLoop_exact (nd : BvhNode F) (n : nat) :
  forall (idx : Z),
    0 <= trianglesOffset nd -> 0 <= idx ->
    idx + Z.of_nat n < u32_modulus ->
    trianglesOffset nd + idx + Z.of_nat n <= Z.of_nat (length positions) ->
    (Deferred.shadowLeafLoop g ray rayTMax nd n idx = Done (Break f0)
     /\ exists k d, trianglesOffset nd + idx <= k < trianglesOffset nd + idx + Z.of_nat n
                    /\ hitAt positions ray rayTMax k d)
    \/ (Deferred.shadowLeafLoop g ray rayTMax nd n idx = Done (Continue tt)
        /\ forall k d, trianglesOffset nd + idx <= k < trianglesOffset nd + idx + Z.of_nat n ->
                       ~ hitAt positions ray rayTMax k d).
Proof.
  induction n as [|n IH]; intros idx Hoff Hidx Hcnt Hrange.
  - right. split; [reflexivity|]. intros k d Hk. lia.
  - cbn [Deferred.shadowLeafLoop].
    assert (Hk : u32_add (trianglesOffset nd) idx = trianglesOffset nd + idx).
    { unfold u32_add. apply u32_small. lia. }
    assert (Hidx1 : u32_add idx 1 = idx + 1).
    { unfold u32_add. apply u32_small. lia. }
    rewrite Hk, Hidx1.
    destruct (lookup_in_range positions (trianglesOffset nd + idx) ltac:(lia)) as [tri Ltri].
    rewrite (lookupZ_Some _ _ _ Ltri). cbn [obind].
    rewrite rayIntersectTriangle_hitTime.
    destruct (IH (idx + 1) Hoff ltac:(lia) ltac:(lia) ltac:(lia)) as [(E & k & d & Bk & Hk')|(E & N)].
    + (* a later triangle is met *)
      destruct (hitTime ray tri) as [d0|] eqn:Ht; [destruct (fltb d0 rayTMax) eqn:Lt|].
      * left. split; [reflexivity|]. exists (trianglesOffset nd + idx), d0.
        split; [lia|]. split; [lia|]. exists tri.
        destruct (hitTime_Some _ _ _ Ht) as (_ & G & _). auto.
      * left. split; [exact E|]. exists k, d. split; [lia|exact Hk'].
      * left. split; [exact E|]. exists k, d. split; [lia|exact Hk'].
    + destruct (hitTime ray tri) as [d0|] eqn:Ht; [destruct (fltb d0 rayTMax) eqn:Lt|].
      * left. split; [reflexivity|]. exists (trianglesOffset nd + idx), d0.
        split; [lia|]. split; [lia|]. exists tri.
        destruct (hitTime_Some _ _ _ Ht) as (_ & G & _). auto.
      * right. split; [exact E|]. intros k d Bk Hh.
        destruct (Z.eq_dec k (trianglesOffset nd + idx)) as [->|Ne].
        -- destruct Hh as (_ & tri' & L' & Ht' & _ & Lt').
           rewrite Ltri in L'. inversion L'; subst tri'. rewrite Ht in Ht'.
           inversion Ht'; subst d0. congruence.
        -- apply (N k d); [lia|exact Hh].
      * right. split; [exact E|]. intros k d Bk Hh.
        destruct (Z.eq_dec k (trianglesOffset nd + idx)) as [->|Ne].
        -- destruct Hh as (_ & tri' & L' & Ht' & _).
           rewrite Ltri in L'. inversion L'; subst tri'. congruence.
        -- apply (N k d); [lia|exact Hh].
Qed.

(** No triangle below a node whose box the ray misses is met before
    [rayTMax], when the boxes bound their triangles. *)
Lemma box_miss_no_hit (t : BvhTree F) :
  boxesBound positions ray t ->
  rayIntersectAabb (rayAabbIntersector ray) (aabb (treeNode t)) rayTMax = false ->
  forall k d, k ∈ leafTriangles t -> ~ hitAt positions ray rayTMax k d.
Proof.
  intros BB T k d Hk (_ & tri & L & Ht & _ & Lt).
  assert (B : rayIntersectAabb (rayAabbIntersector ray) (aabb (treeNode t)) rayTMax = true).
  { destruct t; destruct BB as [BB _]; exact (BB k tri rayTMax d Hk L Ht Lt). }
  congruence.
Qed.

Lemma shadow_visit_exact (t : BvhTree F) :
  treeIn (Deferred.bvhNodes g) (Z.of_nat (length positions)) t ->
  boxesBound positions ray t ->
  (visitS t tt = Done (Break f0)
   /\ exists k d, k ∈ leafTriangles t /\ hitAt positions ray rayTMax k d)
  \/ (visitS t tt = Done (Continue tt)
      /\ forall k d, k ∈ leafTriangles t -> ~ hitAt positions ray rayTMax k d).
Proof.
  induction t as [i nd|i nd l IHl r IHr]; intros WF BB.
  - pose proof (box_miss_no_hit _ BB) as Miss.
    cbn [visit treeNode leafTriangles] in *.
    destruct WF as (_ & _ & Hc & Ho & Hr).
    destruct (rayIntersectAabb _ _ _).
    + unfold Deferred.shadowLeaf.
      destruct (shadowLeafLoop_exact nd (Z.to_nat (triangleCount nd)) 0 Ho ltac:(lia)
                  ltac:(lia) ltac:(lia)) as [(E & k & d & Bk & Hk)|(E & N)].
      * left. split; [exact E|]. exists k, d. split; [|exact Hk].
        apply elem_of_seqZ. lia.
      * right. split; [exact E|]. intros k d Hk. apply N.
        apply elem_of_seqZ in Hk. lia.
    + right. split; [reflexivity|]. exact (Miss eq_refl).
  - pose proof (box_miss_no_hit _ BB) as Miss.
    destruct BB as (_ & BBl & BBr).
    destruct WF as (_ & _ & _ & _ & _ & _ & WFl & WFr).
    specialize (IHl WFl BBl). specialize (IHr WFr BBr).
    cbn [visit treeNode leafTriangles] in *.
    destruct (rayIntersectAabb _ _ _).
    + unfold andThen. destruct (vidx _ _ =? 1).
      * destruct IHr as [(Er & k & d & Hk & Hh)|(Er & Nr)]; rewrite Er; cbn [obind].
        -- left. split; [reflexivity|]. exists k, d. split; [|exact Hh].
           apply elem_of_app. now right.
        -- destruct IHl as [(El & k & d & Hk & Hh)|(El & Nl)].
           ++ left. split; [exact El|]. exists k, d. split; [|exact Hh].
              apply elem_of_app. now left.
           ++ right. split; [exact El|]. intros k d Hk.
              apply elem_of_app in Hk as [Hk|Hk]; [now apply Nl|now apply Nr].
      * destruct IHl as [(El & k & d & Hk & Hh)|(El & Nl)]; rewrite El; cbn [obind].
        -- left. split; [reflexivity|]. exists k, d. split; [|exact Hh].
           apply elem_of_app. now left.
        -- destruct IHr as [(Er & k & d & Hk & Hh)|(Er & Nr)].
           ++ left. split; [exact Er|]. exists k, d. split; [|exact Hh].
              apply elem_of_app. now right.
           ++ right. split; [exact Er|]. intros k d Hk.
              apply elem_of_app in Hk as [Hk|Hk]; [now apply Nl|now apply Nr].
    + right. split; [reflexivity|]. exact (Miss eq_refl).
Qed.

(** The any-hit query on a well-formed BVH whose boxes bound their
    triangles. *)
Lemma shadowRay_cases (t : BvhTree F) (fuel : nat) :
  WellFormedBvh (Deferred.bvhNodes g) (Z.of_nat (length positions)) t ->
  boxesBound positions ray t ->
  (treeSize t <= fuel)%nat ->
  (Deferred.shadowRay g fuel ray rayTMax = Done f0
   /\ exists k d, hitAt positions ray rayTMax k d)
  \/ (Deferred.shadowRay g fuel ray rayTMax = Done f1
      /\ forall k d, ~ hitAt positions ray rayTMax k d).
Proof.
  intros WF BB Hf. unfold Deferred.shadowRay.
  rewrite (traverseLoop_visit _ _ _ _ _ _ t _ fuel (wf_layout _ _ _ WF) Hf).
  destruct (shadow_visit_exact t (layout_tree _ _ _ (wf_layout _ _ _ WF)) BB)
    as [(E & k & d & _ & Hh)|(E & N)]; rewrite E.
  - left. split; [reflexivity|]. eauto.
  - right. split; [reflexivity|]. intros k d Hh. apply (N k d); [|exact Hh].
    apply (wf_cover _ _ _ WF). destruct Hh as (K0 & tri & L & _).
    apply lookup_lt_Some in L. lia.
Qed.

End ShadowExact.



(** ** An accepted hit is an intersection *)

Local Open Scope Q_scope.

Section TriangleSound.
Context {ML : MathLib Q}.

(** What the tests that passed say, in exact arithmetic. *)
Lemma hitTime_weights (ray : Ray Q) (tri : Positions Q) (d : Q) :
  hitTime ray tri = Some d ->
  d = mt_t ray tri /\ EPSILON < d /\ ~ mt_det ray tri == 0
  /\ 0 <= mt_u ray tri /\ 0 <= mt_v ray tri /\ mt_u ray tri + mt_v ray tri <= 1.
Proof.
  intros Ht. destruct (hitTime_Some _ _ _ Ht) as (Et & G & D & U0 & _ & V0 & UV).
  split; [exact Et|]. split; [apply Qltb_lt; exact G|].
  split; [exact (parallel_test_nonzero _ D)|].
  split; [apply Qltb_ge; exact U0|]. split; [apply Qltb_ge; exact V0|].
  apply Qltb_ge. exact UV.
Qed.

(** X6.  In exact arithmetic, a hit that [rayIntersectTriangle] accepts
    is an intersection of the ray and the triangle.  Raytracer shader:
    [EPSILON < t < tmax], the point returned is the ray's point at [t] and
    it is the point of the triangle with weights [a, b >= 0], [a + b <= 1].
    Deferred shader: [EPSILON < t < tmax], the three weights returned are
    non-negative and add up to 1, and the point returned is
    [offsetPosition] of the triangle's point with those weights, which is
    the ray's point at [t]. *)
Theorem rayIntersectTriangle_sound (BT : Bits Q) (ray : Ray Q) (tri : Positions Q) (tmax : Q) :
  (forall hit, Raytracer.rayIntersectTriangle ray tri tmax = Some hit ->
     EPSILON < Raytracer.t hit /\ Raytracer.t hit < tmax
     /\ Raytracer.p hit = Raytracer.rayPointAtParameter ray (Raytracer.t hit)
     /\ exists a b, 0 <= a /\ 0 <= b /\ a + b <= 1
                    /\ vec3_Qeq (Raytracer.p hit) (pointOn tri a b))
  /\ (forall hit, rayIntersectTriangle ray tri tmax = Some hit ->
        EPSILON < th_t hit /\ th_t hit < tmax
        /\ 0 <= vx (th_b hit) /\ 0 <= vy (th_b hit) /\ 0 <= vz (th_b hit)
        /\ vx (th_b hit) + vy (th_b hit) + vz (th_b hit) == 1
        /\ exists pt, th_p hit = offsetPosition pt (mt_n tri)
                      /\ pt = pointOn tri (vy (th_b hit)) (vz (th_b hit))
                      /\ vec3_Qeq pt (Raytracer.rayPointAtParameter ray (th_t hit))).
Proof.
  split; intros hit E.
  - rewrite raytracer_rayIntersectTriangle_hitTime in E.
    destruct (hitTime ray tri) as [d|] eqn:Ht; [|discriminate].
    destruct (fltb d tmax) eqn:Lt; [|discriminate].
    inversion E; subst hit. cbn [Raytracer.t Raytracer.p intersectionAt].
    destruct (hitTime_weights _ _ _ Ht) as (Et & G & D & U0 & V0 & UV).
    split; [exact G|]. split; [apply Qltb_lt; exact Lt|]. split; [reflexivity|].
    exists (mt_u ray tri), (mt_v ray tri). repeat (split; [assumption|]).
    subst d. exact (hit_point ray tri D).
  - apply rayIntersectTriangle_Some in E as (d & Ht & Lt & ->).
    destruct (hitTime_weights _ _ _ Ht) as (Et & G & D & U0 & V0 & UV).
    cbn [th_t th_b th_p triangleHitAt vx vy vz].
    split; [exact G|]. split; [apply Qltb_lt; exact Lt|].
    change (@fsub Q QS.scalar) with Qminus. change (@f1 Q QS.scalar) with 1.
    split; [lra|]. split; [exact U0|]. split; [exact V0|]. split; [ring|].
    exists (mt_p ray tri). split; [reflexivity|]. split; [reflexivity|].
    subst d. pose proof (hit_point ray tri D) as (X & Y & Z).
    unfold vec3_Qeq. rewrite X, Y, Z. repeat split; reflexivity.
Qed.

End TriangleSound.

Lemma rayIntersectTriangle_sound_witness :
  exists hit : Raytracer.Intersection Q,
    @Raytracer.rayIntersectTriangle _ QS.scalar q_mathlib_axis
      (mkRay (mkVec3 0 0 0) (mkVec3 0 0 1))
      (mkPositions (mkVec3 0 0 1) (mkVec3 1 0 1) (mkVec3 0 1 1)) 1000 = Some hit
    /\ Raytracer.t hit < 1000
    /\ exists a b, 0 <= a /\ 0 <= b /\ a + b <= 1
         /\ vec3_Qeq (Raytracer.p hit)
              (pointOn (mkPositions (mkVec3 0 0 1) (mkVec3 1 0 1) (mkVec3 0 1 1)) a b).
Proof.
  eexists. split; [vm_compute; reflexivity|].
  destruct (proj1 (@rayIntersectTriangle_sound q_mathlib_axis q_bits_none
              (mkRay (mkVec3 0 0 0) (mkVec3 0 0 1))
              (mkPositions (mkVec3 0 0 1) (mkVec3 1 0 1) (mkVec3 0 1 1)) 1000) _ eq_refl)
    as (_ & L & _ & P).
  split; [exact L|exact P].
Defined.

Local Close Scope Q_scope.

(** ** Reads of the texture and blue-noise buffers *)

Local Open Scope Q_scope.

(** [fract] gives a value in [0, 1). *)
Lemma fract_range (q : Q) : 0 <= @fract Q QS.scalar q /\ @fract Q QS.scalar q < 1.
Proof.
  rewrite fract_Q. pose proof (Qfloor_le q) as A. pose proof (Qlt_floor q) as B.
  rewrite inject_Z_plus in B. change (inject_Z 1) with 1 in B. lra.
Qed.

(** The texel coordinate along an axis of [n] texels. *)
Lemma texel_coordinate (q : Q) (n : Z) :
  (0 < n < 2 ^ 32)%Z ->
  (0 <= @u32_of_f32 Q QS.scalar (@fract Q QS.scalar q * inject_Z n)%Q < n)%Z.
Proof.
  intros Hn. destruct (fract_range q) as [F0 F1].
  set (f := @fract Q QS.scalar q) in *.
  assert (Hn' : 0 < inject_Z n).
  { change 0 with (inject_Z 0). rewrite <- Zlt_Qlt. lia. }
  assert (P0 : 0 <= f * inject_Z n) by (apply Qmult_le_0_compat; lra).
  assert (P1 : f * inject_Z n < inject_Z n).
  { assert (A : 0 < (1 - f) * inject_Z n) by (apply Qmult_lt_0_compat; lra). lra. }
  change (@u32_of_f32 Q QS.scalar) with (fun q => B32.clampZ 0 (2 ^ 32 - 1) (QS.truncZ q)).
  cbv beta. rewrite truncZ_floor.
  assert (N0 : (0 <= Qnum (f * inject_Z n))%Z).
  { destruct (f * inject_Z n) as [a b]. unfold Qle in P0. simpl in *. lia. }
  apply Z.leb_le in N0. rewrite N0.
  assert (L0 : (0 <= Qfloor (f * inject_Z n))%Z).
  { change 0%Z with (Qfloor 0). apply Qfloor_resp_le. exact P0. }
  assert (L1 : (Qfloor (f * inject_Z n) < n)%Z).
  { rewrite Zlt_Qlt. eapply Qle_lt_trans; [apply Qfloor_le|exact P1]. }
  unfold B32.clampZ. lia.
Qed.

Local Close Scope Q_scope.

Local Open Scope Q_scope.

(** X7.  Texture reads stay inside the texture, in exact arithmetic: if
    every descriptor has a positive [u32] width and height and its
    [width * height] texels from [offset] on lie inside the texture buffer,
    then [evalTexture] with a descriptor index in range, at any UV, reads
    a texel of that descriptor's texture and returns its decoded value.
    On binary32 [fract] of a tiny negative number is 1, so the UV
    (-2^-30, -2^-30) addresses texel 6 of a 2x2 texture at offset 0, which
    has 4 texels. *)
Theorem evalTexture_in_bounds :
  (forall (ML : MathLib Q) (g : Deferred.Bindings Q) (idx : Z) (uv : vec2 Q),
      (Z.of_nat (length (Deferred.textures g)) <= u32_modulus)%Z ->
      (forall desc, desc ∈ Deferred.textureDescriptors g ->
         (0 < Deferred.width desc < u32_modulus
          /\ 0 < Deferred.height desc < u32_modulus
          /\ 0 <= Deferred.offset desc
          /\ Deferred.offset desc + Deferred.width desc * Deferred.height desc
             <= Z.of_nat (length (Deferred.textures g)))%Z) ->
      (0 <= idx < Z.of_nat (length (Deferred.textureDescriptors g)))%Z ->
      exists desc bgra,
        Deferred.textureDescriptors g !! Z.to_nat idx = Some desc
        /\ (Deferred.offset desc <= Deferred.texelIndex desc uv
            < Deferred.offset desc + Deferred.width desc * Deferred.height desc)%Z
        /\ Deferred.textures g !! Z.to_nat (Deferred.texelIndex desc uv) = Some bgra
        /\ Deferred.evalTexture g idx uv = Done (Deferred.decodeTexel bgra))
  /\ Deferred.texelIndex (Deferred.mkTextureDescriptor 2 2 0)
       (mkVec2 (b32 (- (1 # 1073741824))) (b32 (- (1 # 1073741824)))) = 6%Z.
Proof.
  split; [|vm_compute; reflexivity].
  intros ML g idx uv Hu Hdesc Hidx.
  destruct (lookup_in_range (Deferred.textureDescriptors g) idx Hidx) as [desc Ld].
  destruct (Hdesc desc (list_elem_of_lookup_2 _ _ _ Ld)) as (Hw & Hh & Ho & Hlen).
  assert (Hj := texel_coordinate (v2x uv) (Deferred.width desc) Hw).
  assert (Hi := texel_coordinate (v2y uv) (Deferred.height desc) Hh).
  assert (Hix : (Deferred.offset desc <= Deferred.texelIndex desc uv
            < Deferred.offset desc + Deferred.width desc * Deferred.height desc)%Z).
  { unfold Deferred.texelIndex.
    change (@f32_of_u32 Q QS.scalar) with inject_Z.
    change (@fmul Q QS.scalar) with Qmult.
    set (j := u32_of_f32 (fract (v2x uv) * inject_Z (Deferred.width desc))) in *.
    set (i := u32_of_f32 (fract (v2y uv) * inject_Z (Deferred.height desc))) in *.
    assert (B0 : (0 <= i * Deferred.width desc)%Z) by nia.
    assert (B1 : (i * Deferred.width desc + Deferred.width desc
                  <= Deferred.width desc * Deferred.height desc)%Z) by nia.
    unfold u32_add, u32_mul.
    rewrite (u32_small (i * Deferred.width desc)) by lia.
    rewrite (u32_small (i * Deferred.width desc + j)) by lia.
    rewrite u32_small by lia. lia. }
  assert (Hin : (0 <= Deferred.texelIndex desc uv
                 < Z.of_nat (length (Deferred.textures g)))%Z) by lia.
  destruct (lookup_in_range (Deferred.textures g) (Deferred.texelIndex desc uv) Hin)
    as [bgra Lb].
  exists desc, bgra. split; [exact Ld|]. split; [exact Hix|]. split; [exact Lb|].
  unfold Deferred.evalTexture. rewrite (lookupZ_Some _ _ _ Ld). cbn [obind].
  unfold Deferred.textureLookup. fold (Deferred.texelIndex desc uv).
  rewrite (lookupZ_Some _ _ _ Lb). reflexivity.
Qed.

Local Close Scope Q_scope.

Local Open Scope Q_scope.

Lemma evalTexture_in_bounds_witness :
  exists bgra,
    @Deferred.evalTexture _ QS.scalar q_mathlib_axis q_scene 0%Z
      (mkVec2 (- (7 # 3)) (11 # 4))%Q
    = Done (@Deferred.decodeTexel _ QS.scalar q_mathlib_axis bgra).
Proof.
  destruct (proj1 evalTexture_in_bounds q_mathlib_axis q_scene 0%Z
              (mkVec2 (- (7 # 3)) (11 # 4))%Q)
    as (desc & bgra & _ & _ & _ & E).
  - cbn. unfold u32_modulus. lia.
  - intros desc Hd. cbn in Hd. apply list_elem_of_singleton in Hd. subst desc.
    cbn. unfold u32_modulus. lia.
  - cbn. lia.
  - exists bgra. exact E.
Defined.

(** X8.  [animatedBlueNoise], in exact arithmetic, on a blue-noise
    texture of positive width and height whose [width * height] entries
    are in the buffer: the read is in range for every pixel, and both
    components of the sample lie in [0, 1).  The sample tiles across the
    screen with the period of the texture, and repeats in time with the
    period [frameCountCycle]. *)
Theorem animatedBlueNoise_in_range (g : Deferred.Bindings Q) (coord : Z * Z)
    (frameCount frameCountCycle : Z) :
  let bn := Deferred.blueNoise g in
  (0 < Deferred.bn_width bn)%Z -> (0 < Deferred.bn_height bn)%Z ->
  (Deferred.bn_width bn * Deferred.bn_height bn
   <= Z.of_nat (length (Deferred.bn_data bn)))%Z ->
  (Z.of_nat (length (Deferred.bn_data bn)) <= u32_modulus)%Z ->
  (exists s, Deferred.animatedBlueNoise g coord frameCount frameCountCycle = Done s
             /\ 0 <= v2x s /\ v2x s < 1 /\ 0 <= v2y s /\ v2y s < 1)
  /\ (forall a b : Z,
        Deferred.animatedBlueNoise g
          (fst coord + a * Deferred.bn_width bn, snd coord + b * Deferred.bn_height bn)%Z
          frameCount frameCountCycle
        = Deferred.animatedBlueNoise g coord frameCount frameCountCycle)
  /\ (forall c : Z,
        frameCountCycle <> 0%Z ->
        Deferred.animatedBlueNoise g coord (frameCount + c * frameCountCycle)
          frameCountCycle
        = Deferred.animatedBlueNoise g coord frameCount frameCountCycle).
Proof.
  intros bn Hw Hh Hlen Hu. split; [|split].
  - unfold Deferred.animatedBlueNoise. fold bn.
    pose proof (Z.mod_pos_bound (snd coord) (Deferred.bn_height bn) Hh) as By.
    pose proof (Z.mod_pos_bound (fst coord) (Deferred.bn_width bn) Hw) as Bx.
    set (y := (snd coord mod Deferred.bn_height bn)%Z) in *.
    set (x := (fst coord mod Deferred.bn_width bn)%Z) in *.
    assert (B0 : (0 <= y * Deferred.bn_width bn)%Z) by nia.
    assert (B1 : (y * Deferred.bn_width bn + Deferred.bn_width bn
                  <= Deferred.bn_width bn * Deferred.bn_height bn)%Z) by nia.
    unfold u32_add, u32_mul.
    rewrite (u32_small (y * Deferred.bn_width bn)) by lia.
    rewrite (u32_small (y * Deferred.bn_width bn + x)) by lia.
    assert (Hin : (0 <= y * Deferred.bn_width bn + x
                   < Z.of_nat (length (Deferred.bn_data bn)))%Z) by lia.
    destruct (lookup_in_range _ _ Hin) as [noise Ln].
    rewrite (lookupZ_Some _ _ _ Ln). cbn [obind].
    eexists. split; [reflexivity|]. cbn [v2x v2y].
    split; [apply fract_range|]. split; [apply fract_range|].
    split; apply fract_range.
  - intros a b. unfold Deferred.animatedBlueNoise. fold bn. cbn [fst snd].
    rewrite !Z.mod_add by lia. reflexivity.
  - intros c Hc. unfold Deferred.animatedBlueNoise.
    rewrite Z.mod_add by exact Hc. reflexivity.
Qed.

Local Close Scope Q_scope.

Lemma animatedBlueNoise_in_range_witness :
  exists s : vec2 Q,
    Deferred.animatedBlueNoise
      (Deferred.mkBindings 0
         (Deferred.mkSkyState (replicate 27 0%Q) (replicate 3 1%Q) (replicate 3 2%Q)
            (mkVec3 0 1 0)%Q)
         [] [] [] [] []
         (Deferred.mkBlueNoise 2 1 [mkVec2 (1 # 2) (1 # 4); mkVec2 (3 # 4) (1 # 8)]%Q))
      (5, 7) 3 (Z.shiftl 1 20) = Done s
    /\ (0 <= v2x s /\ v2x s < 1 /\ 0 <= v2y s /\ v2y s < 1)%Q.
Proof.
  apply (animatedBlueNoise_in_range
           (Deferred.mkBindings 0
              (Deferred.mkSkyState (replicate 27 0%Q) (replicate 3 1%Q) (replicate 3 2%Q)
                 (mkVec3 0 1 0)%Q)
              [] [] [] [] []
              (Deferred.mkBlueNoise 2 1 [mkVec2 (1 # 2) (1 # 4); mkVec2 (3 # 4) (1 # 8)]%Q))
           (5, 7) 3 (Z.shiftl 1 20)); cbn; unfold u32_modulus; lia.
Defined.

(** ** The queries of one pixel *)

Section Queries.
Context {F : Type} `{Scalar F} `{MathLib F} `{Bits F}.
Variable g : Deferred.Bindings F.

Lemma lightSample_query (fuel : nat) (u : vec2 F) (position normal albedo : vec3 F)
    (c : vec3 F) (evs : list (Deferred.Event (F:=F))) :
  Deferred.lightSample g fuel u position normal albedo = Done (c, evs) ->
  evs = [Deferred.EvShadowRay
           (mkRay position
              (Deferred.sampleSolarDiskDirection u Deferred.SOLAR_COS_THETA_MAX
                 (Deferred.sunDirection (Deferred.skyState g))))].
Proof.
  unfold Deferred.lightSample.
  destruct (Deferred.shadowRay _ _ _ _) as [vis| |]; cbn [obind]; try discriminate.
  intros E. inversion E. reflexivity.
Qed.

End Queries.

(** X9.  A pixel of [surfaceColor] makes exactly three scene queries,
    all from the one blue-noise sample [u] of the pixel and frame: a
    shadow ray from the primary position towards the sampled sun
    direction, the closest-hit query of the bounce ray from the primary
    position, and then either the sky along the bounce ray (when that
    escapes) or a shadow ray from the hit towards the same sun direction. *)
Theorem surfaceColor_queries :
  forall (F : Type) (S : Scalar F) (ML : MathLib F) (BT : Bits F)
         (g : Deferred.Bindings F) (fuel : nat) (coord : Z * Z)
         (primaryPos primaryNormal primaryAlbedo c : vec3 F)
         (evs : list (Deferred.Event (F:=F))),
    Deferred.surfaceColor g fuel coord primaryPos primaryNormal primaryAlbedo
      = Done (c, evs) ->
    exists u,
      Deferred.animatedBlueNoise g coord (Deferred.frameCount g) (Z.shiftl 1 20) = Done u
      /\ let sun := Deferred.sampleSolarDiskDirection u Deferred.SOLAR_COS_THETA_MAX
                      (Deferred.sunDirection (Deferred.skyState g)) in
         let ray := mkRay primaryPos (Deferred.evalImplicitLambertian u primaryNormal) in
         (exists hit,
             Deferred.rayIntersectBvh g fuel ray T_MAX Deferred.zeroIntersection
               = Done (false, hit)
             /\ evs = [Deferred.EvShadowRay (mkRay primaryPos sun);
                       Deferred.EvClosestHit ray;
                       Deferred.EvSky (direction ray)])
         \/ (exists hit,
               Deferred.rayIntersectBvh g fuel ray T_MAX Deferred.zeroIntersection
                 = Done (true, hit)
               /\ evs = [Deferred.EvShadowRay (mkRay primaryPos sun);
                         Deferred.EvClosestHit ray;
                         Deferred.EvShadowRay (mkRay (Deferred.p hit) sun)]).
Proof.
  intros F S ML BT g fuel coord primaryPos primaryNormal primaryAlbedo c evs E.
  unfold Deferred.surfaceColor in E.
  destruct (Deferred.animatedBlueNoise _ _ _ _) as [u| |]; cbn [obind] in E; try discriminate.
  exists u. split; [reflexivity|]. cbv zeta.
  destruct (Deferred.lightSample _ _ _ _ _ _) as [[lc lev]| |] eqn:El;
    cbn [obind fst snd] in E; try discriminate.
  apply lightSample_query in El. subst lev.
  change (Z.to_nat (Deferred.NUM_BOUNCES - 1)) with 1%nat in E.
  cbn [Deferred.bounceLoop Deferred.position Deferred.normal] in E.
  unfold Deferred.bounce in E.
  destruct (Deferred.rayIntersectBvh _ _ _ _ _) as [[did hit]| |]; cbn [obind fst snd] in E;
    try discriminate.
  destruct did.
  - right. exists hit. split; [reflexivity|].
    destruct (Deferred.evalTexture _ _ _) as [albedo| |]; cbn [obind fst snd] in E;
      try discriminate.
    cbn [Deferred.position Deferred.normal Deferred.albedo] in E.
    destruct (Deferred.lightSample _ _ _ _ _ _) as [[lc2 lev2]| |] eqn:El2;
      cbn [obind fst snd] in E; try discriminate.
    apply lightSample_query in El2. subst lev2.
    inversion E. reflexivity.
  - left. exists hit. split; [reflexivity|].
    cbn [obind fst snd] in E. inversion E. reflexivity.
Qed.

Lemma surfaceColor_queries_witness :
  exists c evs,
    @Deferred.surfaceColor _ B32.scalar b32_mathlib_sqrt_only B32.bits_ops
      scene 3 (0, 0) (b32_vec3 0.25 0.25 1) (b32_vec3 0 0 (-1)) (b32_vec3 0.5 0.5 0.5)
    = Done (c, evs) /\ length evs = 3%nat.
Proof.
  destruct (@Deferred.surfaceColor _ B32.scalar b32_mathlib_sqrt_only B32.bits_ops
      scene 3 (0, 0) (b32_vec3 0.25 0.25 1) (b32_vec3 0 0 (-1)) (b32_vec3 0.5 0.5 0.5))
    as [[c evs]| |] eqn:E; [|vm_compute in E; discriminate..].
  exists c, evs. split; [reflexivity|].
  destruct (surfaceColor_queries _ _ _ _ _ _ _ _ _ _ _ _ E)
    as (u & _ & [(hit & _ & ->)|(hit & _ & ->)]); reflexivity.
Defined.

(** ** Direct light *)

Local Open Scope Q_scope.

(** X10.  Direct light is all or nothing, in exact arithmetic, on a
    well-formed BVH whose boxes bound their triangles: [lightSample] makes
    one shadow-ray query from the position towards the sampled sun
    direction [l]; if some triangle is met along it before [T_MAX] the
    contribution is zero, and otherwise it is the solar radiance times the
    albedo, scaled by [FRAC_1_PI * dot(normal, l) * SOLAR_INV_PDF]. *)
Theorem lightSample_visibility :
  forall (ML : MathLib Q) (BT : Bits Q) (g : Deferred.Bindings Q) (t : BvhTree Q)
         (fuel : nat) (u : vec2 Q) (position normal albedo : vec3 Q),
    let l := Deferred.sampleSolarDiskDirection u Deferred.SOLAR_COS_THETA_MAX
               (Deferred.sunDirection (Deferred.skyState g)) in
    let shadow := mkRay position l in
    let sun := mkVec3 (aget (Deferred.solarRadiances (Deferred.skyState g)) 0)
                      (aget (Deferred.solarRadiances (Deferred.skyState g)) 1)
                      (aget (Deferred.solarRadiances (Deferred.skyState g)) 2) in
    WellFormedBvh (Deferred.bvhNodes g)
      (Z.of_nat (length (Deferred.positionAttributes g))) t ->
    boxesBound (Deferred.positionAttributes g) shadow t ->
    (treeSize t <= fuel)%nat ->
    exists c,
      Deferred.lightSample g fuel u position normal albedo
        = Done (c, [Deferred.EvShadowRay shadow])
      /\ (((exists k d, hitAt (Deferred.positionAttributes g) shadow T_MAX k d)
           /\ vec3_Qeq c (mkVec3 0 0 0))
          \/ ((forall k d, ~ hitAt (Deferred.positionAttributes g) shadow T_MAX k d)
              /\ vec3_Qeq c
                   (vscale (FRAC_1_PI * dot normal l * Deferred.SOLAR_INV_PDF)
                           (vmul sun albedo)))).
Proof.
  intros ML BT g t fuel u position normal albedo l shadow sun WF BB Hf.
  unfold Deferred.lightSample. fold l. fold shadow.
  destruct (shadowRay_cases g shadow T_MAX
              (layout_triangles_u32 _ _ _ (wf_layout _ _ _ WF)) t fuel WF BB Hf)
    as [[E Hit]|[E No]]; rewrite E; cbn [obind]; eexists; (split; [reflexivity|]).
  - left. split; [exact Hit|].
    unfold vec3_Qeq, vmuls, vmul, f0. cbn [vx vy vz]. simpl. repeat split; ring.
  - right. split; [exact No|].
    unfold vec3_Qeq, vmuls, vmul, vscale, f1, sun, Deferred.CHANNEL_R, Deferred.CHANNEL_G,
      Deferred.CHANNEL_B. cbn [vx vy vz]. simpl. repeat split; ring.
Qed.

Lemma lightSample_visibility_witness :
  exists c,
    @Deferred.lightSample _ QS.scalar q_mathlib_axis q_bits_none q_scene 1
      (mkVec2 (1 # 2) (1 # 2)) (mkVec3 (- (1 # 2)) (- (1 # 2)) 0) (mkVec3 0 0 1)
      (mkVec3 (1 # 2) (1 # 2) (1 # 2))
    = Done (c, [Deferred.EvShadowRay
                  (mkRay (mkVec3 (- (1 # 2)) (- (1 # 2)) 0)
                     (@Deferred.sampleSolarDiskDirection _ QS.scalar q_mathlib_axis
                        (mkVec2 (1 # 2) (1 # 2))
                        (@Deferred.SOLAR_COS_THETA_MAX _ QS.scalar q_mathlib_axis)
                        (mkVec3 1 1 1)))])
    /\ vec3_Qeq c (mkVec3 0 0 0).
Proof.
  destruct (lightSample_visibility q_mathlib_axis q_bits_none q_scene q_scene_tree 1%nat
              (mkVec2 (1 # 2) (1 # 2)) (mkVec3 (- (1 # 2)) (- (1 # 2)) 0) (mkVec3 0 0 1)
              (mkVec3 (1 # 2) (1 # 2) (1 # 2)))
    as (c & E & [[_ Z]|[No _]]).
  - constructor.
    + constructor; try (vm_compute; discriminate); try reflexivity.
      * cbn. repeat split; try lia; reflexivity.
      * cbn. lia.
    + intros k Hk. cbn in Hk. cbn. apply elem_of_seqZ. lia.
  - apply boxesBoundCheck_sound. vm_compute. reflexivity.
  - cbn. lia.
  - exists c. split; [exact E|exact Z].
  - exfalso. eapply (No 0%Z). split; [lia|]. exists q_scene_triangle.
    split; [reflexivity|]. split; [vm_compute; reflexivity|].
    split; vm_compute; reflexivity.
Defined.

Local Close Scope Q_scope.

(** ** Both queries return *)

(** X11.  Both BVH queries return for every ray, whatever the boxes are:
    on a BVH laid out as the traversal reads it, with one vertex record
    per triangle, [rayIntersectBvh] and [shadowRay] return a result (no read
    out of range) within as many loop iterations as the tree has nodes;
    more iterations allowed give the same result, and [shadowRay] returns
    0 or 1. *)
Theorem bvh_queries_terminate :
  forall (F : Type) (S : Scalar F) (ML : MathLib F) (BT : Bits F)
         (g : Deferred.Bindings F) (t : BvhTree F)
         (ray : Ray F) (rayTMax : F) (hit0 : Deferred.Intersection F) (fuel : nat),
    BvhLayout (Deferred.bvhNodes g)
      (Z.of_nat (length (Deferred.positionAttributes g))) t ->
    length (Deferred.vertexAttributes g) = length (Deferred.positionAttributes g) ->
    (treeSize t <= fuel)%nat ->
    (exists r, Deferred.rayIntersectBvh g fuel ray rayTMax hit0 = Done r
               /\ Deferred.rayIntersectBvh g (treeSize t) ray rayTMax hit0 = Done r)
    /\ (exists v, Deferred.shadowRay g fuel ray rayTMax = Done v
                  /\ Deferred.shadowRay g (treeSize t) ray rayTMax = Done v
                  /\ (v = f0 \/ v = f1)).
Proof.
  intros F S ML BT g t ray rayTMax hit0 fuel WF PA Hf.
  pose proof (layout_triangles_u32 _ _ _ WF) as HU.
  pose proof (layout_tree _ _ _ WF) as WT.
  split.
  - unfold Deferred.rayIntersectBvh.
    rewrite (traverseLoop_visit _ _ _ _ _ _ t _ fuel WF Hf).
    rewrite (traverseLoop_visit _ _ _ _ _ _ t _ (treeSize t) WF (Nat.le_refl _)).
    destruct (visit_total _ _ (rayAabbIntersector ray) Deferred.tmax
                (Deferred.closestLeaf g ray)
                (closestLeaf_total g ray PA HU) t WT
                (Deferred.mkBvhLocals false rayTMax hit0)) as [fl E].
    rewrite E. destruct fl; eexists; split; reflexivity.
  - unfold Deferred.shadowRay.
    rewrite (traverseLoop_visit _ _ _ _ _ _ t _ fuel WF Hf).
    rewrite (traverseLoop_visit _ _ _ _ _ _ t _ (treeSize t) WF (Nat.le_refl _)).
    destruct (shadow_visit_cases g ray rayTMax HU t WT) as [E|E]; rewrite E;
      eexists; (split; [reflexivity|]); (split; [reflexivity|]); auto.
Qed.

Lemma bvh_queries_terminate_witness :
  (exists r,
      @Deferred.rayIntersectBvh _ B32.scalar b32_mathlib_sqrt_only B32.bits_ops
        scene 5 scene_ray_down (b32 10000) scene_hit0 = Done r)
  /\ (exists v,
        @Deferred.shadowRay _ B32.scalar b32_mathlib_sqrt_only B32.bits_ops
          scene 5 scene_ray_down (b32 10000) = Done v).
Proof.
  destruct (bvh_queries_terminate B32.t B32.scalar b32_mathlib_sqrt_only B32.bits_ops
              scene scene_tree scene_ray_down (b32 10000) scene_hit0 5%nat)
    as [(r & E & _) (v & E' & _)].
  - exact scene_layout.
  - reflexivity.
  - cbn. lia.
  - split; eauto.
Defined.

(** ** Random numbers of the raytracer shader *)

Lemma u32_is_u32 (z : Z) : is_u32 (u32 z).
Proof. unfold is_u32, u32. apply Z.mod_pos_bound. reflexivity. Qed.

(** The bits of a [u32] from 32 on are clear, and conversely. *)
Lemma is_u32_high_bits (z : Z) (i : Z) : is_u32 z -> 32 <= i -> Z.testbit z i = false.
Proof.
  intros [Z0 Z1] Hi. destruct (Z.eq_dec z 0) as [->|Nz]; [apply Z.bits_0|].
  apply Z.bits_above_log2; [exact Z0|].
  assert (Z.log2 z < 32); [|lia]. apply Z.log2_lt_pow2; [lia|exact Z1].
Qed.

Lemma high_bits_is_u32 (z : Z) :
  0 <= z -> (forall i, 32 <= i -> Z.testbit z i = false) -> is_u32 z.
Proof.
  intros Z0 Hb. split; [exact Z0|].
  destruct (Z.eq_dec z 0) as [->|Nz]; [reflexivity|].
  destruct (Z.lt_ge_cases z u32_modulus) as [L|G]; [exact L|].
  assert (L2 : 32 <= Z.log2 z) by (apply Z.log2_le_pow2; [lia|exact G]).
  pose proof (Z.bit_log2 z ltac:(lia)) as B. rewrite (Hb _ L2) in B. discriminate.
Qed.

Lemma xor_is_u32 (a b : Z) : is_u32 a -> is_u32 b -> is_u32 (u32_xor a b).
Proof.
  intros A B. apply high_bits_is_u32.
  - apply Z.lxor_nonneg. destruct A, B. tauto.
  - intros i Hi. unfold u32_xor. rewrite Z.lxor_spec.
    now rewrite (is_u32_high_bits a i A Hi), (is_u32_high_bits b i B Hi).
Qed.

Lemma shr_is_u32 (a n : Z) : is_u32 a -> 0 <= n -> is_u32 (u32_shr a n).
Proof.
  intros A Hn. apply high_bits_is_u32.
  - apply Z.shiftr_nonneg. destruct A; assumption.
  - intros i Hi. unfold u32_shr. rewrite Z.shiftr_spec by lia.
    apply is_u32_high_bits; [exact A|lia].
Qed.

(** [x ^= x >> k] loses nothing. *)
Lemma xorshift_inj (k x y : Z) :
  0 < k -> is_u32 x -> is_u32 y ->
  u32_xor x (u32_shr x k) = u32_xor y (u32_shr y k) -> x = y.
Proof.
  intros Hk X Y E.
  assert (Hbits : forall n : nat, forall i, 32 - Z.of_nat n <= i ->
            Z.testbit x i = Z.testbit y i).
  { induction n as [|n IH]; intros i Hi.
    - rewrite (is_u32_high_bits x i X), (is_u32_high_bits y i Y) by lia. reflexivity.
    - destruct (Z.lt_ge_cases i 0) as [Neg|Pos].
      + now rewrite !Z.testbit_neg_r by exact Neg.
      + assert (B : Z.testbit (u32_xor x (u32_shr x k)) i
                    = Z.testbit (u32_xor y (u32_shr y k)) i) by now rewrite E.
        unfold u32_xor, u32_shr in B.
        rewrite !Z.lxor_spec, !Z.shiftr_spec in B by exact Pos.
        rewrite (IH (i + k)) in B by lia.
        destruct (Z.testbit x i), (Z.testbit y i), (Z.testbit y (i + k));
          simpl in B; congruence. }
  apply Z.bits_inj'. intros i Hi. apply (Hbits 32%nat). lia.
Qed.

(** [x += x << k], that is a multiplication by the odd number [1 + 2^k],
    loses nothing: [c'] is the inverse of [c] modulo [2^32]. *)
Lemma mul_inj (c c' a b : Z) :
  u32 (c * c') = 1 -> is_u32 a -> is_u32 b ->
  u32 (a * c) = u32 (b * c) -> a = b.
Proof.
  intros Hc A B E.
  assert (R : forall z, is_u32 z -> u32 (u32 (z * c) * c') = z).
  { intros z Hz. unfold u32 in *. rewrite Z.mul_mod_idemp_l by discriminate.
    rewrite <- Z.mul_assoc, <- Z.mul_mod_idemp_r, Hc, Z.mul_1_r by discriminate.
    apply Z.mod_small. exact Hz. }
  rewrite <- (R a A), <- (R b B), E. reflexivity.
Qed.

Lemma add_shl_mul (x k : Z) :
  0 <= k -> u32_add x (u32_shl x k) = u32 (x * (1 + 2 ^ k)).
Proof.
  intros Hk. unfold u32_add, u32_shl, u32.
  rewrite Z.shiftl_mul_pow2 by exact Hk.
  rewrite Z.add_mod_idemp_r by discriminate. f_equal. ring.
Qed.

Lemma jenkinsHash_is_u32 (x : Z) : is_u32 (Rng.jenkinsHash x).
Proof. unfold Rng.jenkinsHash, u32_add. apply u32_is_u32. Qed.

Lemma jenkinsHash_inj (a b : Z) :
  is_u32 a -> is_u32 b -> Rng.jenkinsHash a = Rng.jenkinsHash b -> a = b.
Proof.
  intros A B E. unfold Rng.jenkinsHash in E. cbv zeta in E.
  rewrite !add_shl_mul in E by lia.
  apply (mul_inj _ 1073709057) in E;
    [|reflexivity|apply xor_is_u32; [|apply shr_is_u32; [|lia]]; apply u32_is_u32..].
  apply xorshift_inj in E; [|lia|apply u32_is_u32..].
  apply (mul_inj _ 954437177) in E;
    [|reflexivity|apply xor_is_u32; [|apply shr_is_u32; [|lia]]; apply u32_is_u32..].
  apply xorshift_inj in E; [|lia|apply u32_is_u32..].
  apply (mul_inj _ 3222273025) in E; [exact E|reflexivity|exact A|exact B].
Qed.

Lemma xor_cancel_r (a b c : Z) : u32_xor a c = u32_xor b c -> a = b.
Proof.
  unfold u32_xor. intros E.
  assert (R : forall z, Z.lxor (Z.lxor z c) c = z).
  { intros z. now rewrite Z.lxor_assoc, Z.lxor_nilpotent, Z.lxor_0_r. }
  rewrite <- (R a), E. apply R.
Qed.

Lemma xor_cancel_l (a b c : Z) : u32_xor c a = u32_xor c b -> a = b.
Proof. unfold u32_xor. rewrite !(Z.lxor_comm c). apply xor_cancel_r. Qed.

(** [initRng] is [jenkinsHash] of the pixel's linear index mixed with the
    hash of the frame number. *)
Lemma initRng_unfold (pixel resolution : Z * Z) (frame : Z) :
  Rng.initRng pixel resolution frame
  = Rng.jenkinsHash
      (u32_xor (u32_add (u32_mul (fst pixel) 1) (u32_mul (snd pixel) (fst resolution)))
               (Rng.jenkinsHash frame)).
Proof. reflexivity. Qed.

(** The linear index of a pixel inside the resolution does not wrap. *)
Lemma pixel_index (W Hh a b : Z) :
  W * Hh <= u32_modulus -> 0 <= a < W -> 0 <= b < Hh ->
  u32_add (u32_mul a 1) (u32_mul b W) = a + b * W.
Proof.
  intros HM Ha Hb. unfold u32_add, u32_mul.
  assert (0 <= b * W) by nia. assert (b * W + W <= W * Hh) by nia.
  rewrite (u32_small (a * 1)), (u32_small (b * W)) by lia.
  rewrite Z.mul_1_r. apply u32_small. lia.
Qed.

(** X12.  [initRng] gives different pixels of a frame different RNG
    states, and one pixel different states in different frames: for a
    resolution with at most 2^32 pixels the state determines the pixel
    within the frame, and the frame for the pixel.  This rests on
    [jenkinsHash] being injective on [u32]: each of its five steps can be
    undone. *)
Theorem initRng_distinct (resolution : Z * Z) :
  0 < fst resolution -> 0 < snd resolution ->
  fst resolution * snd resolution <= u32_modulus ->
  (forall (frame : Z) (pixel pixel' : Z * Z),
      0 <= fst pixel < fst resolution -> 0 <= snd pixel < snd resolution ->
      0 <= fst pixel' < fst resolution -> 0 <= snd pixel' < snd resolution ->
      Rng.initRng pixel resolution frame = Rng.initRng pixel' resolution frame ->
      pixel = pixel')
  /\ (forall (pixel : Z * Z) (frame frame' : Z),
        is_u32 frame -> is_u32 frame' ->
        Rng.initRng pixel resolution frame = Rng.initRng pixel resolution frame' ->
        frame = frame')
  /\ (forall a b, is_u32 a -> is_u32 b -> Rng.jenkinsHash a = Rng.jenkinsHash b -> a = b).
Proof.
  destruct resolution as [W Hh]. cbn [fst snd]. intros HW HH HM.
  split; [|split].
  - intros frame [x y] [x' y'] Hx Hy Hx' Hy' E. cbn [fst snd] in Hx, Hy, Hx', Hy'.
    rewrite !initRng_unfold in E. cbn [fst snd] in E.
    rewrite (pixel_index W Hh x y HM Hx Hy), (pixel_index W Hh x' y' HM Hx' Hy') in E.
    assert (Hi : forall a b, 0 <= a < W -> 0 <= b < Hh -> is_u32 (a + b * W)).
    { intros a b Ha Hb. rewrite <- (pixel_index W Hh a b HM Ha Hb). apply u32_is_u32. }
    pose proof (jenkinsHash_inj _ _
                  (xor_is_u32 _ _ (Hi x y Hx Hy) (jenkinsHash_is_u32 frame))
                  (xor_is_u32 _ _ (Hi x' y' Hx' Hy') (jenkinsHash_is_u32 frame)) E) as E1.
    pose proof (xor_cancel_r _ _ _ E1) as E2.
    assert (y = y') by nia. subst y'. f_equal. lia.
  - intros pixel frame frame' Fr Fr' E. rewrite !initRng_unfold in E.
    set (i := u32_add _ _) in E.
    assert (Hi : is_u32 i) by apply u32_is_u32.
    pose proof (jenkinsHash_inj _ _
                  (xor_is_u32 _ _ Hi (jenkinsHash_is_u32 frame))
                  (xor_is_u32 _ _ Hi (jenkinsHash_is_u32 frame')) E) as E1.
    pose proof (xor_cancel_l _ _ _ E1) as E2.
    exact (jenkinsHash_inj _ _ Fr Fr' E2).
  - exact jenkinsHash_inj.
Qed.

Lemma initRng_distinct_witness :
  fst (640, 480) * snd (640, 480) <= u32_modulus
  /\ Rng.initRng (1, 2) (640, 480) 7 <> Rng.initRng (3, 4) (640, 480) 7.
Proof.
  split; [discriminate|]. intros E.
  apply (proj1 (initRng_distinct (640, 480) ltac:(reflexivity) ltac:(reflexivity)
                  ltac:(discriminate)) 7 (1, 2) (3, 4)) in E;
    [discriminate|cbn; lia..].
Defined.

Lemma add_inj (c a b : Z) :
  is_u32 a -> is_u32 b -> u32_add a c = u32_add b c -> a = b.
Proof.
  intros A B E.
  assert (R : forall z, is_u32 z -> u32 (u32_add z c - c) = z).
  { intros z Hz. unfold u32_add, u32. rewrite Zminus_mod_idemp_l.
    replace (z + c - c) with z by ring. apply Z.mod_small. exact Hz. }
  rewrite <- (R a A), <- (R b B), E. reflexivity.
Qed.

(** The shift of the first step of [rngNextInt] is read off the four
    highest bits, which the step leaves as they are. *)
Lemma rxs_shift (x : Z) :
  is_u32 x -> u32_add (u32_shr x 28) 4 = Z.shiftr x 28 + 4 /\ 0 <= Z.shiftr x 28 < 16.
Proof.
  intros [X0 X1].
  assert (B : 0 <= Z.shiftr x 28 < 16).
  { rewrite Z.shiftr_div_pow2 by lia. split.
    - apply Z.div_pos; [exact X0|reflexivity].
    - apply Z.div_lt_upper_bound; [reflexivity|exact X1]. }
  split; [|exact B]. unfold u32_add, u32_shr. apply u32_small. unfold u32_modulus. lia.
Qed.

Lemma rxs_high (x : Z) :
  is_u32 x ->
  Z.shiftr (u32_xor (u32_shr x (u32_add (u32_shr x 28) 4)) x) 28 = Z.shiftr x 28.
Proof.
  intros X. destruct (rxs_shift x X) as [-> B].
  apply Z.bits_inj'. intros i Hi. unfold u32_xor, u32_shr.
  rewrite !Z.shiftr_spec, Z.lxor_spec, Z.shiftr_spec by lia.
  rewrite (is_u32_high_bits x _ X) by lia. reflexivity.
Qed.

Lemma rxs_inj (x y : Z) :
  is_u32 x -> is_u32 y ->
  u32_xor (u32_shr x (u32_add (u32_shr x 28) 4)) x
  = u32_xor (u32_shr y (u32_add (u32_shr y 28) 4)) y -> x = y.
Proof.
  intros X Y E.
  assert (Hs : Z.shiftr x 28 = Z.shiftr y 28).
  { rewrite <- (rxs_high x X), <- (rxs_high y Y), E. reflexivity. }
  destruct (rxs_shift x X) as [Rx B]. destruct (rxs_shift y Y) as [Ry _].
  rewrite Rx, Ry, <- Hs in E. unfold u32_xor in E.
  rewrite !(Z.lxor_comm (u32_shr _ _)) in E.
  apply (xorshift_inj (Z.shiftr x 28 + 4)); [lia|exact X|exact Y|exact E].
Qed.

Lemma rngNextInt_is_u32 (s : Z) : is_u32 (Rng.rngNextInt s).
Proof.
  unfold Rng.rngNextInt. cbv zeta. apply xor_is_u32; [apply shr_is_u32; [|lia]|];
    apply u32_is_u32.
Qed.

Lemma rngNextInt_inj (a b : Z) :
  is_u32 a -> is_u32 b -> Rng.rngNextInt a = Rng.rngNextInt b -> a = b.
Proof.
  intros A B E. unfold Rng.rngNextInt in E. cbv zeta in E.
  unfold u32_xor in E. rewrite !(Z.lxor_comm (u32_shr _ 22)) in E.
  apply (xorshift_inj 22) in E; [|lia|apply u32_is_u32..].
  unfold u32_mul in E.
  assert (O : forall z, is_u32 (u32_add (u32_add z 747796405) 2891336453))
    by (intros z; apply u32_is_u32).
  assert (Hr : forall o, is_u32 o -> 0 <= u32_add (u32_shr o 28) 4).
  { intros o Ho. destruct (rxs_shift o Ho) as [-> ?]. lia. }
  apply (mul_inj _ 2897767785) in E;
    [|reflexivity|apply xor_is_u32; [apply shr_is_u32; auto|apply O]..].
  apply rxs_inj in E; [|apply O..].
  apply add_inj in E; [|apply u32_is_u32..].
  apply add_inj in E; assumption.
Qed.

Local Open Scope Q_scope.

(** X13.  [rngNextInt] is injective on [u32] and stays in [u32], so it
    permutes the 2^32 states: two streams never merge.  [rngNextFloat]
    advances the state by [rngNextInt] and, in exact arithmetic, returns a
    value in [0, 1] that is 1 exactly when the new state is [0xffffffff];
    on binary32 it does return 1: from the state 1171709518. *)
Theorem rngNextInt_permutes :
  (forall a b : Z, is_u32 a -> is_u32 b -> Rng.rngNextInt a = Rng.rngNextInt b -> a = b)
  /\ (forall s : Z, is_u32 (Rng.rngNextInt s))
  /\ (forall s : Z,
        snd (Rng.rngNextFloat (F:=Q) s) = Rng.rngNextInt s
        /\ 0 <= fst (Rng.rngNextFloat (F:=Q) s) <= 1
        /\ (fst (Rng.rngNextFloat (F:=Q) s) == 1 <-> Rng.rngNextInt s = 4294967295%Z))
  /\ Rng.rngNextFloat (F:=B32.t) 1171709518 = (b32 1, 4294967295%Z).
Proof.
  split; [exact rngNextInt_inj|]. split; [exact rngNextInt_is_u32|].
  split; [|vm_compute; reflexivity].
  intros s. unfold Rng.rngNextFloat. cbn [fst snd]. split; [reflexivity|].
  destruct (rngNextInt_is_u32 s) as [S0 S1]. unfold u32_modulus in S1.
  change (@fdiv Q QS.scalar) with Qdiv. change (@f32_of_u32 Q QS.scalar) with inject_Z.
  set (n := Rng.rngNextInt s) in *.
  assert (N0 : 0 <= inject_Z n) by (change 0 with (inject_Z 0); rewrite <- Zle_Qle; lia).
  assert (N1 : inject_Z n <= inject_Z 4294967295) by (rewrite <- Zle_Qle; lia).
  assert (D : 0 < inject_Z 4294967295) by reflexivity.
  split; [split|].
  - apply Qle_shift_div_l; [exact D|]. lra.
  - apply Qle_shift_div_r; [exact D|]. lra.
  - split.
    + intros E. apply inject_Z_injective.
      assert (E' : inject_Z n / inject_Z 4294967295 * inject_Z 4294967295 == inject_Z n).
      { field. }
      rewrite E in E'. lra.
    + intros E. rewrite E. reflexivity.
Qed.

Local Close Scope Q_scope.

Lemma rngNextInt_permutes_witness :
  is_u32 1 /\ is_u32 2 /\ Rng.rngNextInt 1 <> Rng.rngNextInt 2.
Proof.
  assert (U1 : is_u32 1) by (unfold is_u32, u32_modulus; lia).
  assert (U2 : is_u32 2) by (unfold is_u32, u32_modulus; lia).
  split; [exact U1|]. split; [exact U2|]. intros E.
  apply (proj1 rngNextInt_permutes 1 2 U1 U2) in E. discriminate.
Defined.

(** ** The compute kernel writes its own cell *)

Section EntryCells.
Context {F : Type} `{Scalar F} `{MathLib F} `{Bits F}.
Variable g : Deferred.Bindings F.
Variable uniforms : DeferredEntry.Uniforms F.
Variable gbuffer : DeferredEntry.GBuffer F.

Local Abbreviation W := (DeferredEntry.framebufferWidth uniforms).
Local Abbreviation Hh := (DeferredEntry.framebufferHeight uniforms).

Lemma sampleBufferIdx_in_range (id : Z * Z) :
  0 <= fst id < W -> 0 <= snd id < Hh -> W * Hh <= u32_modulus ->
  DeferredEntry.sampleBufferIdx uniforms id = snd id * W + fst id
  /\ 0 <= snd id * W + fst id < W * Hh.
Proof.
  intros Hx Hy HM. unfold DeferredEntry.sampleBufferIdx, u32_add, u32_mul.
  assert (0 <= snd id * W) by nia.
  assert (snd id * W + W <= W * Hh) by nia.
  rewrite (u32_small (snd id * W)) by lia. split; [apply u32_small|]; lia.
Qed.

End EntryCells.

(** X14.  An invocation of the compute kernel [main] writes its own
    cell of the sample buffer and nothing else.  Outside the framebuffer
    (x >= width or y >= height) it leaves the buffer as it is and makes no
    query.  Inside, with a buffer of at least width * height cells that a
    [u32] can index, the store does not go out of range: the invocation
    returns exactly when the shading of its pixel returns, the cell
    y * width + x < width * height holds the pixel's colour, the buffer
    keeps its length and every other cell its value.  Two invocations
    inside the framebuffer that write the same cell are the same pixel. *)
Theorem main_writes_own_cell :
  forall (F : Type) (S : Scalar F) (ML : MathLib F) (BT : Bits F)
         (g : Deferred.Bindings F) (uniforms : DeferredEntry.Uniforms F)
         (gbuffer : DeferredEntry.GBuffer F) (fuel : nat)
         (sampleBuffer : list (vec3 F)),
    let W := DeferredEntry.framebufferWidth uniforms in
    let Hh := DeferredEntry.framebufferHeight uniforms in
    (forall id : Z * Z,
        W <= fst id \/ Hh <= snd id ->
        DeferredEntry.main g uniforms gbuffer fuel id sampleBuffer = Done (sampleBuffer, []))
    /\ (W * Hh <= Z.of_nat (length sampleBuffer) ->
        Z.of_nat (length sampleBuffer) <= u32_modulus ->
        (forall id : Z * Z,
            0 <= fst id < W -> 0 <= snd id < Hh ->
            let k := snd id * W + fst id in
            0 <= k < W * Hh
            /\ DeferredEntry.main g uniforms gbuffer fuel id sampleBuffer
               = (let* shaded := DeferredEntry.pixelColor g uniforms gbuffer fuel id in
                  Done (<[Z.to_nat k := fst shaded]> sampleBuffer, snd shaded))
            /\ forall buffer evs,
                 DeferredEntry.main g uniforms gbuffer fuel id sampleBuffer
                   = Done (buffer, evs) ->
                 length buffer = length sampleBuffer
                 /\ forall j : nat, j <> Z.to_nat k -> buffer !! j = sampleBuffer !! j)
        /\ (forall id id' : Z * Z,
              0 <= fst id < W -> 0 <= snd id < Hh ->
              0 <= fst id' < W -> 0 <= snd id' < Hh ->
              DeferredEntry.sampleBufferIdx uniforms id
                = DeferredEntry.sampleBufferIdx uniforms id' ->
              id = id')).
Proof.
  intros F S ML BT g uniforms gbuffer fuel sampleBuffer W Hh. split.
  - intros id Hout. unfold DeferredEntry.main. fold W. fold Hh.
    destruct (W <=? fst id) eqn:A; [reflexivity|].
    destruct (Hh <=? snd id) eqn:B; [reflexivity|].
    apply Z.leb_gt in A, B. lia.
  - intros Hlen HM. split.
    + intros id Hx Hy k.
      destruct (sampleBufferIdx_in_range uniforms id Hx Hy ltac:(fold W Hh; lia)) as [Ek Bk].
      fold W Hh in Ek, Bk. fold k in Ek, Bk. split; [exact Bk|].
      assert (E : DeferredEntry.main g uniforms gbuffer fuel id sampleBuffer
               = (let* shaded := DeferredEntry.pixelColor g uniforms gbuffer fuel id in
                  Done (<[Z.to_nat k := fst shaded]> sampleBuffer, snd shaded))).
      { unfold DeferredEntry.main. fold W. fold Hh.
        destruct (W <=? fst id) eqn:A; [apply Z.leb_le in A; lia|].
        destruct (Hh <=? snd id) eqn:B; [apply Z.leb_le in B; lia|].
        cbn [orb]. rewrite Ek.
        destruct (DeferredEntry.pixelColor _ _ _ _ _) as [[c evs]| |]; cbn [obind fst snd];
          try reflexivity.
        unfold storeZ.
        destruct (Nat.ltb_spec (Z.to_nat k) (length sampleBuffer)) as [L|G]; [reflexivity|lia]. }
      split; [exact E|]. intros buffer evs Em. rewrite E in Em.
      destruct (DeferredEntry.pixelColor _ _ _ _ _) as [[c evs']| |]; cbn [obind fst snd] in Em;
        try discriminate.
      inversion Em; subst. split; [apply length_insert|].
      intros j Hj. apply list_lookup_insert_ne. congruence.
    + intros [x y] [x' y'] Hx Hy Hx' Hy' E. cbn [fst snd] in *.
      destruct (sampleBufferIdx_in_range uniforms (x, y) Hx Hy ltac:(fold W Hh; lia)) as [Ek _].
      destruct (sampleBufferIdx_in_range uniforms (x', y') Hx' Hy' ltac:(fold W Hh; lia))
        as [Ek' _].
      rewrite Ek, Ek' in E. cbn [fst snd] in E. fold W in E.
      assert (y = y') by nia. subst y'. f_equal. lia.
Qed.

Lemma main_writes_own_cell_witness :
  exists c evs,
    @DeferredEntry.main _ QS.scalar q_mathlib_axis q_bits_none q_scene q_uniforms
      q_gbuffer_sky 1 (1, 1) (replicate 4 (mkVec3 0 0 0)%Q)
    = Done (<[3%nat := c]> (replicate 4 (mkVec3 0 0 0)%Q), evs).
Proof.
  destruct (proj2 (main_writes_own_cell Q QS.scalar q_mathlib_axis q_bits_none q_scene
                     q_uniforms q_gbuffer_sky 1%nat (replicate 4 (mkVec3 0 0 0)%Q))
              ltac:(vm_compute; discriminate) ltac:(vm_compute; discriminate))
    as [Hcell _].
  destruct (Hcell (1, 1) ltac:(vm_compute; split; [discriminate|reflexivity])
              ltac:(vm_compute; split; [discriminate|reflexivity])) as (_ & E & _).
  rewrite E. eexists. eexists. reflexivity.
Defined.

(** ** The pixel an invocation shades *)

Local Open Scope Q_scope.

Lemma pixel_centre (x w : Z) (c : Q) :
  (0 <= x < u32_modulus)%Z -> (0 < w)%Z -> 0 <= c -> c < 1 ->
  @u32_of_f32 Q QS.scalar ((inject_Z x + c) / inject_Z w * inject_Z w) = x.
Proof.
  intros Hx Hw C0 C1.
  assert (Nw : ~ inject_Z w == 0).
  { intros E. unfold Qeq in E. simpl in E. lia. }
  assert (E : (inject_Z x + c) / inject_Z w * inject_Z w == c + inject_Z x)
    by (field; exact Nw).
  change (@u32_of_f32 Q QS.scalar) with (fun q => B32.clampZ 0 (2 ^ 32 - 1) (QS.truncZ q)).
  cbv beta. rewrite E, truncZ_floor.
  assert (P : 0 <= c + inject_Z x).
  { assert (0 <= inject_Z x) by (change 0 with (inject_Z 0); rewrite <- Zle_Qle; lia). lra. }
  assert (N0 : (0 <= Qnum (c + inject_Z x))%Z).
  { destruct (c + inject_Z x) as [a b]. unfold Qle in P. simpl in *. lia. }
  apply Z.leb_le in N0. rewrite N0, Qfloor_add_Z.
  assert (F0 : (0 <= Qfloor c)%Z) by (change 0%Z with (Qfloor 0); now apply Qfloor_resp_le).
  assert (F1 : (Qfloor c < 1)%Z).
  { rewrite Zlt_Qlt. eapply Qle_lt_trans; [apply Qfloor_le|exact C1]. }
  unfold B32.clampZ, u32_modulus in *. lia.
Qed.



Local Close Scope Q_scope.

(** ** The sky model's interpolation *)

Local Open Scope Q_scope.

(** X16.  The quintic interpolation of the sky model stays within its
    six control values, in exact arithmetic: for [t] in [0, 1], if the six
    table entries [data[0], data[stride], ..., data[5 * stride]] lie in
    [lo, hi] then so does the interpolated value; at [t = 0] it is the
    first entry and at [t = 1] the last. *)
Theorem quintic_convex (stride : nat) (data : nat -> Q) (t lo hi : Q) :
  0 <= t -> t <= 1 ->
  (forall i : nat, (i <= 5)%nat -> lo <= data (i * stride)%nat /\ data (i * stride)%nat <= hi) ->
  lo <= HwSkymodel.quintic stride data t
  /\ HwSkymodel.quintic stride data t <= hi
  /\ HwSkymodel.quintic stride data 0 == data 0%nat
  /\ HwSkymodel.quintic stride data 1 == data (5 * stride)%nat.
Proof.
  intros T0 T1 Hd.
  pose proof (Hd 0%nat ltac:(lia)) as [L0 U0].
  pose proof (Hd 1%nat ltac:(lia)) as [L1 U1].
  pose proof (Hd 2%nat ltac:(lia)) as [L2 U2].
  pose proof (Hd 3%nat ltac:(lia)) as [L3 U3].
  pose proof (Hd 4%nat ltac:(lia)) as [L4 U4].
  pose proof (Hd 5%nat ltac:(lia)) as [L5 U5].
  unfold HwSkymodel.quintic. cbv zeta.
  change (@fmul Q QS.scalar) with Qmult. change (@fadd Q QS.scalar) with Qplus.
  change (@fsub Q QS.scalar) with Qminus. change (@fconst Q QS.scalar) with (fun q : Q => q).
  cbv beta.
  replace (0 * stride)%nat with 0%nat in * by reflexivity.
  replace (1 * stride)%nat with stride in * by lia.
  set (d0 := data 0%nat) in *. set (d1 := data stride) in *.
  set (d2 := data (2 * stride)%nat) in *. set (d3 := data (3 * stride)%nat) in *.
  set (d4 := data (4 * stride)%nat) in *. set (d5 := data (5 * stride)%nat) in *.
  set (a := 1 - t).
  assert (A0 : 0 <= a) by (unfold a; lra).
  assert (A2 : 0 <= a * a) by (apply Qmult_le_0_compat; assumption).
  assert (A3 : 0 <= a * a * a) by (apply Qmult_le_0_compat; assumption).
  assert (A4 : 0 <= a * a * (a * a)) by (apply Qmult_le_0_compat; assumption).
  assert (A5 : 0 <= a * a * (a * a) * a) by (apply Qmult_le_0_compat; assumption).
  assert (T2 : 0 <= t * t) by (apply Qmult_le_0_compat; assumption).
  assert (T3 : 0 <= t * t * t) by (apply Qmult_le_0_compat; assumption).
  assert (T4 : 0 <= t * t * (t * t)) by (apply Qmult_le_0_compat; assumption).
  assert (T5 : 0 <= t * t * (t * t) * t) by (apply Qmult_le_0_compat; assumption).
  assert (W1 : 0 <= a * a * (a * a) * t) by (apply Qmult_le_0_compat; assumption).
  assert (W2 : 0 <= a * a * a * (t * t)) by (apply Qmult_le_0_compat; assumption).
  assert (W3 : 0 <= a * a * (t * t * t)) by (apply Qmult_le_0_compat; assumption).
  assert (W4 : 0 <= a * (t * t * (t * t))) by (apply Qmult_le_0_compat; assumption).
  assert (Sum : a * a * (a * a) * a + 5 * (a * a * (a * a) * t) + 10 * (a * a * a * (t * t))
                + 10 * (a * a * (t * t * t)) + 5 * (a * (t * t * (t * t)))
                + t * t * (t * t) * t == 1) by (unfold a; ring).
  assert (Low : forall b, b <= d0 -> b <= d1 -> b <= d2 -> b <= d3 -> b <= d4 -> b <= d5 ->
            b <= d0 * (a * a * (a * a) * a) + d1 * 5 * (a * a * (a * a)) * t
                 + d2 * 10 * (a * a * a) * (t * t) + d3 * 10 * (a * a) * (t * t * t)
                 + d4 * 5 * a * (t * t * (t * t)) + d5 * (t * t * (t * t) * t)).
  { intros b B0 B1 B2 B3 B4 B5.
    assert (K0 : 0 <= (d0 - b) * (a * a * (a * a) * a)) by (apply Qmult_le_0_compat; lra).
    assert (K1 : 0 <= (d1 - b) * (a * a * (a * a) * t)) by (apply Qmult_le_0_compat; lra).
    assert (K2 : 0 <= (d2 - b) * (a * a * a * (t * t))) by (apply Qmult_le_0_compat; lra).
    assert (K3 : 0 <= (d3 - b) * (a * a * (t * t * t))) by (apply Qmult_le_0_compat; lra).
    assert (K4 : 0 <= (d4 - b) * (a * (t * t * (t * t)))) by (apply Qmult_le_0_compat; lra).
    assert (K5 : 0 <= (d5 - b) * (t * t * (t * t) * t)) by (apply Qmult_le_0_compat; lra).
    assert (E : d0 * (a * a * (a * a) * a) + d1 * 5 * (a * a * (a * a)) * t
                 + d2 * 10 * (a * a * a) * (t * t) + d3 * 10 * (a * a) * (t * t * t)
                 + d4 * 5 * a * (t * t * (t * t)) + d5 * (t * t * (t * t) * t) - b
                == (d0 - b) * (a * a * (a * a) * a) + 5 * ((d1 - b) * (a * a * (a * a) * t))
                   + 10 * ((d2 - b) * (a * a * a * (t * t)))
                   + 10 * ((d3 - b) * (a * a * (t * t * t)))
                   + 5 * ((d4 - b) * (a * (t * t * (t * t))))
                   + (d5 - b) * (t * t * (t * t) * t)
                   + b * (a * a * (a * a) * a + 5 * (a * a * (a * a) * t)
                          + 10 * (a * a * a * (t * t)) + 10 * (a * a * (t * t * t))
                          + 5 * (a * (t * t * (t * t))) + t * t * (t * t) * t - 1)) by ring.
    rewrite Sum in E. lra. }
  assert (Up : forall b, d0 <= b -> d1 <= b -> d2 <= b -> d3 <= b -> d4 <= b -> d5 <= b ->
            d0 * (a * a * (a * a) * a) + d1 * 5 * (a * a * (a * a)) * t
                 + d2 * 10 * (a * a * a) * (t * t) + d3 * 10 * (a * a) * (t * t * t)
                 + d4 * 5 * a * (t * t * (t * t)) + d5 * (t * t * (t * t) * t) <= b).
  { intros b B0 B1 B2 B3 B4 B5.
    assert (K0 : 0 <= (b - d0) * (a * a * (a * a) * a)) by (apply Qmult_le_0_compat; lra).
    assert (K1 : 0 <= (b - d1) * (a * a * (a * a) * t)) by (apply Qmult_le_0_compat; lra).
    assert (K2 : 0 <= (b - d2) * (a * a * a * (t * t))) by (apply Qmult_le_0_compat; lra).
    assert (K3 : 0 <= (b - d3) * (a * a * (t * t * t))) by (apply Qmult_le_0_compat; lra).
    assert (K4 : 0 <= (b - d4) * (a * (t * t * (t * t)))) by (apply Qmult_le_0_compat; lra).
    assert (K5 : 0 <= (b - d5) * (t * t * (t * t) * t)) by (apply Qmult_le_0_compat; lra).
    assert (E : b - (d0 * (a * a * (a * a) * a) + d1 * 5 * (a * a * (a * a)) * t
                 + d2 * 10 * (a * a * a) * (t * t) + d3 * 10 * (a * a) * (t * t * t)
                 + d4 * 5 * a * (t * t * (t * t)) + d5 * (t * t * (t * t) * t))
                == (b - d0) * (a * a * (a * a) * a) + 5 * ((b - d1) * (a * a * (a * a) * t))
                   + 10 * ((b - d2) * (a * a * a * (t * t)))
                   + 10 * ((b - d3) * (a * a * (t * t * t)))
                   + 5 * ((b - d4) * (a * (t * t * (t * t))))
                   + (b - d5) * (t * t * (t * t) * t)
                   - b * (a * a * (a * a) * a + 5 * (a * a * (a * a) * t)
                          + 10 * (a * a * a * (t * t)) + 10 * (a * a * (t * t * t))
                          + 5 * (a * (t * t * (t * t))) + t * t * (t * t) * t - 1)) by ring.
    rewrite Sum in E. lra. }
  split; [apply Low; assumption|]. split; [apply Up; assumption|].
  split; ring.
Qed.

Lemma quintic_convex_witness :
  1 <= HwSkymodel.quintic 9 (fun i => inject_Z (Z.of_nat (i / 9)) + 1) (1 # 3)
  /\ HwSkymodel.quintic 9 (fun i => inject_Z (Z.of_nat (i / 9)) + 1) (1 # 3) <= 6.
Proof.
  destruct (quintic_convex 9 (fun i => inject_Z (Z.of_nat (i / 9)) + 1) (1 # 3) 1 6)
    as (L & U & _).
  - discriminate.
  - discriminate.
  - intros i Hi.
    assert (C : i = 0%nat \/ i = 1%nat \/ i = 2%nat \/ i = 3%nat \/ i = 4%nat \/ i = 5%nat)
      by lia.
    destruct C as [->|[->|[->|[->|[->| ->]]]]]; split; vm_compute; discriminate.
  - split; assumption.
Defined.

Local Close Scope Q_scope.

(** ** What [skyStateNew] writes and what it reads *)

Section SkyWrites.
Context {F : Type} `{Scalar F} `{MathLib F}.

Lemma agreeBelow_start (l1 l2 : list F) : length l1 = length l2 -> agreeBelow 0 l1 l2.
Proof. intros L. split; [exact L|]. intros j Hj. lia. Qed.

Lemma insert_agree (k : nat) (v : F) (l1 l2 : list F) :
  agreeBelow k l1 l2 -> agreeBelow (S k) (<[k := v]> l1) (<[k := v]> l2).
Proof.
  intros [L A]. split; [rewrite !length_insert; exact L|].
  intros j Hj. destruct (Nat.eq_dec j k) as [->|Ne].
  - destruct (Nat.lt_ge_cases k (length l1)) as [Lt|Ge].
    + rewrite !list_lookup_insert_eq by lia. reflexivity.
    + rewrite !lookup_ge_None_2 by (rewrite length_insert; lia). reflexivity.
  - rewrite !list_lookup_insert_ne by congruence. apply A. lia.
Qed.

Lemma agreeBelow_all (k : nat) (l1 l2 : list F) :
  length l1 = k -> agreeBelow k l1 l2 -> l1 = l2.
Proof.
  intros L [L' A]. apply list_eq. intros j.
  destruct (Nat.lt_ge_cases j k) as [Lt|Ge]; [now apply A|].
  rewrite !lookup_ge_None_2 by lia. reflexivity.
Qed.

Lemma initParamsLoop_agree (base : nat) (p0 p1 p2 p3 : nat -> F) (s0 s1 s2 s3 t : F)
    (n : nat) :
  forall (i : nat) (l1 l2 : list F),
    agreeBelow (base + i) l1 l2 ->
    agreeBelow (base + i + n)
      (HwSkymodel.initParamsLoop n i l1 base p0 p1 p2 p3 s0 s1 s2 s3 t)
      (HwSkymodel.initParamsLoop n i l2 base p0 p1 p2 p3 s0 s1 s2 s3 t).
Proof.
  induction n as [|n IH]; intros i l1 l2 A; cbn [HwSkymodel.initParamsLoop].
  - rewrite Nat.add_0_r. exact A.
  - replace (base + i + S n)%nat with (base + S i + n)%nat by lia.
    apply IH. rewrite Nat.add_succ_r. apply insert_agree. exact A.
Qed.

Lemma initParams_agree (base : nat) (data : nat -> F) (turbidity albedo t : F)
    (l1 l2 : list F) :
  agreeBelow base l1 l2 ->
  agreeBelow (base + 9)
    (HwSkymodel.initParams l1 base data turbidity albedo t)
    (HwSkymodel.initParams l2 base data turbidity albedo t).
Proof.
  intros A. unfold HwSkymodel.initParams. cbv zeta.
  replace (base + 9)%nat with (base + 0 + 9)%nat by lia.
  apply initParamsLoop_agree. rewrite Nat.add_0_r. exact A.
Qed.

Lemma initParams_length (base : nat) (data : nat -> F) (turbidity albedo t : F)
    (l : list F) :
  length (HwSkymodel.initParams l base data turbidity albedo t) = length l.
Proof.
  unfold HwSkymodel.initParams. cbv zeta. cbn [HwSkymodel.initParamsLoop].
  now rewrite !length_insert.
Qed.

Lemma initRadiances_agree (base : nat) (data : nat -> F) (turbidity albedo t : F)
    (l1 l2 : list F) :
  agreeBelow base l1 l2 ->
  agreeBelow (S base)
    (HwSkymodel.initRadiances l1 base data turbidity albedo t)
    (HwSkymodel.initRadiances l2 base data turbidity albedo t).
Proof. intros A. unfold HwSkymodel.initRadiances. cbv zeta. now apply insert_agree. Qed.

Lemma initRadiances_length (base : nat) (data : nat -> F) (turbidity albedo t : F)
    (l : list F) :
  length (HwSkymodel.initRadiances l base data turbidity albedo t) = length l.
Proof. unfold HwSkymodel.initRadiances. cbv zeta. apply length_insert. Qed.

End SkyWrites.

(** X17.  A successful [skyStateNew] initialises the whole state: with
    27 parameter cells and 3 radiance cells, the result does not depend on
    what the caller's [SkyState] held before, and the state written has 27
    and 3 cells again. *)
Theorem skyStateNew_overwrites :
  forall (F : Type) (S : Scalar F) (ML : MathLib F)
         (paramsR paramsG paramsB radiancesR radiancesG radiancesB : nat -> F)
         (p : HwSkymodel.SkyParams F) (st st' : HwSkymodel.SkyState F),
    length (HwSkymodel.params st) = 27%nat ->
    length (HwSkymodel.radiances st) = 3%nat ->
    length (HwSkymodel.params st') = 27%nat ->
    length (HwSkymodel.radiances st') = 3%nat ->
    fst (HwSkymodel.skyStateNew paramsR paramsG paramsB
           radiancesR radiancesG radiancesB p st) = HwSkymodel.SkyStateResult_Success ->
    HwSkymodel.skyStateNew paramsR paramsG paramsB radiancesR radiancesG radiancesB p st'
    = HwSkymodel.skyStateNew paramsR paramsG paramsB radiancesR radiancesG radiancesB p st
    /\ length (HwSkymodel.params
                 (snd (HwSkymodel.skyStateNew paramsR paramsG paramsB
                         radiancesR radiancesG radiancesB p st))) = 27%nat
    /\ length (HwSkymodel.radiances
                 (snd (HwSkymodel.skyStateNew paramsR paramsG paramsB
                         radiancesR radiancesG radiancesB p st))) = 3%nat.
Proof.
  intros F S ML pR pG pB rR rG rB p st st' Lp Lr Lp' Lr'.
  unfold HwSkymodel.skyStateNew. cbv zeta.
  destruct (_ || _); [discriminate|]. destruct (_ || _); [discriminate|].
  destruct (_ || _ || _); [discriminate|]. intros _.
  cbn [fst snd HwSkymodel.params HwSkymodel.radiances].
  set (t := fpow _ _).
  rewrite !initParams_length, !initRadiances_length.
  split; [|split; assumption]. f_equal. f_equal.
  - apply (agreeBelow_all 27); [now rewrite !initParams_length|].
    apply (initParams_agree 18), (initParams_agree 9), (initParams_agree 0).
    apply agreeBelow_start. congruence.
  - apply (agreeBelow_all 3); [now rewrite !initRadiances_length|].
    apply (initRadiances_agree 2), (initRadiances_agree 1), (initRadiances_agree 0).
    apply agreeBelow_start. congruence.
Qed.

Lemma skyStateNew_overwrites_witness :
  b32_skyStateNew (b32_skyParams 0.7853982 3 0.3 0.3 0.3)
    (HwSkymodel.mkSkyState (replicate 27 (b32 7)) (replicate 3 (b32 9)))
  = b32_skyStateNew (b32_skyParams 0.7853982 3 0.3 0.3 0.3) emptySkyState.
Proof.
  apply (skyStateNew_overwrites B32.t B32.scalar b32_mathlib_sqrt_only
           zeroTable zeroTable zeroTable zeroTable zeroTable zeroTable
           (b32_skyParams 0.7853982 3 0.3 0.3 0.3) emptySkyState
           (HwSkymodel.mkSkyState (replicate 27 (b32 7)) (replicate 3 (b32 9))));
    vm_compute; reflexivity.
Defined.

Section SkyReads.
Context {F : Type} `{Scalar F} `{MathLib F}.

Lemma quintic_ext (stride : nat) (d d' : nat -> F) (t : F) :
  (forall k : nat, (k <= 5)%nat -> d (k * stride)%nat = d' (k * stride)%nat) ->
  HwSkymodel.quintic stride d t = HwSkymodel.quintic stride d' t.
Proof.
  intros E. unfold HwSkymodel.quintic. cbv zeta.
  pose proof (E 0%nat ltac:(lia)) as E0. pose proof (E 1%nat ltac:(lia)) as E1.
  rewrite Nat.mul_0_l in E0. rewrite Nat.mul_1_l in E1.
  rewrite E0, E1, (E 2%nat), (E 3%nat), (E 4%nat), (E 5%nat) by lia. reflexivity.
Qed.

Lemma initParamsLoop_ext (base : nat) (p0 p1 p2 p3 q0 q1 q2 q3 : nat -> F)
    (s0 s1 s2 s3 t : F) (n : nat) :
  forall (i : nat) (l : list F),
    (forall j k : nat, (i <= j < i + n)%nat -> (k <= 5)%nat ->
       p0 (j + k * 9)%nat = q0 (j + k * 9)%nat /\ p1 (j + k * 9)%nat = q1 (j + k * 9)%nat
       /\ p2 (j + k * 9)%nat = q2 (j + k * 9)%nat /\ p3 (j + k * 9)%nat = q3 (j + k * 9)%nat) ->
    HwSkymodel.initParamsLoop n i l base p0 p1 p2 p3 s0 s1 s2 s3 t
    = HwSkymodel.initParamsLoop n i l base q0 q1 q2 q3 s0 s1 s2 s3 t.
Proof.
  induction n as [|n IH]; intros i l E; cbn [HwSkymodel.initParamsLoop]; [reflexivity|].
  unfold HwSkymodel.quintic_9.
  rewrite (quintic_ext 9 (ptr_add p0 i) (ptr_add q0 i)),
          (quintic_ext 9 (ptr_add p1 i) (ptr_add q1 i)),
          (quintic_ext 9 (ptr_add p2 i) (ptr_add q2 i)),
          (quintic_ext 9 (ptr_add p3 i) (ptr_add q3 i));
    try (intros k Hk; unfold ptr_add; apply (E i k); lia).
  apply IH. intros j k Hj Hk. apply E; lia.
Qed.

(** For a turbidity whose integer part is between 1 and 10, [initParams]
    reads its table below entry 1080 only. *)
Lemma initParams_ext (l : list F) (base : nat) (data data' : nat -> F)
    (turbidity albedo t : F) :
  (1 <= HwSkymodel.size_t_of_float turbidity <= 10)%nat ->
  (forall k : nat, (k < 1080)%nat -> data k = data' k) ->
  HwSkymodel.initParams l base data turbidity albedo t
  = HwSkymodel.initParams l base data' turbidity albedo t.
Proof.
  intros Ht E. unfold HwSkymodel.initParams. cbv zeta.
  apply initParamsLoop_ext. intros j k Hj Hk. unfold ptr_add.
  destruct (HwSkymodel.size_t_of_float turbidity <? 9)%nat eqn:C;
    [apply Nat.ltb_lt in C|apply Nat.ltb_ge in C];
    repeat split; apply E; lia.
Qed.

(** And [initRadiances] below entry 120 only. *)
Lemma initRadiances_ext (l : list F) (base : nat) (data data' : nat -> F)
    (turbidity albedo t : F) :
  (1 <= HwSkymodel.size_t_of_float turbidity <= 10)%nat ->
  (forall k : nat, (k < 120)%nat -> data k = data' k) ->
  HwSkymodel.initRadiances l base data turbidity albedo t
  = HwSkymodel.initRadiances l base data' turbidity albedo t.
Proof.
  intros Ht E. unfold HwSkymodel.initRadiances, HwSkymodel.quintic_1. cbv zeta.
  set (ti := HwSkymodel.size_t_of_float turbidity) in *.
  assert (Hmax : ((if (ti <? 9)%nat then ti else 9) <= 9)%nat)
    by (destruct (Nat.ltb_spec ti 9); lia).
  set (tmax := if (ti <? 9)%nat then ti else 9%nat) in *.
  rewrite (quintic_ext 1 (ptr_add data (6 * (ti - 1))) (ptr_add data' (6 * (ti - 1)))),
          (quintic_ext 1 (ptr_add data (6 * tmax)) (ptr_add data' (6 * tmax))),
          (quintic_ext 1 (ptr_add data (6 * 10 + 6 * (ti - 1)))
                         (ptr_add data' (6 * 10 + 6 * (ti - 1)))),
          (quintic_ext 1 (ptr_add data (6 * 10 + 6 * tmax))
                         (ptr_add data' (6 * 10 + 6 * tmax)));
    try (intros k Hk; unfold ptr_add; apply E; lia).
  reflexivity.
Qed.

Lemma skyStateNew_ext (pR pG pB rR rG rB pR' pG' pB' rR' rG' rB' : nat -> F)
    (p : HwSkymodel.SkyParams F) (st : HwSkymodel.SkyState F) :
  (1 <= HwSkymodel.size_t_of_float (HwSkymodel.turbidity p) <= 10)%nat ->
  (forall k : nat, (k < 1080)%nat -> pR k = pR' k /\ pG k = pG' k /\ pB k = pB' k) ->
  (forall k : nat, (k < 120)%nat -> rR k = rR' k /\ rG k = rG' k /\ rB k = rB' k) ->
  HwSkymodel.skyStateNew pR pG pB rR rG rB p st
  = HwSkymodel.skyStateNew pR' pG' pB' rR' rG' rB' p st.
Proof.
  intros Ht Ep Er. unfold HwSkymodel.skyStateNew. cbv zeta.
  destruct (_ || _); [reflexivity|]. destruct (_ || _); [reflexivity|].
  destruct (_ || _ || _); [reflexivity|].
  set (t := fpow _ _).
  rewrite (initParams_ext _ 0 pR pR'), (initParams_ext _ 9 pG pG'),
          (initParams_ext _ (9 * 2) pB pB'),
          (initRadiances_ext _ 0 rR rR'), (initRadiances_ext _ 1 rG rG'),
          (initRadiances_ext _ 2 rB rB');
    try exact Ht; try (intros k Hk; apply (Ep k Hk)); try (intros k Hk; apply (Er k Hk)).
  reflexivity.
Qed.

End SkyReads.

Local Open Scope Q_scope.

(** A turbidity that passes the validation has an integer part between 1
    and 10. *)
Lemma validated_turbidity (q : Q) :
  (fltb q (fconst 1) || fgtb q (fconst 10)) = false ->
  (1 <= HwSkymodel.size_t_of_float q <= 10)%nat.
Proof.
  intros V. apply orb_false_iff in V as [V1 V2]. unfold fgtb in V2.
  apply Qltb_ge in V1, V2.
  change (@fconst Q QS.scalar 1) with 1 in V1.
  change (@fconst Q QS.scalar 10) with 10 in V2.
  unfold HwSkymodel.size_t_of_float.
  change (@u32_of_f32 Q QS.scalar q) with (B32.clampZ 0 (2 ^ 32 - 1) (QS.truncZ q)).
  rewrite truncZ_floor.
  assert (N0 : (0 <= Qnum q)%Z).
  { destruct q as [a b]. unfold Qle in V1. simpl in *. lia. }
  apply Z.leb_le in N0. rewrite N0.
  assert (L : (1 <= Qfloor q)%Z) by (change 1%Z with (Qfloor 1); now apply Qfloor_resp_le).
  assert (U : (Qfloor q <= 10)%Z) by (change 10%Z with (Qfloor 10); now apply Qfloor_resp_le).
  unfold B32.clampZ. lia.
Qed.

(** X18.  [skyStateNew] reads its six tables within their bounds: the
    result depends on the first 1080 entries of each parameter table and
    the first 120 entries of each radiance table only.  This holds for
    every scalar implementation when the integer part of the turbidity is
    between 1 and 10, and in exact arithmetic for all inputs, since the
    validation admits only turbidities from 1 to 10. *)
Theorem skyStateNew_reads_tables :
  (forall (F : Type) (S : Scalar F) (ML : MathLib F)
          (pR pG pB rR rG rB pR' pG' pB' rR' rG' rB' : nat -> F)
          (p : HwSkymodel.SkyParams F) (st : HwSkymodel.SkyState F),
      (1 <= HwSkymodel.size_t_of_float (HwSkymodel.turbidity p) <= 10)%nat ->
      (forall k : nat, (k < 1080)%nat -> pR k = pR' k /\ pG k = pG' k /\ pB k = pB' k) ->
      (forall k : nat, (k < 120)%nat -> rR k = rR' k /\ rG k = rG' k /\ rB k = rB' k) ->
      HwSkymodel.skyStateNew pR pG pB rR rG rB p st
      = HwSkymodel.skyStateNew pR' pG' pB' rR' rG' rB' p st)
  /\ (forall (ML : MathLib Q)
             (pR pG pB rR rG rB pR' pG' pB' rR' rG' rB' : nat -> Q)
             (p : HwSkymodel.SkyParams Q) (st : HwSkymodel.SkyState Q),
        (forall k : nat, (k < 1080)%nat -> pR k = pR' k /\ pG k = pG' k /\ pB k = pB' k) ->
        (forall k : nat, (k < 120)%nat -> rR k = rR' k /\ rG k = rG' k /\ rB k = rB' k) ->
        HwSkymodel.skyStateNew pR pG pB rR rG rB p st
        = HwSkymodel.skyStateNew pR' pG' pB' rR' rG' rB' p st).
Proof.
  split.
  - intros F S ML pR pG pB rR rG rB pR' pG' pB' rR' rG' rB' p st.
    apply skyStateNew_ext.
  - intros ML pR pG pB rR rG rB pR' pG' pB' rR' rG' rB' p st Ep Er.
    destruct (fltb (HwSkymodel.turbidity p) (fconst 1)
              || fgtb (HwSkymodel.turbidity p) (fconst 10)) eqn:V.
    + unfold HwSkymodel.skyStateNew. cbv zeta. unfold fgtb in V |- *. rewrite V.
      destruct (_ || _); reflexivity.
    + apply skyStateNew_ext; [exact (validated_turbidity _ V)|exact Ep|exact Er].
Qed.

Local Close Scope Q_scope.

Lemma skyStateNew_reads_tables_witness :
  @HwSkymodel.skyStateNew _ B32.scalar b32_mathlib_sqrt_only
    zeroTable zeroTable zeroTable zeroTable zeroTable zeroTable
    (b32_skyParams 0.7853982 3 0.3 0.3 0.3) emptySkyState
  = @HwSkymodel.skyStateNew _ B32.scalar b32_mathlib_sqrt_only
      (fun k => if (k <? 1080)%nat then zeroTable k else b32 1)
      (fun k => if (k <? 1080)%nat then zeroTable k else b32 1)
      (fun k => if (k <? 1080)%nat then zeroTable k else b32 1)
      (fun k => if (k <? 120)%nat then zeroTable k else b32 1)
      (fun k => if (k <? 120)%nat then zeroTable k else b32 1)
      (fun k => if (k <? 120)%nat then zeroTable k else b32 1)
      (b32_skyParams 0.7853982 3 0.3 0.3 0.3) emptySkyState.
Proof.
  apply (proj1 skyStateNew_reads_tables).
  - vm_compute. lia.
  - intros k Hk. apply Nat.ltb_lt in Hk. rewrite Hk. repeat split; reflexivity.
  - intros k Hk. apply Nat.ltb_lt in Hk. rewrite Hk. repeat split; reflexivity.
Defined.

(** ** The window of render-pass durations *)

Lemma onTimestampsMapped_window (success : bool) (b e : Z) (durations : list Z) :
  (length durations <= 30)%nat ->
  let d := durations ++ (if success then [RenderStats.u64 (e - b)] else []) in
  RenderStats.onTimestampsMapped success b e durations = drop (length d - 30) d.
Proof.
  intros L. unfold RenderStats.onTimestampsMapped. destruct success; cbv zeta.
  - rewrite length_app. cbn [length].
    destruct (Nat.ltb_spec 30 (length durations + 1)) as [G|G].
    + replace (length durations + 1 - 30)%nat with 1%nat by lia. reflexivity.
    + replace (length durations + 1 - 30)%nat with 0%nat by lia. reflexivity.
  - rewrite app_nil_r. replace (length durations - 30)%nat with 0%nat by lia. reflexivity.
Qed.

Lemma drop_window (l m : list Z) :
  let d := drop (length l - 30) l ++ m in
  drop (length d - 30) d = drop (length (l ++ m) - 30) (l ++ m).
Proof.
  cbv zeta. rewrite <- (drop_app_le l m (length l - 30)) by lia.
  rewrite drop_drop, length_drop, !length_app. f_equal. lia.
Qed.

(** X19.  The renderer keeps the durations of the last 30 render passes:
    starting from at most 30 entries, after the timestamp callbacks of any
    sequence of frames [mRenderPassDurationsNs] holds the last 30 of the
    old entries followed by the durations the successful callbacks
    measured, in order (all of them while there are fewer than 30); a
    failed mapping adds nothing.  So the deque never grows beyond 30
    entries. *)
Theorem renderPassDurations_window (frames : list (bool * Z * Z)) (durations : list Z) :
  (length durations <= 30)%nat ->
  let all := durations ++ RenderStats.measured frames in
  RenderStats.onTimestampsMappedAll frames durations = drop (length all - 30) all
  /\ (length (RenderStats.onTimestampsMappedAll frames durations) <= 30)%nat
  /\ length (RenderStats.onTimestampsMappedAll frames durations)
     = Nat.min 30 (length all).
Proof.
  intros L all.
  assert (E : RenderStats.onTimestampsMappedAll frames durations
              = drop (length all - 30) all).
  { subst all. revert durations L.
    induction frames as [|[[s b] e] frames IH]; intros durations L.
    - cbn. rewrite app_nil_r. replace (length durations - 30)%nat with 0%nat by lia.
      reflexivity.
    - unfold RenderStats.onTimestampsMappedAll. cbn [fold_left RenderStats.measured flat_map].
      fold (RenderStats.measured frames).
      fold (RenderStats.onTimestampsMappedAll frames
              (RenderStats.onTimestampsMapped s b e durations)).
      rewrite IH.
      + rewrite (onTimestampsMapped_window s b e durations L). cbv zeta.
        rewrite drop_window. rewrite <- app_assoc. reflexivity.
      + rewrite (onTimestampsMapped_window s b e durations L). cbv zeta.
        rewrite length_drop. lia. }
  rewrite E, length_drop. split; [reflexivity|]. split; lia.
Qed.

Lemma renderPassDurations_window_witness :
  RenderStats.onTimestampsMappedAll
    (map (fun k => (true, 0, Z.of_nat k)) (seq 0 40)) []
  = map Z.of_nat (seq 10 30).
Proof.
  rewrite (proj1 (renderPassDurations_window
                    (map (fun k => (true, 0, Z.of_nat k)) (seq 0 40)) []
                    ltac:(cbn; lia))).
  vm_compute. reflexivity.
Defined.

(** ** Average duration and progress *)

Lemma accumulate_from (ds : list Z) :
  forall acc : Z,
    0 <= acc -> Forall (fun d => 0 <= d) ds ->
    acc + foldr Z.add 0 ds < RenderStats.u64_modulus ->
    fold_left (fun sum d => RenderStats.u64 (sum + d)) ds acc = acc + foldr Z.add 0 ds.
Proof.
  induction ds as [|d ds IH]; intros acc A0 Hd Hs; cbn [fold_left foldr] in *; [lia|].
  inversion Hd as [|? ? D0 Hd']; subst.
  assert (0 <= foldr Z.add 0 ds).
  { clear -Hd'. induction Hd'; cbn [foldr]; lia. }
  unfold RenderStats.u64 at 2. rewrite Z.mod_small by lia.
  rewrite IH by (try assumption; lia). lia.
Qed.

Lemma sum_bounds (lo hi : Z) (ds : list Z) :
  Forall (fun d => lo <= d <= hi) ds ->
  Z.of_nat (length ds) * lo <= foldr Z.add 0 ds <= Z.of_nat (length ds) * hi.
Proof.
  induction 1 as [|d ds Hd _ IH]; cbn [foldr length]; [lia|].
  rewrite Nat2Z.inj_succ. lia.
Qed.

Local Open Scope Q_scope.

(** X20.  [averageRenderpassDurationMs] returns 0 when no duration has
    been recorded.  Otherwise, in exact arithmetic and while the sum of
    the recorded nanoseconds fits 64 bits, it is their mean divided by
    10^6, and so lies between the smallest and the largest recorded
    duration expressed in milliseconds. *)
Theorem averageRenderpassDurationMs_bounds :
  @RenderStats.averageRenderpassDurationMs Q QS.scalar [] == 0
  /\ (forall (lo hi : Z) (durations : list Z),
        durations <> [] -> (0 <= lo)%Z ->
        Forall (fun d => lo <= d <= hi)%Z durations ->
        (Z.of_nat (length durations) * hi < RenderStats.u64_modulus)%Z ->
        @RenderStats.averageRenderpassDurationMs Q QS.scalar durations
          == inject_Z (foldr Z.add 0%Z durations) / inject_Z (Z.of_nat (length durations))
             / 1000000
        /\ inject_Z lo / 1000000
             <= @RenderStats.averageRenderpassDurationMs Q QS.scalar durations
        /\ @RenderStats.averageRenderpassDurationMs Q QS.scalar durations
             <= inject_Z hi / 1000000).
Proof.
  split; [reflexivity|].
  intros lo hi durations Ne Hlo Hd Hs.
  pose proof (sum_bounds lo hi durations Hd) as [SL SU].
  assert (Hn : (0 < Z.of_nat (length durations))%Z).
  { destruct durations; [contradiction|]. cbn [length]. lia. }
  assert (Hacc : RenderStats.accumulate durations = foldr Z.add 0%Z durations).
  { unfold RenderStats.accumulate. rewrite accumulate_from; [lia|lia| |lia].
    eapply Forall_impl; [exact Hd|]. cbv beta. intros d Bd. lia. }
  set (n := Z.of_nat (length durations)) in *.
  set (s := foldr Z.add 0%Z durations) in *.
  assert (E : @RenderStats.averageRenderpassDurationMs Q QS.scalar durations
              == inject_Z s / inject_Z n / 1000000).
  { unfold RenderStats.averageRenderpassDurationMs.
    destruct durations as [|d ds]; [contradiction|].
    rewrite Hacc. fold n.
    change (@fmul Q QS.scalar) with Qmult. change (@fdiv Q QS.scalar) with Qdiv.
    change (@f32_of_u32 Q QS.scalar) with inject_Z.
    change (@fconst Q QS.scalar) with (fun q : Q => q). cbv beta.
    assert (Nn : ~ inject_Z n == 0).
    { intros Z. unfold Qeq in Z. simpl in Z. lia. }
    field. exact Nn. }
  split; [exact E|]. rewrite E.
  assert (Qn : 0 < inject_Z n) by (change 0 with (inject_Z 0); rewrite <- Zlt_Qlt; lia).
  assert (QL : inject_Z n * inject_Z lo <= inject_Z s).
  { rewrite <- inject_Z_mult, <- Zle_Qle. exact SL. }
  assert (QU : inject_Z s <= inject_Z n * inject_Z hi).
  { rewrite <- inject_Z_mult, <- Zle_Qle. exact SU. }
  assert (A : inject_Z lo <= inject_Z s / inject_Z n).
  { apply Qle_shift_div_l; [exact Qn|]. lra. }
  assert (B : inject_Z s / inject_Z n <= inject_Z hi).
  { apply Qle_shift_div_r; [exact Qn|]. lra. }
  split.
  - apply Qle_shift_div_l; [reflexivity|].
    assert (K : inject_Z lo / 1000000 * 1000000 == inject_Z lo) by field. lra.
  - apply Qle_shift_div_r; [reflexivity|].
    assert (K : inject_Z hi / 1000000 * 1000000 == inject_Z hi) by field. lra.
Qed.

Lemma averageRenderpassDurationMs_bounds_witness :
  @RenderStats.averageRenderpassDurationMs Q QS.scalar [2000000; 4000000; 3000000]%Z == 3.
Proof.
  destruct (proj2 averageRenderpassDurationMs_bounds 2000000%Z 4000000%Z
              [2000000; 4000000; 3000000]%Z) as (E & _).
  - discriminate.
  - lia.
  - repeat constructor; lia.
  - vm_compute. reflexivity.
  - rewrite E. reflexivity.
Defined.

(** X21.  [renderProgressPercentage], in exact arithmetic, for a
    positive target and a counter within the invariant [0 <= counter <=
    target] that [render] keeps: the value lies in [0, 100], it is 100
    exactly when the counter has reached the target and 0 exactly when no
    sample has been accumulated. *)
Theorem renderProgressPercentage_range (r : ReferencePathTracer.Renderer Q) :
  ReferencePathTracer.counterInvariant r ->
  (0 < ReferencePathTracer.target r)%Z ->
  0 <= RenderStats.renderProgressPercentage r
  /\ RenderStats.renderProgressPercentage r <= 100
  /\ (RenderStats.renderProgressPercentage r == 100
      <-> ReferencePathTracer.mAccumulatedSampleCount r = ReferencePathTracer.target r)
  /\ (RenderStats.renderProgressPercentage r == 0
      <-> ReferencePathTracer.mAccumulatedSampleCount r = 0%Z).
Proof.
  unfold ReferencePathTracer.counterInvariant, ReferencePathTracer.target,
    RenderStats.renderProgressPercentage.
  set (a := ReferencePathTracer.mAccumulatedSampleCount r).
  set (n := ReferencePathTracer.numSamplesPerPixel _).
  intros [A0 A1] Hn.
  change (@fmul Q QS.scalar) with Qmult. change (@fdiv Q QS.scalar) with Qdiv.
  change (@f32_of_u32 Q QS.scalar) with inject_Z.
  change (@fconst Q QS.scalar) with (fun q : Q => q). cbv beta.
  assert (Qn : 0 < inject_Z n) by (change 0 with (inject_Z 0); rewrite <- Zlt_Qlt; lia).
  assert (Qa0 : 0 <= inject_Z a) by (change 0 with (inject_Z 0); rewrite <- Zle_Qle; lia).
  assert (Qa1 : inject_Z a <= inject_Z n) by (rewrite <- Zle_Qle; lia).
  assert (Nn : ~ inject_Z n == 0) by lra.
  assert (E : 100 * inject_Z a / inject_Z n * inject_Z n == 100 * inject_Z a)
    by (field; exact Nn).
  split; [apply Qle_shift_div_l; [exact Qn|]; lra|].
  split; [apply Qle_shift_div_r; [exact Qn|]; lra|].
  split; split.
  - intros P. rewrite P in E. apply inject_Z_injective. lra.
  - intros Ea. rewrite Ea. field. exact Nn.
  - intros P. rewrite P in E. apply inject_Z_injective. change (inject_Z 0) with 0. lra.
  - intros Ea. rewrite Ea. change (inject_Z 0) with 0. field. exact Nn.
Qed.

Lemma renderProgressPercentage_range_witness :
  RenderStats.renderProgressPercentage
    (ReferencePathTracer.run (replicate 16 (ReferencePathTracer.OpRender true))
       (ReferencePathTracer.new (test_renderParams 64))) <= 100.
Proof.
  apply renderProgressPercentage_range.
  - vm_compute. split; discriminate.
  - reflexivity.
Defined.

Local Close Scope Q_scope.

(** ** Frame numbers *)

Section FrameNumbers.
Context {F : Type} `{Scalar F}.

Lemma setRenderParameters_frameCount (p : ReferencePathTracer.RenderParameters F)
    (r : ReferencePathTracer.Renderer F) :
  ReferencePathTracer.mFrameCount (ReferencePathTracer.setRenderParameters p r)
  = ReferencePathTracer.mFrameCount r.
Proof.
  unfold ReferencePathTracer.setRenderParameters.
  destruct (ReferencePathTracer.renderParameters_neq _ _); reflexivity.
Qed.

Lemma u32_add_assoc (f k : Z) : u32 (u32 (f + 1) + k) = u32 (f + (1 + k)).
Proof. unfold u32. rewrite Z.add_mod_idemp_l by discriminate. f_equal. ring. Qed.

Lemma uploads_frames (ops : list (ReferencePathTracer.Op (F:=F))) :
  forall r : ReferencePathTracer.Renderer F,
    is_u32 (ReferencePathTracer.mFrameCount r) ->
    map ReferencePathTracer.up_frameCount (RenderStats.uploads ops r)
    = map (fun k : nat => u32 (ReferencePathTracer.mFrameCount r + Z.of_nat k))
          (seq 0 (length (RenderStats.uploads ops r)))
    /\ ReferencePathTracer.mFrameCount (ReferencePathTracer.run ops r)
       = u32 (ReferencePathTracer.mFrameCount r
              + Z.of_nat (length (RenderStats.uploads ops r)))
    /\ length (RenderStats.uploads ops r)
       = length (List.filter (fun op => match op with
                                   | ReferencePathTracer.OpRender true => true
                                   | _ => false
                                   end) ops).
Proof.
  induction ops as [|op ops IH]; intros r Hf.
  - cbn. rewrite Z.add_0_r, u32_small by exact Hf. auto.
  - destruct op as [p|[|]]; cbn [RenderStats.uploads ReferencePathTracer.run fold_left
      ReferencePathTracer.apply List.filter].
    + fold (ReferencePathTracer.run ops (ReferencePathTracer.setRenderParameters p r)).
      destruct (IH (ReferencePathTracer.setRenderParameters p r)) as (E1 & E2 & E3).
      { now rewrite setRenderParameters_frameCount. }
      rewrite setRenderParameters_frameCount in E1, E2. auto.
    + fold (ReferencePathTracer.run ops (fst (ReferencePathTracer.render true r))).
      cbn [ReferencePathTracer.render negb fst snd length].
      set (r' := ReferencePathTracer.mkRenderer _ _ _).
      destruct (IH r') as (E1 & E2 & E3); [apply u32_is_u32|].
      cbn [ReferencePathTracer.mFrameCount r'] in E1, E2.
      unfold u32_add in E1, E2. split; [|split].
      * cbn [map seq ReferencePathTracer.up_frameCount]. f_equal.
        -- rewrite Z.add_0_r. symmetry. apply u32_small. exact Hf.
        -- rewrite E1, <- seq_shift, map_map. apply map_ext. intros k.
           rewrite u32_add_assoc. f_equal. lia.
      * rewrite E2, u32_add_assoc. f_equal. lia.
      * now rewrite E3.
    + fold (ReferencePathTracer.run ops (fst (ReferencePathTracer.render false r))).
      cbn [ReferencePathTracer.render negb fst snd]. apply IH. exact Hf.
Qed.

End FrameNumbers.

(** X22.  Frame numbers are never reset: over any sequence of
    [setRenderParameters] and [render] calls, the [render] calls that
    obtain a texture view upload the consecutive frame numbers
    [f, f + 1, ...] (modulo 2^32) from the renderer's [mFrameCount] [f],
    whatever parameter changes and failed calls lie in between, and
    [mFrameCount] ends at [f] plus the number of such calls. *)
Theorem render_frame_numbers :
  forall (F : Type) (S : Scalar F) (ops : list (ReferencePathTracer.Op (F:=F)))
         (r : ReferencePathTracer.Renderer F),
    is_u32 (ReferencePathTracer.mFrameCount r) ->
    map ReferencePathTracer.up_frameCount (RenderStats.uploads ops r)
    = map (fun k : nat => u32 (ReferencePathTracer.mFrameCount r + Z.of_nat k))
          (seq 0 (length (RenderStats.uploads ops r)))
    /\ ReferencePathTracer.mFrameCount (ReferencePathTracer.run ops r)
       = u32 (ReferencePathTracer.mFrameCount r
              + Z.of_nat (length (RenderStats.uploads ops r)))
    /\ length (RenderStats.uploads ops r)
       = length (List.filter (fun op => match op with
                                   | ReferencePathTracer.OpRender true => true
                                   | _ => false
                                   end) ops).
Proof. intros F S ops r Hf. exact (uploads_frames ops r Hf). Qed.

Lemma render_frame_numbers_witness :
  map ReferencePathTracer.up_frameCount
    (RenderStats.uploads
       [ReferencePathTracer.OpRender true;
        ReferencePathTracer.OpSetRenderParameters (test_renderParams 8);
        ReferencePathTracer.OpRender false;
        ReferencePathTracer.OpRender true;
        ReferencePathTracer.OpRender true]
       (ReferencePathTracer.new (test_renderParams 64)))
  = [0; 1; 2].
Proof.
  rewrite (proj1 (render_frame_numbers Q QS.scalar
                    [ReferencePathTracer.OpRender true;
                     ReferencePathTracer.OpSetRenderParameters (test_renderParams 8);
                     ReferencePathTracer.OpRender false;
                     ReferencePathTracer.OpRender true;
                     ReferencePathTracer.OpRender true]
                    (ReferencePathTracer.new (test_renderParams 64))
                    ltac:(vm_compute; split; [discriminate|reflexivity]))).
  vm_compute. reflexivity.
Defined.

(** ** The shader's sky and the library's sky *)


